(** * bee-video-yt: word prioritisation and the play loop of script.py

    The development embeds two pieces of [script.py]:
    - [score_valid_word] and [get_prioritized_words] (lines 43-87), as
      programs over a heap of Python objects, so that sharing between the
      input and the lists the function builds is visible;
    - the word loop of [run_browser_automation] (lines 114-170), as a
      program over an abstract browser page that records every call made
      to it.

    Around them it embeds [fetch_daily_words] (lines 33-41),
    [generate_local_html] (lines 325-360), [process_video] (lines 172-206),
    the start of the browser (lines 89-112) and [main] (lines 284-323), as
    programs over the heap and a state of the world outside (network, file
    system, video library) whose calls are recorded.  [upload_to_youtube]
    and [get_authenticated_service] are calls of that world. *)

From Stdlib Require Import ZArith QArith Ascii String DecimalString.
From stdpp Require Import gmap strings list fin_maps sorting.

Local Open Scope string_scope.
Local Open Scope list_scope.
Local Open Scope Z_scope.

(** ** Exceptions and the state-and-exception monad *)

(** The exception classes the embedded code can meet.  [SurfaceError] stands
    for any [Exception] raised by a Playwright call; [BadRef] is not a
    Python exception: it marks a reference to an address that the heap does
    not hold, which closed heaps exclude. *)
Inductive exn : Type :=
  | TypeError
  | KeyError
  | IndexError
  | AttributeError
  | SurfaceError (msg : string)
  | BadRef.

(** A call returns a value or raises. *)
Inductive outcome (A : Type) : Type :=
  | Ok (a : A)
  | Raise (e : exn).
Arguments Ok {A} a.
Arguments Raise {A} e.

(** A computation threads a state [S]; a raised exception keeps the state
    reached so far. *)
Definition M (S A : Type) : Type := S → outcome A * S.

(** The computation that returns [a]. *)
Definition ret {S A} (a : A) : M S A := λ s, (Ok a, s).

(** [c], then [k] on its value; an exception of [c] skips [k]. *)
Definition bind {S A B} (c : M S A) (k : A → M S B) : M S B :=
  λ s, match c s with
       | (Ok a, s') => k a s'
       | (Raise e, s') => (Raise e, s')
       end.

(** [raise e]. *)
Definition raise {S A} (e : exn) : M S A := λ s, (Raise e, s).

(** A computation that only reads the state. *)
Definition reading {S A} (f : S → outcome A) : M S A := λ s, (f s, s).

Notation "'let*' x ':=' c 'in' k" := (bind c (λ x, k))
  (at level 10, x name, c at level 100, k at level 200,
   format "'[v' 'let*'  x  ':='  c  'in' '/' k ']'").
Notation "'exec' c 'in' k" := (bind c (λ _, k))
  (at level 10, c at level 100, k at level 200,
   format "'[v' 'exec'  c  'in' '/' k ']'").

(** [for x in xs: body(x)], without [break]. *)
Fixpoint for_each {S A} (xs : list A) (body : A → M S unit) : M S unit :=
  match xs with
  | [] => ret tt
  | x :: rest => exec body x in for_each rest body
  end.

(** A list comprehension [[f(x) for x in xs]]. *)
Fixpoint map_m {S A B} (f : A → M S B) (xs : list A) : M S (list B) :=
  match xs with
  | [] => ret []
  | x :: rest => let* y := f x in let* ys := map_m f rest in ret (y :: ys)
  end.

(** ** Python values and the heap *)

(** The values are those [json] builds: [None], booleans, integers, floats,
    strings, lists and dicts with string keys.  A string is a sequence of
    characters, one [ascii] for each character (code points below 256, which
    covers the lowercase words of the puzzle). *)

(** An address of the heap. *)
Definition loc : Type := nat.

(** A float as [json] can produce it: a finite value (a rational), an
    infinity, or the decoder's [NaN] constant. *)
Inductive pyfloat : Type :=
  | FFin (q : Q)
  | FInf (negative : bool)
  | FNan.

(** Immutable values are carried directly; lists and dicts are objects on
    the heap and a value refers to them by address. *)
Inductive val : Type :=
  | VNone
  | VBool (b : bool)
  | VInt (z : Z)
  | VFloat (f : pyfloat)
  | VStr (s : string)
  | VRef (l : loc).

(** The mutable objects. *)
Inductive obj : Type :=
  | OList (items : list val)
  | ODict (fields : gmap string val).

(** The heap holds the object of address [l] at index [l]; an allocation
    appends to it. *)
Abbreviation heap := (list obj).

(** ** Operations of the object model, as far as the code uses them *)

(** [bool(f)]: only zero is false. *)
Definition truthy_float (f : pyfloat) : bool :=
  match f with
  | FFin q => negb (Qeq_bool q 0)
  | _ => true
  end.

(** [bool(v)], as [not data] and the [if] of line 78 take it. *)
Definition truthy (h : heap) (v : val) : outcome bool :=
  match v with
  | VNone => Ok false
  | VBool b => Ok b
  | VInt z => Ok (negb (z =? 0))
  | VFloat f => Ok (truthy_float f)
  | VStr s => Ok (negb (String.eqb s ""))
  | VRef l =>
      match h !! l with
      | Some (OList items) => Ok (negb (Nat.eqb (length items) 0))
      | Some (ODict fields) => Ok (negb (Nat.eqb (size fields) 0))
      | None => Raise BadRef
      end
  end.

(** The number a numeric value stands for, [None] for other values. *)
Definition number_of (v : val) : option pyfloat :=
  match v with
  | VBool b => Some (FFin (inject_Z (if b then 1 else 0)))
  | VInt z => Some (FFin (inject_Z z))
  | VFloat f => Some f
  | _ => None
  end.

(** [x == y] on floats; [same_object] says whether two [NaN]s count as
    equal, which holds for the identity test of containers only. *)
Definition float_eqb (same_object : bool) (x y : pyfloat) : bool :=
  match x, y with
  | FFin p, FFin q => Qeq_bool p q
  | FInf a, FInf b => Bool.eqb a b
  | FNan, FNan => same_object
  | _, _ => false
  end.

(** [x == y] for values that are not both references; a reference equals no
    immutable value. *)
Definition py_eqb (same_object : bool) (x y : val) : bool :=
  match x, y with
  | VNone, VNone => true
  | VStr s, VStr t => String.eqb s t
  | VRef _, _ | _, VRef _ => false
  | _, _ =>
      match number_of x, number_of y with
      | Some a, Some b => float_eqb same_object a b
      | _, _ => false
      end
  end.

(** [sub in s] on strings. *)
Fixpoint is_substring (sub s : string) : bool :=
  String.prefix sub s ||
  match s with
  | EmptyString => false
  | String _ rest => is_substring sub rest
  end.

(** Iterating a string gives its characters, as strings of length one. *)
Definition chars (s : string) : list val :=
  (λ c, VStr (String c EmptyString)) <$> list_ascii_of_string s.

(** Iterating a dict gives its keys.  They come here in the order of the
    map, not in insertion order; the code never depends on the order (a
    dict in place of the word list raises at its first key, and [set] of a
    dict counts its keys). *)
Definition keys (fields : gmap string val) : list val :=
  VStr <$> (map_to_list fields).*1.

(** [key in v] for a string [key]. *)
Definition contains (key : string) (h : heap) (v : val) : outcome bool :=
  match v with
  | VStr s => Ok (is_substring key s)
  | VRef l =>
      match h !! l with
      | Some (ODict fields) => Ok (bool_decide (is_Some (fields !! key)))
      | Some (OList items) => Ok (existsb (py_eqb true (VStr key)) items)
      | None => Raise BadRef
      end
  | _ => Raise TypeError
  end.

(** [v[key]] for a string [key]. *)
Definition getitem (key : string) (h : heap) (v : val) : outcome val :=
  match v with
  | VRef l =>
      match h !! l with
      | Some (ODict fields) =>
          match fields !! key with
          | Some x => Ok x
          | None => Raise KeyError
          end
      | Some (OList _) => Raise TypeError
      | None => Raise BadRef
      end
  | _ => Raise TypeError
  end.

(** [v.get(key, default)]; only dicts have the method. *)
Definition dict_get (key : string) (dflt : val) (h : heap) (v : val)
  : outcome val :=
  match v with
  | VRef l =>
      match h !! l with
      | Some (ODict fields) => Ok (default dflt (fields !! key))
      | Some (OList _) => Raise AttributeError
      | None => Raise BadRef
      end
  | _ => Raise AttributeError
  end.

(** The items a [for] loop or [set(...)] draws from [v]. *)
Definition iter (h : heap) (v : val) : outcome (list val) :=
  match v with
  | VStr s => Ok (chars s)
  | VRef l =>
      match h !! l with
      | Some (OList items) => Ok items
      | Some (ODict fields) => Ok (keys fields)
      | None => Raise BadRef
      end
  | _ => Raise TypeError
  end.

(** [len(v)]. *)
Definition py_len (h : heap) (v : val) : outcome Z :=
  match v with
  | VStr s => Ok (Z.of_nat (String.length s))
  | VRef l =>
      match h !! l with
      | Some (OList items) => Ok (Z.of_nat (length items))
      | Some (ODict fields) => Ok (Z.of_nat (size fields))
      | None => Raise BadRef
      end
  | _ => Raise TypeError
  end.

(** Lists and dicts are unhashable. *)
Definition hashable (v : val) : bool :=
  match v with
  | VRef _ => false
  | _ => true
  end.

(** The number of elements a set keeps out of [xs]: one for each class of
    equal values. *)
Fixpoint count_distinct (xs : list val) : nat :=
  match xs with
  | [] => O
  | x :: rest =>
      if existsb (py_eqb true x) rest then count_distinct rest
      else S (count_distinct rest)
  end.

(** [len(set(v))]. *)
Definition len_set (h : heap) (v : val) : outcome Z :=
  match iter h v with
  | Ok xs =>
      if forallb hashable xs then Ok (Z.of_nat (count_distinct xs))
      else Raise TypeError
  | Raise e => Raise e
  end.

(** ** Writing to the heap *)

(** A list display or dict display allocates a new object, at the first
    free address. *)
Definition alloc (o : obj) : M heap val :=
  λ h, (Ok (VRef (length h)), h ++ [o]).

(** The items of the list object [v] refers to. *)
Definition read_list (v : val) : M heap (list val) :=
  reading (λ h, match v with
                | VRef l =>
                    match h !! l with
                    | Some (OList items) => Ok items
                    | Some (ODict _) => Raise TypeError
                    | None => Raise BadRef
                    end
                | _ => Raise TypeError
                end).

(** Replace the contents of the list object [v] refers to, in place. *)
Definition write_list (v : val) (items : list val) : M heap unit :=
  λ h, match v with
       | VRef l =>
           match h !! l with
           | Some (OList _) => (Ok tt, <[l := OList items]> h)
           | Some (ODict _) => (Raise TypeError, h)
           | None => (Raise BadRef, h)
           end
       | _ => (Raise TypeError, h)
       end.

(** [v.append(x)]. *)
Definition list_append (v x : val) : M heap unit :=
  let* items := read_list v in write_list v (items ++ [x]).

(** [v.pop(i)] for an index [i >= 0]. *)
Definition list_pop (v : val) (i : nat) : M heap val :=
  let* items := read_list v in
  match items !! i with
  | Some x => exec write_list v (take i items ++ drop (S i) items) in ret x
  | None => raise IndexError
  end.

(** [v.insert(0, x)]. *)
Definition list_insert_front (v x : val) : M heap unit :=
  let* items := read_list v in write_list v (x :: items).

(** ** [score_valid_word] (lines 43-55) *)

(** The argument is whatever value the caller passes; [len] and [set]
    raise [TypeError] on a value that has no length or cannot be iterated. *)
Definition score_valid_word (word : val) : M heap Z :=
  let* n := reading (λ h, py_len h word) in
  if n =? 4 then ret 1
  else
    let* score := reading (λ h, py_len h word) in
    let* k := reading (λ h, len_set h word) in
    if k =? 7 then ret (score + 7) else ret score.

(** ** [get_prioritized_words] (lines 57-87) *)

(** [list.sort(key=..., reverse=True)] computes the key of every item and
    orders the items by decreasing key, items of equal key staying in the
    order they had.  The order is that of this insertion sort: an item goes
    in front of the first item whose key is not larger than its own. *)
Fixpoint insert_desc {A} (k : Z) (x : A) (l : list (Z * A)) : list (Z * A) :=
  match l with
  | [] => [(k, x)]
  | (k', y) :: rest =>
      if k' <=? k then (k, x) :: (k', y) :: rest
      else (k', y) :: insert_desc k x rest
  end.

(** The decorated items, by decreasing key. *)
Fixpoint sort_desc {A} (l : list (Z * A)) : list (Z * A) :=
  match l with
  | [] => []
  | (k, x) :: rest => insert_desc k x (sort_desc rest)
  end.

(** The keys of line 75 are the ints stored at line 72. *)
Definition as_int (v : val) : outcome Z :=
  match v with
  | VInt z => Ok z
  | VBool b => Ok (if b then 1 else 0)
  | _ => Raise TypeError
  end.

(** [v.sort(key=key, reverse=True)], in place. *)
Definition list_sort_reverse (key : val → M heap Z) (v : val) : M heap unit :=
  let* items := read_list v in
  let* ks := map_m key items in
  write_list v (sort_desc (zip ks items)).*2.

(** [lambda x: x["score"]]. *)
Definition score_key (x : val) : M heap Z :=
  let* s := reading (λ h, getitem "score" h x) in
  reading (λ _, as_int s).

(** The three values stored for a word at line 72. *)
Record scored : Type := Scored {
  word : val;
  score : Z;
  is_pangram : bool
}.

(** The dict display of line 72. *)
Definition entry_fields (e : scored) : gmap string val :=
  <["word" := word e]> (<["score" := VInt (score e)]>
    {["is_pangram" := VBool (is_pangram e)]}).

(** Line 62: [not data or "words" not in data]. *)
Definition no_words (data : val) : M heap bool :=
  let* t := reading (λ h, truthy h data) in
  if negb t then ret true
  else let* c := reading (λ h, contains "words" h data) in ret (negb c).

(** The items line 67 iterates over. *)
Definition word_items (data : val) : M heap (list val) :=
  let* ws := reading (λ h, getitem "words" h data) in
  reading (λ h, iter h ws).

(** Lines 68-71: what is read and computed for one item. *)
Definition read_entry (item : val) : M heap scored :=
  let* word := reading (λ h, getitem "word" h item) in
  let* score := score_valid_word word in
  let* flag := reading (λ h, dict_get "is_pangram" (VInt 0) h item) in
  let* is_pangram :=
    (if py_eqb false flag (VInt 1) then ret true
     else let* k := reading (λ h, len_set h word) in ret (k =? 7)) in
  ret (Scored word score is_pangram).

(** Lines 80-85: [items] is what is left to enumerate and [i] the index of
    its head; the loop ends at the first move. *)
Fixpoint move_first_non_pangram (scored_words : val) (items : list val)
    (i : nat) : M heap unit :=
  match items with
  | [] => ret tt
  | item :: rest =>
      let* p := reading (λ h, getitem "is_pangram" h item) in
      let* t := reading (λ h, truthy h p) in
      if negb t then
        let* non_pangram := list_pop scored_words i in
        list_insert_front scored_words non_pangram
      else move_first_non_pangram scored_words rest (S i)
  end.

(** Lines 78-85: [if scored_words and scored_words[0]["is_pangram"]]. *)
Definition demote_first (scored_words : val) : M heap unit :=
  let* sorted := read_list scored_words in
  match sorted with
  | first :: _ =>
      let* p := reading (λ h, getitem "is_pangram" h first) in
      let* t := reading (λ h, truthy h p) in
      if t then move_first_non_pangram scored_words sorted 0
      else ret tt
  | [] => ret tt
  end.

(** Line 72: the dict is built and appended. *)
Definition add_entry (scored_words item : val) : M heap unit :=
  let* e := read_entry item in
  let* entry := alloc (ODict (entry_fields e)) in
  list_append scored_words entry.

(** The whole function.  The result is a reference to a new list. *)
Definition get_prioritized_words (data : val) : M heap val :=
  let* absent := no_words data in
  if absent then alloc (OList [])
  else
    let* scored_words := alloc (OList []) in
    let* items := word_items data in
    exec for_each items (add_entry scored_words) in
    exec list_sort_reverse score_key scored_words in
    exec demote_first scored_words in
    let* final := read_list scored_words in
    let* words := map_m (λ item, reading (λ h, getitem "word" h item)) final in
    alloc (OList words).

(** The list a returned reference denotes. *)
Definition list_at (h : heap) (v : val) : option (list val) :=
  match v with
  | VRef l => match h !! l with Some (OList items) => Some items | _ => None end
  | _ => None
  end.

(** ** Closed heaps *)

(** A reference is in range when it is below the size of the heap. *)
Definition val_ok (n : nat) (v : val) : bool :=
  match v with
  | VRef l => Nat.ltb l n
  | _ => true
  end.

(** The values an object holds. *)
Definition obj_vals (o : obj) : list val :=
  match o with
  | OList items => items
  | ODict fields => (map_to_list fields).*2
  end.

(** Every reference stored in the heap points into the heap. *)
Definition closed (h : heap) : bool :=
  forallb (λ o, forallb (val_ok (length h)) (obj_vals o)) h.

(** ** The lists the in-place operations leave *)

(** [es] after line 75. *)
Definition sorted_by_score (es : list scored) : list scored :=
  (sort_desc (zip (score <$> es) es)).*2.

(** Index of the first entry of [es] that is not a pangram, counting from
    [i] for its head. *)
Fixpoint first_non_pangram (es : list scored) (i : nat) : option nat :=
  match es with
  | [] => None
  | e :: rest => if is_pangram e then first_non_pangram rest (S i) else Some i
  end.

(** [x = l.pop(i); l.insert(0, x)]. *)
Definition move_to_front {A} (i : nat) (l : list A) : list A :=
  match l !! i with
  | Some x => x :: take i l ++ drop (S i) l
  | None => l
  end.

(** The sorted list [es] after lines 78-85. *)
Definition demote (es : list scored) : list scored :=
  match es with
  | first :: _ =>
      if is_pangram first then
        match first_non_pangram es 0 with
        | Some i => move_to_front i es
        | None => es
        end
      else es
  | [] => []
  end.

(** The entries in the order of the returned words. *)
Definition prioritized (es : list scored) : list scored :=
  demote (sorted_by_score es).

Local Open Scope nat_scope.

(** ** Reading from a heap that has grown *)

(** [H] holds every object of [h] at the same address. *)
Definition agree (h H : heap) : Prop :=
  ∀ l, (l < length h)%nat → H !! l = h !! l.

(** [c] only reads, and reads the same from [h] and from [H]. *)
Definition framed {A} (h H : heap) (c : M heap A) : Prop :=
  ∃ r, c h = (r, h) ∧ c H = (r, H).

(** ** Decorated lists and their order *)

(** Every entry with its key. *)
Definition decorate (es : list scored) : list (Z * scored) :=
  zip (score <$> es) es.

(** A later item never has a larger key. *)
Definition key_desc {A} (p q : Z * A) : Prop := (q.1 ≤ p.1)%Z.

(** Entries in order of decreasing score. *)
Definition score_desc (a b : scored) : Prop := (score b ≤ score a)%Z.

(** Two decorated lists with the same keys and related items. *)
Definition paired {A B} (R : A → B → Prop) (p : Z * A) (q : Z * B) : Prop :=
  p.1 = q.1 ∧ R p.2 q.2.

(** ** The objects the function allocates *)

(** The dict object made for an entry. *)
Definition entry_obj (e : scored) : obj := ODict (entry_fields e).

(** The heap while the function runs: the caller's heap [H], then the list
    [scored_words] holding [refs], then one dict for every entry of [es]. *)
Definition layout (H : heap) (refs : list val) (es : list scored) : heap :=
  H ++ OList refs :: (entry_obj <$> es).

(** The address of the dict of the [i]-th entry. *)
Definition entry_ref (H : heap) (i : nat) : val := VRef (S (length H) + i).

(** [r] refers to the dict made for [e]. *)
Definition refers (H : heap) (es : list scored) (r : val) (e : scored) : Prop :=
  ∃ i, r = entry_ref H i ∧ es !! i = Some e.

(** The references to the first [k] entry dicts, in order. *)
Definition entry_refs (H : heap) (k : nat) : list val :=
  entry_ref H <$> seq 0 k.

(** The entries lines 68-71 compute for [items], up to the first item that
    raises, and the exception it raises. *)
Fixpoint scan (h : heap) (items : list val) : list scored * option exn :=
  match items with
  | [] => ([], None)
  | item :: rest =>
      match fst (read_entry item h) with
      | Ok e => (e :: (scan h rest).1, (scan h rest).2)
      | Raise x => ([], Some x)
      end
  end.

(** What lines 62-71 read from [h]: the scored entries, or the first
    exception. *)
Definition read_input (h : heap) (data : val) : outcome (list scored) :=
  match fst (no_words data h) with
  | Raise x => Raise x
  | Ok true => Ok []
  | Ok false =>
      match fst (word_items data h) with
      | Raise x => Raise x
      | Ok items =>
          match (scan h items).2 with
          | None => Ok (scan h items).1
          | Some x => Raise x
          end
      end
  end.

(** Whether the data source flags [item]: [item.get("is_pangram", 0) == 1]. *)
Definition flagged (h : heap) (item : val) : bool :=
  match dict_get "is_pangram" (VInt 0) h item with
  | Ok flag => py_eqb false flag (VInt 1)
  | Raise _ => false
  end.

(** Two results are the same when both are lists of the same items or both
    are the same exception. *)
Definition same_result (H1 : heap) (o1 : outcome val)
    (H2 : heap) (o2 : outcome val) : Prop :=
  match o1, o2 with
  | Ok r1, Ok r2 => ∃ ws, list_at H1 r1 = Some ws ∧ list_at H2 r2 = Some ws
  | Raise x1, Raise x2 => x1 = x2
  | _, _ => False
  end.

(** ** Words that are strings, and well-formed puzzle data *)

(** The number of distinct characters of [w]. *)
Definition distinct_letters (w : string) : nat :=
  size (list_to_set (list_ascii_of_string w) : gset ascii).

(** A character as the value iteration gives. *)
Definition char_val (c : ascii) : val := VStr (String c EmptyString).

(** The score of a string, from its length and its distinct characters. *)
Definition word_score (w : string) : Z :=
  if (Z.of_nat (String.length w) =? 4)%Z then 1%Z
  else if (Z.of_nat (distinct_letters w) =? 7)%Z
       then (Z.of_nat (String.length w) + 7)%Z
       else Z.of_nat (String.length w).

(** [item] is a dict whose ["word"] is the string [w]. *)
Definition word_entry (h : heap) (item : val) (w : string) : Prop :=
  ∃ l fields, item = VRef l ∧ h !! l = Some (ODict fields)
              ∧ fields !! "word" = Some (VStr w).

(** [data] is a dict whose ["words"] is a list holding [items]. *)
Definition puzzle_data (h : heap) (data : val) (items : list val) : Prop :=
  ∃ l fields lw, data = VRef l ∧ h !! l = Some (ODict fields)
                 ∧ fields !! "words" = Some (VRef lw)
                 ∧ h !! lw = Some (OList items).

(** The entry computed for a well-formed item. *)
Definition entry_of (h : heap) (item : val) (w : string) : scored :=
  Scored (VStr w) (word_score w)
    (flagged h item || (Z.of_nat (distinct_letters w) =? 7)%Z).

(** The entry of a well-formed item: the word, the score of the word alone,
    and a pangram mark that the flag of the data source can set as well. *)
Definition entry_reflects (h : heap) (item : val) (e : scored) : Prop :=
  ∃ w, word_entry h item w ∧ word e = VStr w
       ∧ score e = word_score w
       ∧ is_pangram e
         = flagged h item || (Z.of_nat (distinct_letters w) =? 7)%Z.

(** * The play loop of [run_browser_automation] (lines 114-170) *)

(** [try: c except: handler]. *)
Definition try_except {S A} (c : M S A) (handler : exn → M S A) : M S A :=
  λ s, match c s with
       | (Ok a, s') => (Ok a, s')
       | (Raise e, s') => handler e s'
       end.

(** [try: c finally: cleanup]. *)
Definition try_finally {S A} (c : M S A) (cleanup : M S unit) : M S A :=
  λ s, match c s with
       | (r, s') =>
           match cleanup s' with
           | (Ok _, s'') => (r, s'')
           | (Raise e, s'') => (Raise e, s'')
           end
       end.

(** What the function does that can be observed from outside: the calls on
    the page, the pauses (bounds in milliseconds; [random.uniform] picks the
    duration between them) and the lines printed. *)
Inductive event : Type :=
  | Print (line : string)
  | Sleep (lo hi : N)
  | Goto
  | WaitPlay
  | ClickPlay
  | TypeChar (c : ascii)
  | PressEnter
  | QueryRank
  | InnerText
  | IsVisible
  | ClosePage
  | CloseContext
  | CloseBrowser.

(** The browser page: every call may change the state of the page and may
    raise. *)
Record page (St : Type) : Type := Page {
  (* page.goto(GAME_URL, wait_until="domcontentloaded") *)
  goto : M St unit;
  (* page.wait_for_selector("button:has-text('Play')", timeout=5000) *)
  wait_for_play : M St unit;
  (* page.click("button:has-text('Play')") *)
  click_play : M St unit;
  (* page.keyboard.type(char) *)
  keyboard_type : ascii → M St unit;
  (* page.keyboard.press("Enter") *)
  keyboard_press_enter : M St unit;
  (* page.query_selector("#rank-name"): whether an element is found *)
  query_rank : M St bool;
  (* rank_label.inner_text() *)
  inner_text : M St string;
  (* page.get_by_text("Queen Bee").is_visible() *)
  queen_bee_visible : M St bool;
  (* page.close(), context.close(), browser.close() *)
  close_page : M St unit;
  close_context : M St unit;
  close_browser : M St unit
}.
Arguments goto {St}.
Arguments wait_for_play {St}.
Arguments click_play {St}.
Arguments keyboard_type {St}.
Arguments keyboard_press_enter {St}.
Arguments query_rank {St}.
Arguments inner_text {St}.
Arguments queen_bee_visible {St}.
Arguments close_page {St}.
Arguments close_context {St}.
Arguments close_browser {St}.

(** Whitespace as [str.strip] sees it, for characters below 256. *)
Definition is_space (c : ascii) : bool :=
  let n := N_of_ascii c in
  ((9 <=? n) && (n <=? 13) || (28 <=? n) && (n <=? 32)
   || (n =? 133) || (n =? 160))%N.

(** The characters of [s] after its leading whitespace. *)
Fixpoint lstrip (s : list ascii) : list ascii :=
  match s with
  | c :: rest => if is_space c then lstrip rest else s
  | [] => []
  end.

(** [s.strip()]. *)
Definition strip (s : string) : string :=
  string_of_list_ascii
    (rev (lstrip (rev (lstrip (list_ascii_of_string s))))).

(** How the body of the word loop ends. *)
Inductive flow : Type := Continue | Break.

(** [str(e)], as line 166 prints it. *)
Definition exn_text (e : exn) : string :=
  match e with
  | SurfaceError msg => msg
  | TypeError => "TypeError"
  | KeyError => "KeyError"
  | IndexError => "IndexError"
  | AttributeError => "AttributeError"
  | BadRef => "BadRef"
  end.

Section play.
Context {St : Type} (p : page St).

(** The page and what has been observed so far. *)
Definition world : Type := St * list event.

(** A pause or a printed line is recorded. *)
Definition log (ev : event) : M world unit :=
  λ '(st, tr), (Ok tt, (st, tr ++ [ev])).

(** A call on the page, recorded whether or not it raises. *)
Definition call {A} (ev : event) (op : M St A) : M world A :=
  λ '(st, tr), let '(r, st') := op st in (r, (st', tr ++ [ev])).

(** Lines 132-134: one character is typed. *)
Definition type_char (char : ascii) : M world unit :=
  exec call (TypeChar char) (keyboard_type p char) in
  log (Sleep 200 500).

(** Lines 129-138: the word is typed and submitted. *)
Definition submit (word : string) : M world unit :=
  exec log (Print ("Typing word: " ++ word)%string) in
  exec for_each (list_ascii_of_string word) type_char in
  exec log (Sleep 300 600) in
  exec call PressEnter (keyboard_press_enter p) in
  log (Sleep 1500 1500).

(** Lines 141-157: the stop condition, inside [try: ... except: pass]. *)
Definition check_stop : M world flow :=
  try_except
    (let* rank_label := call QueryRank (query_rank p) in
     let* genius :=
       (if rank_label then
          let* text := call InnerText (inner_text p) in
          if String.eqb (strip text) "Genius" then
            exec log (Print "Target rank 'Genius' reached. Stopping automation.") in
            exec log (Sleep 3000 3000) in
            ret true
          else ret false
        else ret false) in
     if genius then ret Break
     else
       let* visible := call IsVisible (queen_bee_visible p) in
       if visible then
         exec log (Print "Queen Bee reached. Stopping.") in ret Break
       else ret Continue)
    (λ _, ret Continue).

(** One round of the loop of line 128. *)
Definition play_word (word : string) : M world flow :=
  exec submit word in
  let* f := check_stop in
  match f with
  | Break => ret Break
  | Continue => exec log (Sleep 6000 7000) in ret Continue
  end.

(** [for word in words], left early by [break]. *)
Fixpoint play_words (words : list string) : M world flow :=
  match words with
  | [] => ret Continue
  | word :: rest =>
      let* f := play_word word in
      match f with
      | Break => ret Break
      | Continue => play_words rest
      end
  end.

(** Lines 115-126. *)
Definition open_game : M world unit :=
  exec log (Print "Navigating to game...") in
  exec call Goto (goto p) in
  exec try_except
         (exec call WaitPlay (wait_for_play p) in
          call ClickPlay (click_play p))
         (λ _, ret tt) in
  log (Sleep 2000 2000).

(** Lines 168-170. *)
Definition close_all : M world unit :=
  exec call ClosePage (close_page p) in
  exec call CloseContext (close_context p) in
  call CloseBrowser (close_browser p).

(** Lines 114-170, on the page made at line 112 (launching the browser,
    lines 91-112, is outside the [try] and outside this model).  The
    function has no [return]: its value is [None]. *)
Definition run_browser_automation (words : list string) : M world unit :=
  try_finally
    (try_except
       (exec open_game in
        exec play_words words in
        log (Sleep 5000 5000))
       (λ e, log (Print ("Browser automation error: " ++ exn_text e)%string)))
    close_all.
End play.

(** ** Pages for examples *)

(** A page whose state is the number of words submitted so far.  [rank n]
    is the rank label after [n] submissions ([None]: no label element),
    [visible n] whether "Queen Bee" is visible then, and [typing n c] the
    result of typing [c] then. *)
Definition counting_page (rank : nat → outcome (option string))
    (visible : nat → outcome bool) (typing : nat → ascii → outcome unit)
  : page nat :=
  {| goto := ret tt;
     wait_for_play := ret tt;
     click_play := ret tt;
     keyboard_type := λ c n, (typing n c, n);
     keyboard_press_enter := λ n, (Ok tt, S n);
     query_rank := λ n,
       (match rank n with
        | Ok label => Ok (bool_decide (is_Some label))
        | Raise e => Raise e
        end, n);
     inner_text := λ n,
       (match rank n with
        | Ok (Some text) => Ok text
        | Ok None => Raise (SurfaceError "no element")
        | Raise e => Raise e
        end, n);
     queen_bee_visible := λ n, (visible n, n);
     close_page := ret tt;
     close_context := ret tt;
     close_browser := ret tt |}.

(** "Genius" shows after the third word. *)
Definition genius_after_3 : page nat :=
  counting_page
    (λ n, Ok (Some (if Nat.eqb n 3 then " Genius " else "Solid")))
    (λ _, Ok false) (λ _ _, Ok tt).

(** No rank label and no "Queen Bee", ever. *)
Definition quiet_page : page nat :=
  counting_page (λ _, Ok None) (λ _, Ok false) (λ _ _, Ok tt).

(** The rank label cannot be read, while "Queen Bee" is visible. *)
Definition unreadable_rank_page : page nat :=
  counting_page (λ _, Raise (SurfaceError "rank read failed"))
    (λ _, Ok true) (λ _ _, Ok tt).

(** Every probe raises. *)
Definition failing_probes_page : page nat :=
  counting_page (λ _, Raise (SurfaceError "rank read failed"))
    (λ _, Raise (SurfaceError "visibility check failed")) (λ _ _, Ok tt).

(** The keyboard stops working after the first word. *)
Definition broken_keyboard_page : page nat :=
  counting_page (λ _, Ok None) (λ _, Ok false)
    (λ n _, if Nat.eqb n 0 then Ok tt else Raise (SurfaceError "typing failed")).

(** ** Keystrokes *)

(** The events that send a key to the page. *)
Definition is_key (ev : event) : bool :=
  match ev with
  | TypeChar _ | PressEnter => true
  | _ => false
  end.

(** The keys sent to the page, in order. *)
Definition keystrokes (tr : list event) : list event := List.filter is_key tr.

(** The keys of one word: its characters, then Enter. *)
Definition word_keys (w : string) : list event :=
  (TypeChar <$> list_ascii_of_string w) ++ [PressEnter].

(** The keys of a list of words. *)
Fixpoint keys_of (words : list string) : list event :=
  match words with
  | [] => []
  | w :: rest => word_keys w ++ keys_of rest
  end.

(** ** The stop condition and the working keyboard *)

Section conditions.
Context {St : Type} (p : page St).

(** The rank label is read and, stripped, is "Genius". *)
Definition genius_seen (st st' : St) : Prop :=
  ∃ st1 text, query_rank p st = (Ok true, st1)
              ∧ inner_text p st1 = (Ok text, st')
              ∧ strip text = "Genius".

(** The rank read ends without an exception and without "Genius": there is
    no label element, or its text is something else. *)
Definition rank_not_genius (st st' : St) (probes : list event) : Prop :=
  (query_rank p st = (Ok false, st') ∧ probes = [QueryRank])
  ∨ (∃ st1 text, query_rank p st = (Ok true, st1)
                 ∧ inner_text p st1 = (Ok text, st')
                 ∧ strip text ≠ "Genius"
                 ∧ probes = [QueryRank; InnerText]).

(** After such a rank read, "Queen Bee" is reported visible. *)
Definition queen_bee_seen (st st' : St) (probes : list event) : Prop :=
  ∃ st1 rank_probes, rank_not_genius st st1 rank_probes
                     ∧ queen_bee_visible p st1 = (Ok true, st')
                     ∧ probes = rank_probes ++ [IsVisible].

(** A probe of the round raises: the query for the label, the read of its
    text, or the visibility check. *)
Definition probe_fails (st : St) : Prop :=
  (∃ e st', query_rank p st = (Raise e, st'))
  ∨ (∃ st1 e st', query_rank p st = (Ok true, st1)
                  ∧ inner_text p st1 = (Raise e, st'))
  ∨ (∃ st1 rank_probes e st', rank_not_genius st st1 rank_probes
                              ∧ queen_bee_visible p st1 = (Raise e, st')).

(** The keyboard works: typing and Enter never raise. *)
Definition typing_works : Prop :=
  (∀ c st, ∃ st', keyboard_type p c st = (Ok tt, st'))
  ∧ (∀ st, ∃ st', keyboard_press_enter p st = (Ok tt, st')).

(** Closing the page, the context and the browser never raises. *)
Definition closing_works : Prop :=
  (∀ st, ∃ st', close_page p st = (Ok tt, st'))
  ∧ (∀ st, ∃ st', close_context p st = (Ok tt, st'))
  ∧ (∀ st, ∃ st', close_browser p st = (Ok tt, st')).

End conditions.

(** ** Example heaps and pages *)

(** An item of the word list, without and with the flag of the data
    source. *)
Definition word_item (w : string) : obj := ODict {["word" := VStr w]}.

Definition flagged_item (w : string) (f : val) : obj :=
  ODict (<["word" := VStr w]> {["is_pangram" := f]}).

(** A puzzle of five words, as [json] leaves it on the heap: the data dict
    at address 0, its word list at 1, the items from 2 on.  "allege" is
    flagged as a pangram by the data source, "abcdefg" has seven distinct
    letters. *)
Definition h0 : heap :=
  [ ODict {["words" := VRef 1]};
    OList [VRef 2; VRef 3; VRef 4; VRef 5; VRef 6];
    word_item "label"; word_item "gallery"; flagged_item "allege" (VInt 1);
    word_item "aegis"; word_item "abcdefg" ].

(** The items and the words of [h0], and the entries computed for them. *)
Definition items0 : list val :=
  [VRef 2; VRef 3; VRef 4; VRef 5; VRef 6].

Definition words0 : list string :=
  ["label"; "gallery"; "allege"; "aegis"; "abcdefg"].

Definition es0 : list scored :=
  [ Scored (VStr "label") 5 false; Scored (VStr "gallery") 7 false;
    Scored (VStr "allege") 6 true; Scored (VStr "aegis") 5 false;
    Scored (VStr "abcdefg") 14 true ].

(** The second item has no ["word"]. *)
Definition h_missing : heap :=
  [ ODict {["words" := VRef 1]};
    OList [VRef 2; VRef 3];
    word_item "label";
    ODict {["is_pangram" := VInt 0]} ].

(** One word, five distinct letters, flagged as a pangram. *)
Definition h_flagged : heap :=
  [ ODict {["words" := VRef 1]};
    OList [VRef 2];
    flagged_item "abcde" (VInt 1) ].

(** "Queen Bee" shows after the first word; there is no rank label. *)
Definition queen_bee_after_1 : page nat :=
  counting_page (λ _, Ok None) (λ n, Ok (Nat.eqb n 1)) (λ _ _, Ok tt).

(** Five words to play. *)
Definition five_words : list string := ["ab"; "cd"; "ef"; "gh"; "ij"].

(** * Further definitions *)

(** ** Insertion into a list of entries *)

(** [e] in front of the first entry whose score is not larger than its
    own: what [insert_desc] does, on the entries themselves. *)
Fixpoint insert_entry (e : scored) (l : list scored) : list scored :=
  match l with
  | [] => [e]
  | y :: rest =>
      if (score y <=? score e)%Z then e :: y :: rest
      else y :: insert_entry e rest
  end.

(** The same puzzle as [h0], its items in the order [get_prioritized_words]
    returns them. *)
Definition h0_prioritized_again : heap :=
  [ ODict {["words" := VRef 1]};
    OList [VRef 2; VRef 3; VRef 4; VRef 5; VRef 6];
    word_item "gallery"; word_item "abcdefg"; flagged_item "allege" (VInt 1);
    word_item "label"; word_item "aegis" ].

(** ** Values of the wrong type *)

(** [v] refers to a dict. *)
Definition is_dict (h : heap) (v : val) : bool :=
  match v with
  | VRef l => match h !! l with Some (ODict _) => true | _ => false end
  | _ => false
  end.

(** [v] refers to a list. *)
Definition is_list (h : heap) (v : val) : bool :=
  match v with
  | VRef l => match h !! l with Some (OList _) => true | _ => false end
  | _ => false
  end.

(** [None], a boolean or a number: a value without [len], that cannot be
    iterated or indexed. *)
Definition is_scalar (v : val) : bool :=
  match v with
  | VNone | VBool _ | VInt _ | VFloat _ => true
  | _ => false
  end.

(** [data] is a dict whose ["words"] is [ws]. *)
Definition words_field (h : heap) (data ws : val) : Prop :=
  ∃ l fields, data = VRef l ∧ h !! l = Some (ODict fields)
              ∧ fields !! "words" = Some ws.

(** The word list is a dict keyed by the words. *)
Definition h_words_dict : heap :=
  [ ODict {["words" := VRef 1]};
    ODict {["label" := VInt 5]} ].

(** The second item is the bare word, the third has a number for a word. *)
Definition h_bare_word : heap :=
  [ ODict {["words" := VRef 1]};
    OList [VRef 2; VStr "gallery"; VRef 3];
    word_item "label";
    ODict {["word" := VInt 7]} ].

(** ** The events of a round *)

(** The events of typing [cs]: every character, then its pause. *)
Fixpoint typing_events (cs : list ascii) : list event :=
  match cs with
  | [] => []
  | c :: rest => TypeChar c :: Sleep 200 500 :: typing_events rest
  end.

(** The events of lines 129-138 for a word typed and entered. *)
Definition submit_events (w : string) : list event :=
  Print ("Typing word: " ++ w)%string
  :: typing_events (list_ascii_of_string w)
  ++ [Sleep 300 600; PressEnter; Sleep 1500 1500].

(** What can follow the query for the rank label in lines 141-157, with
    the way the round goes on. *)
Definition stop_tails : list (flow * list event) :=
  [ (Continue, []);
    (Continue, [InnerText]);
    (Break, [InnerText;
             Print "Target rank 'Genius' reached. Stopping automation.";
             Sleep 3000 3000]);
    (Continue, [InnerText; IsVisible]);
    (Break, [InnerText; IsVisible; Print "Queen Bee reached. Stopping."]);
    (Continue, [IsVisible]);
    (Break, [IsVisible; Print "Queen Bee reached. Stopping."]) ].

(** The pause that ends a round which does not stop the loop. *)
Definition round_end (f : flow) : list event :=
  match f with
  | Continue => [Sleep 6000 7000]
  | Break => []
  end.

(** The submissions and the rank queries of a trace. *)
Definition is_enter_or_query (ev : event) : bool :=
  match ev with
  | PressEnter | QueryRank => true
  | _ => false
  end.

Definition enters_and_queries (tr : list event) : list event :=
  List.filter is_enter_or_query tr.

(** The shortest and the longest time the pauses of a trace can take, in
    milliseconds. *)
Fixpoint pause_lo (tr : list event) : N :=
  match tr with
  | [] => 0
  | Sleep lo _ :: rest => lo + pause_lo rest
  | _ :: rest => pause_lo rest
  end.

Fixpoint pause_hi (tr : list event) : N :=
  match tr with
  | [] => 0
  | Sleep _ hi :: rest => hi + pause_hi rest
  | _ :: rest => pause_hi rest
  end.

(** The sum of [f] over [l]. *)
Fixpoint total {A} (f : A → N) (l : list A) : N :=
  match l with
  | [] => 0
  | x :: rest => f x + total f rest
  end.

(** A page that counts submissions, never shows a stop condition, with the
    given navigation, wait for the Play button and closing of the page. *)
Definition page_with (goto' wait' close' : outcome unit) : page nat :=
  {| goto := λ n, (goto', n);
     wait_for_play := λ n, (wait', n);
     click_play := ret tt;
     keyboard_type := λ _, ret tt;
     keyboard_press_enter := λ n, (Ok tt, S n);
     query_rank := ret false;
     inner_text := raise (SurfaceError "no element");
     queen_bee_visible := ret false;
     close_page := λ n, (close', n);
     close_context := ret tt;
     close_browser := ret tt |}.

(** The wait for the Play button times out. *)
Definition no_play_button_page : page nat :=
  page_with (Ok tt) (Raise (SurfaceError "Timeout 5000ms exceeded")) (Ok tt).

(** The game cannot be loaded. *)
Definition unreachable_page : page nat :=
  page_with (Raise (SurfaceError "net::ERR_FILE_NOT_FOUND")) (Ok tt) (Ok tt).

(** The page cannot be closed. *)
Definition stuck_page : page nat :=
  page_with (Ok tt) (Ok tt) (Raise (SurfaceError "Target closed")).

(** [text] is [core] with whitespace, and nothing else, around it. *)
Definition padded (core text : string) : Prop :=
  ∃ a b, list_ascii_of_string text = a ++ list_ascii_of_string core ++ b
         ∧ Forall (λ c, is_space c = true) a
         ∧ Forall (λ c, is_space c = true) b.

(** * The functions around the play loop *)

(** The rest of [script.py] talks to the network, the file system and the
    video library.  Each such call is an operation on a state [W] of the
    world outside the program, which may change it and may raise; an
    exception of a library call is carried as [SurfaceError] with its text.
    The calls made and the lines printed are recorded; [PrintedError prefix
    e] is the line [print(f"{prefix}{e}")] writes, whatever the text of
    [e]. *)
Inductive io_event : Type :=
  | Printed (line : string)
  | PrintedError (prefix : string) (e : exn)
  | HttpGet
  | Abspath (path : string)
  | PathExists (path : string)
  | ReadText (path : string)
  | WriteText (path content : string)
  | ListDir (dir : string)
  | GetCtime (path : string)
  | OpenClip (path : string)
  | MakeIntro (image : string)
  | Concatenate
  | WriteVideo (path : string)
  | MakeDirs (path : string)
  | EnvironGet (name : string)
  | StartPlaywright
  | Launch (headless : bool)
  | Browser (ev : event)
  | PlayOther
  | StopPlaywright
  | Upload (path : string).

Section machine.
Context {W : Type}.

(** The heap of the program, the world outside, and what was observed. *)
Definition machine : Type := heap * W * list io_event.

(** [print(line)]. *)
Definition print (line : string) : M machine unit :=
  λ '(h, w, tr), (Ok tt, (h, w, tr ++ [Printed line])).

(** [print(f"{prefix}{e}")] for an exception [e]. *)
Definition print_error (prefix : string) (e : exn) : M machine unit :=
  λ '(h, w, tr), (Ok tt, (h, w, tr ++ [PrintedError prefix e])).

(** A computation on the heap alone. *)
Definition on_heap {A} (c : M heap A) : M machine A :=
  λ '(h, w, tr), let '(r, h') := c h in (r, (h', w, tr)).

(** A call on the world outside, recorded whether or not it raises. *)
Definition os_call {A} (ev : io_event) (op : M W A) : M machine A :=
  λ '(h, w, tr), let '(r, w') := op w in (r, (h, w', tr ++ [ev])).

(** A call of a library that also works on the objects of the program. *)
Definition lib_call {A} (ev : io_event) (op : M (heap * W) A) : M machine A :=
  λ '(h, w, tr), let '(r, (h', w')) := op (h, w) in (r, (h', w', tr ++ [ev])).

(** A session on a page of the browser, with the events of the session. *)
Definition in_browser {A} (c : M (W * list event) A) : M machine A :=
  λ '(h, w, tr),
    let '(r, (w', evs)) := c (w, []) in (r, (h, w', tr ++ (Browser <$> evs))).

End machine.
Arguments machine : clear implicits.

(** ** [fetch_daily_words] (lines 33-41) *)

(** The reply to [requests.get]: its status code, the text of the
    [HTTPError] that [raise_for_status] builds for it, and what
    [response.json()] does: it builds the decoded value on the heap, or
    raises. *)
Record response : Type := Response {
  status_code : Z;
  http_error : string;
  json : M heap val
}.

(** [response.raise_for_status()]: client and server errors raise. *)
Definition raise_for_status (r : response) : outcome unit :=
  if ((400 <=? status_code r) && (status_code r <? 600))%Z
  then Raise (SurfaceError (http_error r))
  else Ok tt.

Section fetch.
Context {W : Type} (requests_get : M W response).

(** The whole function: any exception of the three steps is printed and an
    empty dict, a new one, is returned in place of the data. *)
Definition fetch_daily_words : M (machine W) val :=
  try_except
    (let* response := os_call HttpGet requests_get in
     exec reading (λ _, raise_for_status response) in
     on_heap (json response))
    (λ e, exec print_error "Error fetching API: " e in
          on_heap (alloc (ODict ∅))).
End fetch.

(** ** [generate_local_html] (lines 325-360) *)

(** [c.lower()] for a character below 256: the capital letters of ASCII and
    of Latin-1 have their small letter 32 places further. *)
Definition lower_char (c : ascii) : ascii :=
  let n := N_of_ascii c in
  if ((65 <=? n) && (n <=? 90) || (192 <=? n) && (n <=? 214)
      || (216 <=? n) && (n <=? 222))%N
  then ascii_of_N (n + 32)
  else c.

(** [s.lower()]. *)
Definition lower (s : string) : string :=
  string_of_list_ascii (lower_char <$> list_ascii_of_string s).

(** [v.lower()]: only strings have the method. *)
Definition str_lower (h : heap) (v : val) : outcome string :=
  match v with
  | VStr s => Ok (lower s)
  | VRef l =>
      match h !! l with
      | Some _ => Raise AttributeError
      | None => Raise BadRef
      end
  | _ => Raise AttributeError
  end.

(** [s.replace(old, new)] for a non-empty [old]: from left to right, every
    occurrence of [old] that does not overlap an earlier one is replaced.
    [skip] counts the characters of the current occurrence still to pass
    over. *)
Fixpoint replace_from (old new : string) (skip : nat) (s : string) : string :=
  match s with
  | EmptyString => EmptyString
  | String c rest =>
      match skip with
      | S k => replace_from old new k rest
      | O =>
          if String.prefix old s
          then (new ++ replace_from old new (String.length old - 1) rest)%string
          else String c (replace_from old new 0 rest)
      end
  end.

Definition str_replace (old new s : string) : string :=
  replace_from old new 0 s.

(** The dict of lines 340-346.  It is built, serialised and dropped, and
    nothing else refers to it or to its lists, so it is carried as a
    record. *)
Record game_data : Type := GameData {
  displayDate : val;
  centerLetter : string;
  outerLetters : list string;
  validLetters : list string;
  answers : list val
}.

(** Line 343: [[l.lower() for l in ... if l != puzzle["letters"]]], over
    the items [ls] of [puzzle["all_letters"]].  The condition reads
    [puzzle["letters"]] again for every item; it is a string by then, line
    342 has called its [lower]. *)
Fixpoint outer_letters (puzzle : val) (ls : list val) : M heap (list string) :=
  match ls with
  | [] => ret []
  | l :: rest =>
      let* center := reading (λ h, getitem "letters" h puzzle) in
      if negb (py_eqb false l center) then
        let* x := reading (λ h, str_lower h l) in
        let* xs := outer_letters puzzle rest in
        ret (x :: xs)
      else outer_letters puzzle rest
  end.

(** Line 345: [[w["word"] for w in data["words"]]]. *)
Definition read_answers (data : val) : M heap (list val) :=
  let* ws := reading (λ h, getitem "words" h data) in
  let* items := reading (λ h, iter h ws) in
  map_m (λ w, reading (λ h, getitem "word" h w)) items.

(** Lines 339-346. *)
Definition prepare_data (data : val) : M heap game_data :=
  let* puzzle := reading (λ h, getitem "puzzle" h data) in
  let* date := reading (λ h, getitem "date" h puzzle) in
  let* letters := reading (λ h, getitem "letters" h puzzle) in
  let* center := reading (λ h, str_lower h letters) in
  let* all_letters := reading (λ h, getitem "all_letters" h puzzle) in
  let* ls := reading (λ h, iter h all_letters) in
  let* outer := outer_letters puzzle ls in
  let* all_letters' := reading (λ h, getitem "all_letters" h puzzle) in
  let* ls' := reading (λ h, iter h all_letters') in
  let* valid := map_m (λ l, reading (λ h, str_lower h l)) ls' in
  let* answers := read_answers data in
  ret (GameData date center outer valid answers).

(** The calls of the function on the file system. *)
Record files (W : Type) : Type := Files {
  (* os.path.abspath(path) *)
  abspath : string → M W string;
  (* os.path.exists(path) *)
  path_exists : string → W → bool;
  (* open(path, "r", encoding="utf-8") and f.read() *)
  read_text : string → M W string;
  (* open(path, "w", encoding="utf-8") and f.write(content) *)
  write_text : string → string → M W unit
}.
Arguments abspath {W}.
Arguments path_exists {W}.
Arguments read_text {W}.
Arguments write_text {W}.

Definition template_path : string := "custom_game_template.html".

(** Line 350. *)
Definition init_call (json_str : string) : string :=
  ("<script>window.startLocalGame(" ++ json_str ++ ");</script>")%string.

(** Line 352. *)
Definition inject (json_str content : string) : string :=
  str_replace "</body>" (init_call json_str ++ "</body>")%string content.

Section local_html.
Context {W : Type} (fs : files W).
(** [json.dumps(game_data)], which reads the values the record refers to. *)
Context (dumps : game_data → heap → outcome string).

(** The whole function; it returns the path written, or [None]. *)
Definition generate_local_html (data : val) : M (machine W) (option string) :=
  try_except
    (let* output_path :=
       os_call (Abspath "local_game.html") (abspath fs "local_game.html") in
     let* present :=
       os_call (PathExists template_path)
         (reading (λ w, Ok (path_exists fs template_path w))) in
     if negb present then
       exec print "Custom template not found!" in ret None
     else
       let* content :=
         os_call (ReadText template_path) (read_text fs template_path) in
       let* game := on_heap (prepare_data data) in
       let* json_str := on_heap (reading (dumps game)) in
       let content' := inject json_str content in
       exec os_call (WriteText output_path content')
              (write_text fs output_path content') in
       ret (Some output_path))
    (λ e, exec print_error "Error generating local HTML: " e in
          ret None).
End local_html.

(** ** Replies for examples *)

(** The service answers 503. *)
Definition unavailable : response :=
  Response 503 "503 Server Error: Service Unavailable" (raise TypeError).

(** The service answers 200 with the data of [h0], decoded onto an empty
    heap. *)
Definition reply_h0 : response :=
  Response 200 "" (λ h, (Ok (VRef 0), h ++ h0)).

(** ** Puzzles for examples *)


(** A file system for examples: the content of every file that exists. *)
Definition disk : Type := gmap string string.

Definition disk_files : files disk :=
  {| abspath := λ path, ret ("/work/" ++ path)%string;
     path_exists := λ path w, bool_decide (is_Some (w !! path));
     read_text := λ path w,
       (match w !! path with
        | Some content => Ok content
        | None => Raise (SurfaceError "No such file or directory")
        end, w);
     write_text := λ path content w, (Ok tt, <[path := content]> w) |}.

(** A serialisation for examples, of the letters only. *)
Definition dumps_letters (g : game_data) (h : heap) : outcome string :=
  Ok (centerLetter g ++ ":" ++ String.concat "" (outerLetters g))%string.

(** A puzzle with a capital center letter among small letters, and two
    words. *)
Definition h_puzzle : heap :=
  [ ODict (<["puzzle" := VRef 1]> {["words" := VRef 2]});
    ODict (<["date" := VStr "November 3, 2026"]>
             (<["letters" := VStr "A"]> {["all_letters" := VStr "abl"]}));
    OList [VRef 3; VRef 4];
    word_item "alba"; word_item "ball" ].

(** A template with one closing tag, and one without. *)
Definition disk_with_template : disk :=
  {[ template_path := "<html><body><p>Bee</p></body></html>" ]}.

(** ** [process_video] (lines 172-206) *)

Definition VIDEO_DIR : string := "recordings".
Definition INTRO_IMAGE : string := "intro.png".
Definition OUTPUT_VIDEO : string := "spelling_bee_daily.mp4".

(** [s.endswith(suffix)]. *)
Definition endswith (suffix s : string) : bool :=
  bool_decide (list_ascii_of_string suffix `suffix_of` list_ascii_of_string s).

(** The calls on the directory of recordings and on the video library.
    [Clip] is what the library hands back for a clip. *)
Record studio (W Clip : Type) : Type := Studio {
  (* os.listdir(dir) *)
  listdir : string → W → outcome (list string);
  (* os.path.join(dir, name) *)
  path_join : string → string → string;
  (* os.path.getctime(path) *)
  getctime : string → W → outcome Q;
  (* VideoFileClip(path) *)
  video_file_clip : string → M W Clip;
  (* ImageClip(INTRO_IMAGE).set_duration(5).set_fps(30), then
     .resize(newsize=gameplay_clip.size) *)
  make_intro : Clip → M W Clip;
  (* bool(intro_clip) *)
  clip_truthy : Clip → bool;
  (* concatenate_videoclips([intro_clip, gameplay_clip], method="compose") *)
  concatenate_videoclips : Clip → Clip → M W Clip;
  (* final_clip.write_videofile(path, codec="libx264", audio_codec="aac",
     fps=30) *)
  write_videofile : Clip → string → M W unit
}.
Arguments listdir {W Clip}.
Arguments path_join {W Clip}.
Arguments getctime {W Clip}.
Arguments video_file_clip {W Clip}.
Arguments make_intro {W Clip}.
Arguments clip_truthy {W Clip}.
Arguments concatenate_videoclips {W Clip}.
Arguments write_videofile {W Clip}.

(** [max(..., key=key)] once the first item is taken: an item replaces the
    best one so far when its key is greater, so of several items with the
    greatest key the first one stays. *)
Fixpoint max_from {S} (key : string → M S Q) (best : string) (best_key : Q)
    (rest : list string) : M S string :=
  match rest with
  | [] => ret best
  | x :: rest' =>
      let* k := key x in
      if negb (Qle_bool k best_key) then max_from key x k rest'
      else max_from key best best_key rest'
  end.

(** The item [max_from] returns when the key of [x] is [t x]. *)
Fixpoint latest_of (t : string → Q) (best : string) (rest : list string)
  : string :=
  match rest with
  | [] => best
  | x :: rest' =>
      if negb (Qle_bool (t x) (t best)) then latest_of t x rest'
      else latest_of t best rest'
  end.

Section video.
Context {W Clip : Type} (fs : files W) (st : studio W Clip).

(** The recordings of line 175, for the names [os.listdir] gives. *)
Definition recordings_of (names : list string) : list string :=
  path_join st VIDEO_DIR <$> List.filter (endswith ".webm") names.

(** [os.path.getctime(path)], as the key of line 180. *)
Definition ctime_key (path : string) : M (machine W) Q :=
  os_call (GetCtime path) (reading (getctime st path)).

(** Lines 184-203, inside the [try]. *)
Definition render (latest_recording : string) : M (machine W) unit :=
  let* gameplay_clip :=
    os_call (OpenClip latest_recording)
      (video_file_clip st latest_recording) in
  let* present :=
    os_call (PathExists INTRO_IMAGE)
      (reading (λ w, Ok (path_exists fs INTRO_IMAGE w))) in
  let* intro_clip :=
    (if present then
       let* clip := os_call (MakeIntro INTRO_IMAGE) (make_intro st gameplay_clip) in
       ret (Some clip)
     else
       exec print ("Warning: " ++ INTRO_IMAGE ++ " not found. Skipping intro.")%string in
       ret None) in
  let* final_clip :=
    match intro_clip with
    | Some clip =>
        if clip_truthy st clip
        then os_call Concatenate (concatenate_videoclips st clip gameplay_clip)
        else ret gameplay_clip
    | None => ret gameplay_clip
    end in
  exec os_call (WriteVideo OUTPUT_VIDEO)
         (write_videofile st final_clip OUTPUT_VIDEO) in
  print ("Video saved to " ++ OUTPUT_VIDEO)%string.

(** The whole function. *)
Definition process_video : M (machine W) unit :=
  let* names :=
    os_call (ListDir VIDEO_DIR) (reading (listdir st VIDEO_DIR)) in
  match recordings_of names with
  | [] => print "No recordings found."
  | first :: rest =>
      let* latest_recording :=
        (let* k := ctime_key first in max_from ctime_key first k rest) in
      exec print ("Processing recording: " ++ latest_recording)%string in
      try_except (render latest_recording)
        (print_error "Video processing error: ")
  end.
End video.

(** A directory for examples: the names in the order [os.listdir] gives
    them, each with its creation time; nothing can be rendered. *)
Definition folder : Type := list (string * Q).

Definition folder_studio : studio folder unit :=
  {| listdir := λ _ w, Ok w.*1;
     path_join := λ dir name, (dir ++ "/" ++ name)%string;
     getctime := λ path w,
       match list_find (λ e, ("recordings/" ++ e.1)%string = path) w with
       | Some (_, e) => Ok e.2
       | None => Raise (SurfaceError "No such file or directory")
       end;
     video_file_clip := λ _, raise (SurfaceError "could not be opened");
     make_intro := λ _, ret tt;
     clip_truthy := λ _, true;
     concatenate_videoclips := λ _ _, ret tt;
     write_videofile := λ _ _, ret tt |}.

Definition folder_files : files folder :=
  {| abspath := λ path, ret path;
     path_exists := λ path w, bool_decide (path ∈ w.*1);
     read_text := λ _, raise (SurfaceError "No such file or directory");
     write_text := λ _ _, ret tt |}.

(** Two recordings made at the same time, after an older one, and a file
    that is not a recording. *)
Definition three_recordings : folder :=
  [("old.webm", 10%Q); ("notes.txt", 99%Q); ("a.webm", 20%Q); ("b.webm", 20%Q)].

(** The creation times of [three_recordings], by path. *)
Definition three_times (path : string) : Q :=
  if String.eqb path "recordings/old.webm" then 10%Q else 20%Q.

(** ** [run_browser_automation] as a whole (lines 89-170) and [main]
    (lines 284-323) *)

(** The calls that start and end the browser, and the parts of the program
    that are not embedded. *)
Record playwright (W : Type) : Type := Playwright {
  (* os.makedirs(path) *)
  makedirs : string → M W unit;
  (* os.environ.get(name) *)
  environ_get : string → W → option string;
  (* os.sep *)
  os_sep : string;
  (* sync_playwright().__enter__() and .__exit__() *)
  start_playwright : M W unit;
  stop_playwright : M W unit;
  (* lines 97-112: launch, new_context, add_init_script, new_page *)
  launch : bool → M W unit;
  (* the page of line 112, when GAME_URL is the given address *)
  game_page : string → page W;
  (* lines 114-170 for words that are not all strings *)
  play_other : string → val → M (heap * W) unit;
  (* upload_to_youtube(video_file, data), lines 242-282 *)
  upload_to_youtube : string → val → M (heap * W) unit
}.
Arguments makedirs {W}.
Arguments environ_get {W}.
Arguments os_sep {W}.
Arguments start_playwright {W}.
Arguments stop_playwright {W}.
Arguments launch {W}.
Arguments game_page {W}.
Arguments play_other {W}.
Arguments upload_to_youtube {W}.

(** The strings of a list of values, when all of them are strings. *)
Fixpoint strings_of (items : list val) : option (list string) :=
  match items with
  | [] => Some []
  | VStr s :: rest =>
      match strings_of rest with
      | Some ss => Some (s :: ss)
      | None => None
      end
  | _ => None
  end.

(** [str(n)] for the length of a list. *)
Definition decimal (n : Z) : string := NilZero.string_of_int (Z.to_int n).

(** [bool(s)] for the result of [os.environ.get] or a path. *)
Definition truthy_text (s : option string) : bool :=
  match s with
  | Some (String _ _) => true
  | _ => false
  end.

Section program.
Context {W Clip : Type}.
Context (requests_get : M W response) (fs : files W).
Context (dumps : game_data → heap → outcome string).
Context (st : studio W Clip) (pw : playwright W).

(** Lines 89-170, [GAME_URL] being [url].  The browser is started and the
    page opened outside the [try] of line 114; the playwright context is
    left on every path once entered. *)
Definition run_browser (url : string) (words : val) : M (machine W) unit :=
  let* present :=
    os_call (PathExists VIDEO_DIR)
      (reading (λ w, Ok (path_exists fs VIDEO_DIR w))) in
  exec (if negb present
        then os_call (MakeDirs VIDEO_DIR) (makedirs pw VIDEO_DIR)
        else ret tt) in
  exec os_call StartPlaywright (start_playwright pw) in
  try_finally
    (let* github :=
       os_call (EnvironGet "GITHUB_ACTIONS")
         (reading (λ w, Ok (environ_get pw "GITHUB_ACTIONS" w))) in
     let is_headless := bool_decide (github = Some "true") in
     exec os_call (Launch is_headless) (launch pw is_headless) in
     let* items := on_heap (reading (λ h, Ok (list_at h words))) in
     match items ≫= strings_of with
     | Some ws => in_browser (run_browser_automation (game_page pw url) ws)
     | None => lib_call PlayOther (play_other pw url words)
     end)
    (os_call StopPlaywright (stop_playwright pw)).

(** Lines 318-323. *)
Definition publish (data : val) : M (machine W) unit :=
  let* made :=
    os_call (PathExists OUTPUT_VIDEO)
      (reading (λ w, Ok (path_exists fs OUTPUT_VIDEO w))) in
  if made then
    let* token :=
      os_call (EnvironGet "YOUTUBE_TOKEN")
        (reading (λ w, Ok (environ_get pw "YOUTUBE_TOKEN" w))) in
    let* credentials :=
      (if truthy_text token then ret true
       else os_call (PathExists "token.json")
              (reading (λ w, Ok (path_exists fs "token.json" w)))) in
    if credentials
    then lib_call (Upload OUTPUT_VIDEO) (upload_to_youtube pw OUTPUT_VIDEO data)
    else print "No YouTube credentials found. Skipping upload."
  else ret tt.

(** Lines 299-323, once the words are there. *)
Definition produce (data words : val) : M (machine W) unit :=
  let* game_file := generate_local_html fs dumps data in
  if negb (truthy_text game_file) then
    print "Failed to generate local game file."
  else
    let url :=
      ("file:///" ++ str_replace (os_sep pw) "/" (default "" game_file))%string in
    exec print ("Using local game file: " ++ url)%string in
    exec run_browser url words in
    exec process_video fs st in
    publish data.

(** The whole program. *)
Definition main : M (machine W) unit :=
  exec print "Starting Spelling Bee Automation..." in
  let* data := fetch_daily_words requests_get in
  let* found := on_heap (reading (λ h, truthy h data)) in
  if negb found then ret tt
  else
    let* words := on_heap (get_prioritized_words data) in
    let* any := on_heap (reading (λ h, truthy h words)) in
    if negb any then print "No words found."
    else
      let* n := on_heap (reading (λ h, py_len h words)) in
      exec print ("Found " ++ decimal n ++ " words.")%string in
      produce data words.
End program.

(** The ways the fetch can fail, with the exception caught and the heap
    and world it leaves. *)
Definition fetch_failure {W} (requests_get : M W response)
    (h : heap) (w : W) (e : exn) (h1 : heap) (w1 : W) : Prop :=
  (requests_get w = (Raise e, w1) ∧ h1 = h)
  ∨ (∃ r, requests_get w = (Ok r, w1) ∧ (400 ≤ status_code r < 600)%Z
          ∧ e = SurfaceError (http_error r) ∧ h1 = h)
  ∨ (∃ r, requests_get w = (Ok r, w1) ∧ ¬ (400 ≤ status_code r < 600)%Z
          ∧ json r h = (Raise e, h1)).

(** ** A world for examples *)

(** A page on which nothing ever shows. *)
Definition still_page {St} : page St :=
  {| goto := ret tt;
     wait_for_play := ret tt;
     click_play := ret tt;
     keyboard_type := λ _, ret tt;
     keyboard_press_enter := ret tt;
     query_rank := ret false;
     inner_text := raise (SurfaceError "no element");
     queen_bee_visible := ret false;
     close_page := ret tt;
     close_context := ret tt;
     close_browser := ret tt |}.

(** A machine on which the browser can be started if [can_launch], with a
    token for the upload in the environment. *)
Definition folder_playwright (can_launch : bool) : playwright folder :=
  {| makedirs := λ _, ret tt;
     environ_get := λ name _,
       if String.eqb name "YOUTUBE_TOKEN" then Some "secret" else None;
     os_sep := "/";
     start_playwright := ret tt;
     stop_playwright := ret tt;
     launch := λ _,
       if can_launch then ret tt
       else raise (SurfaceError "Executable doesn't exist");
     game_page := λ _, still_page;
     play_other := λ _ _, ret tt;
     upload_to_youtube := λ _ _, ret tt |}.

(** The service answers 200 with the data of [h_missing], whose second
    item has no word, and with data without words. *)
Definition reply_missing : response :=
  Response 200 "" (λ h, (Ok (VRef 0), h ++ h_missing)).

Definition reply_no_words : response :=
  Response 200 "" (λ h, (Ok (VRef 0), h ++ [ODict {["puzzle" := VNone]}])).

(** The video of an earlier run, and no recording. *)
Definition earlier_video : folder := [("spelling_bee_daily.mp4", 5%Q)].

(** The text of a value that is a string. *)
Definition text_of (v : val) : string :=
  match v with
  | VStr s => s
  | _ => ""
  end.

(** A directory of recordings that exists, and is empty. *)
Definition empty_recordings : folder := [("recordings", 1%Q)].

(** * Proofs *)

(** ** Reading is not disturbed by objects allocated later *)

Lemma agree_refl h : agree h h.
Proof. by intros l _. Qed.

Lemma agree_app h extra : agree h (h ++ extra).
Proof. intros l Hl. by apply lookup_app_l. Qed.

Section frame.
Context (h H : heap) (Hagree : agree h H).

Ltac by_lookup :=
  intros Hv; simpl in *; try done;
  (rewrite Hagree; [done | by apply Nat.ltb_lt]).

Lemma truthy_frame v : val_ok (length h) v = true → truthy H v = truthy h v.
Proof. destruct v; by_lookup. Qed.

Lemma contains_frame key v :
  val_ok (length h) v = true → contains key H v = contains key h v.
Proof. destruct v; by_lookup. Qed.

Lemma getitem_frame key v :
  val_ok (length h) v = true → getitem key H v = getitem key h v.
Proof. destruct v; by_lookup. Qed.

Lemma dict_get_frame key d v :
  val_ok (length h) v = true → dict_get key d H v = dict_get key d h v.
Proof. destruct v; by_lookup. Qed.

Lemma iter_frame v : val_ok (length h) v = true → iter H v = iter h v.
Proof. destruct v; by_lookup. Qed.

Lemma py_len_frame v : val_ok (length h) v = true → py_len H v = py_len h v.
Proof. destruct v; by_lookup. Qed.

Lemma len_set_frame v : val_ok (length h) v = true → len_set H v = len_set h v.
Proof. intros Hv. unfold len_set. by rewrite iter_frame. Qed.
End frame.

(** ** What is read from a closed heap is in range *)

Lemma closed_lookup h l o :
  closed h = true → h !! l = Some o →
  ∀ v, v ∈ obj_vals o → val_ok (length h) v = true.
Proof.
  unfold closed. rewrite forallb_forall. intros Hc Hl v Hv.
  assert (Ho : In o h) by (apply list_elem_of_In; eapply list_elem_of_lookup_2; eauto).
  specialize (Hc o Ho). rewrite forallb_forall in Hc.
  apply Hc. by apply list_elem_of_In.
Qed.

Lemma closed_field h l fields key v :
  closed h = true → h !! l = Some (ODict fields) → fields !! key = Some v →
  val_ok (length h) v = true.
Proof.
  intros Hc Hl Hk. eapply closed_lookup; eauto. simpl.
  apply list_elem_of_fmap. exists (key, v). split; [done|].
  by apply elem_of_map_to_list.
Qed.

Lemma getitem_ok h key v x :
  closed h = true → getitem key h v = Ok x → val_ok (length h) x = true.
Proof.
  intros Hc. destruct v; simpl; try done.
  destruct (h !! l) as [[items|fields]|] eqn:Hl; try done.
  destruct (fields !! key) eqn:Hk; [|done].
  intros [= <-]. eapply closed_field; eauto.
Qed.

Lemma iter_ok h v items :
  closed h = true → iter h v = Ok items →
  Forall (λ x, val_ok (length h) x = true) items.
Proof.
  intros Hc. destruct v; simpl; try done.
  - intros [= <-]. unfold chars. apply Forall_fmap, Forall_true. done.
  - destruct (h !! l) as [[its|fields]|] eqn:Hl; try done; intros [= <-].
    + apply Forall_forall. intros x Hx. eapply closed_lookup; eauto.
    + unfold keys. apply Forall_fmap, Forall_true. done.
Qed.

(** ** The reading steps of the program *)

Arguments truthy : simpl never.
Arguments contains : simpl never.
Arguments getitem : simpl never.
Arguments dict_get : simpl never.
Arguments iter : simpl never.
Arguments py_len : simpl never.
Arguments len_set : simpl never.

Lemma framed_ret {A} h H (a : A) : framed h H (ret a).
Proof. by exists (Ok a). Qed.

Lemma framed_reading {A} h H (f : heap → outcome A) :
  f H = f h → framed h H (reading f).
Proof. intros Hf. exists (f h). unfold reading. by rewrite Hf. Qed.

Lemma framed_bind {A B} h H (c : M heap A) (k : A → M heap B) :
  framed h H c →
  (∀ a, c h = (Ok a, h) → framed h H (k a)) →
  framed h H (bind c k).
Proof.
  intros (r & Hh & HH) Hk. unfold framed, bind. rewrite Hh, HH.
  destruct r as [a|e]; [by apply Hk | by exists (Raise e)].
Qed.

Lemma framed_run {A} h H (c : M heap A) :
  framed h H c → c H = (fst (c h), H).
Proof. intros (r & Hh & HH). by rewrite Hh, HH. Qed.

Section readers.
Context (h H : heap) (Hagree : agree h H).

Ltac prim lem := apply framed_reading, (lem h H Hagree); try done.

Lemma no_words_framed data :
  val_ok (length h) data = true → framed h H (no_words data).
Proof.
  intros Hd. unfold no_words.
  apply framed_bind; [prim truthy_frame|]. intros t _.
  destruct (negb t); [apply framed_ret|].
  apply framed_bind; [prim contains_frame|]. intros c _. apply framed_ret.
Qed.

Lemma word_items_framed data :
  closed h = true → val_ok (length h) data = true →
  framed h H (word_items data).
Proof.
  intros Hc Hd. unfold word_items.
  apply framed_bind; [prim getitem_frame|]. intros ws [= Hws].
  prim iter_frame. by eapply getitem_ok.
Qed.

Lemma score_valid_word_framed w :
  val_ok (length h) w = true → framed h H (score_valid_word w).
Proof.
  intros Hw. unfold score_valid_word.
  apply framed_bind; [prim py_len_frame|]. intros n _.
  destruct (n =? 4)%Z; [apply framed_ret|].
  apply framed_bind; [prim py_len_frame|]. intros sc _.
  apply framed_bind; [prim len_set_frame|]. intros k _.
  destruct (k =? 7)%Z; apply framed_ret.
Qed.

Lemma read_entry_framed item :
  closed h = true → val_ok (length h) item = true →
  framed h H (read_entry item).
Proof.
  intros Hc Hi. unfold read_entry.
  apply framed_bind; [prim getitem_frame|]. intros w [= Hw].
  assert (val_ok (length h) w = true) by (by eapply getitem_ok).
  apply framed_bind; [by apply score_valid_word_framed|]. intros sc _.
  apply framed_bind; [prim dict_get_frame|]. intros flag _.
  apply framed_bind; [|intros; apply framed_ret].
  destruct (py_eqb false flag (VInt 1)); [apply framed_ret|].
  apply framed_bind; [prim len_set_frame|]. intros; apply framed_ret.
Qed.
End readers.

(** ** The layout of the heap during a call *)

Lemma agree_length h H : agree h H → length h ≤ length H.
Proof.
  intros Ha. destruct (decide (length h ≤ length H)) as [|Hn]; [done|].
  assert (Hl : length H < length h) by lia.
  specialize (Ha _ Hl). rewrite lookup_ge_None_2 in Ha by lia.
  symmetry in Ha. apply lookup_ge_None_1 in Ha. lia.
Qed.

Lemma agree_layout h H refs es : agree h H → agree h (layout H refs es).
Proof.
  intros Ha l Hl. unfold layout. rewrite lookup_app_l; [by apply Ha|].
  apply agree_length in Ha. lia.
Qed.

Lemma layout_list H refs es : layout H refs es !! length H = Some (OList refs).
Proof. unfold layout. by rewrite list_lookup_middle. Qed.

Lemma layout_entry H refs es i e :
  es !! i = Some e → layout H refs es !! (S (length H) + i) = Some (entry_obj e).
Proof.
  intros He. unfold layout. rewrite lookup_app_r by lia.
  replace (S (length H) + i - length H) with (S i) by lia. simpl.
  by rewrite list_lookup_fmap, He.
Qed.

Lemma layout_insert H refs refs' es :
  <[length H := OList refs']> (layout H refs es) = layout H refs' es.
Proof.
  unfold layout. replace (length H) with (length H + 0) at 1 by lia.
  by rewrite insert_app_r.
Qed.

Lemma layout_snoc H refs es e :
  layout H refs es ++ [entry_obj e] = layout H refs (es ++ [e]).
Proof. unfold layout. by rewrite fmap_app, <- app_assoc. Qed.

Lemma length_layout H refs es :
  length (layout H refs es) = S (length H) + length es.
Proof. unfold layout. rewrite length_app. simpl. rewrite length_fmap. lia. Qed.

Lemma read_list_layout H refs es :
  read_list (VRef (length H)) (layout H refs es) = (Ok refs, layout H refs es).
Proof. unfold read_list, reading. by rewrite layout_list. Qed.

Lemma write_list_layout H refs refs' es :
  write_list (VRef (length H)) refs' (layout H refs es)
  = (Ok tt, layout H refs' es).
Proof. unfold write_list. by rewrite layout_list, layout_insert. Qed.

Lemma entry_field_word e : entry_fields e !! "word" = Some (word e).
Proof. unfold entry_fields. by rewrite lookup_insert_eq. Qed.

Lemma entry_field_score e : entry_fields e !! "score" = Some (VInt (score e)).
Proof.
  unfold entry_fields. rewrite lookup_insert_ne by done.
  by rewrite lookup_insert_eq.
Qed.

Lemma entry_field_is_pangram e :
  entry_fields e !! "is_pangram" = Some (VBool (is_pangram e)).
Proof.
  unfold entry_fields. rewrite !lookup_insert_ne by done.
  by rewrite lookup_singleton_eq.
Qed.

Lemma getitem_entry H refs es r e key x :
  refers H es r e → entry_fields e !! key = Some x →
  getitem key (layout H refs es) r = Ok x.
Proof.
  intros (i & -> & He) Hk. unfold getitem, entry_ref.
  rewrite (layout_entry _ _ _ _ _ He). simpl. by rewrite Hk.
Qed.

(** ** The scoring loop *)

Lemma entry_refs_S H k : entry_refs H (S k) = entry_refs H k ++ [entry_ref H k].
Proof. unfold entry_refs. by rewrite seq_S, fmap_app. Qed.

Lemma alloc_entry H refs es e :
  alloc (entry_obj e) (layout H refs es)
  = (Ok (entry_ref H (length es)), layout H refs (es ++ [e])).
Proof.
  unfold alloc. by rewrite layout_snoc, length_layout.
Qed.

Lemma list_append_layout H refs es x :
  list_append (VRef (length H)) x (layout H refs es)
  = (Ok tt, layout H (refs ++ [x]) es).
Proof.
  unfold list_append, bind. by rewrite read_list_layout, write_list_layout.
Qed.

Lemma for_each_add_entry h H items done :
  closed h = true → agree h H →
  Forall (λ x, val_ok (length h) x = true) items →
  for_each items (add_entry (VRef (length H)))
    (layout H (entry_refs H (length done)) done)
  = (match (scan h items).2 with None => Ok tt | Some x => Raise x end,
     layout H (entry_refs H (length (done ++ (scan h items).1)))
       (done ++ (scan h items).1)).
Proof.
  intros Hc Ha Hitems. revert done.
  induction Hitems as [|item rest Hi Hrest IH]; intros done; simpl.
  { by rewrite app_nil_r. }
  unfold bind at 1. unfold add_entry at 1. unfold bind at 1.
  rewrite (framed_run h _ _ (read_entry_framed h _ (agree_layout _ _ _ _ Ha) item Hc Hi)).
  destruct (fst (read_entry item h)) as [e|x]; simpl.
  - unfold bind at 1. fold (entry_obj e). rewrite alloc_entry.
    rewrite list_append_layout, <- entry_refs_S.
    replace (S (length done)) with (length (done ++ [e]))
      by (rewrite length_app; simpl; lia).
    rewrite IH. by rewrite <- !app_assoc.
  - by rewrite app_nil_r.
Qed.

Lemma refers_entry_refs H es :
  Forall2 (refers H es) (entry_refs H (length es)) es.
Proof.
  apply Forall2_same_length_lookup_2.
  { unfold entry_refs. by rewrite length_fmap, length_seq. }
  intros i r e Hr He. exists i. split; [|done].
  unfold entry_refs in Hr. rewrite list_lookup_fmap in Hr.
  destruct (seq 0 (length es) !! i) as [j|] eqn:Hj; [|done].
  apply lookup_seq in Hj as [-> _]. by injection Hr as <-.
Qed.

(** ** Sorting in place *)

Lemma insert_desc_paired {A B} (R : A → B → Prop) k x y l1 l2 :
  R x y → Forall2 (paired R) l1 l2 →
  Forall2 (paired R) (insert_desc k x l1) (insert_desc k y l2).
Proof.
  intros Hxy Hl. induction Hl as [|[k1 a] [k2 b] l1 l2 [Hk Hab] Hl IH]; simpl.
  { repeat constructor; done. }
  simpl in Hk. subst k2. destruct (k1 <=? k)%Z.
  - repeat constructor; done.
  - constructor; [by split | done].
Qed.

Lemma sort_desc_paired {A B} (R : A → B → Prop) (l1 : list (Z * A)) (l2 : list (Z * B)) :
  Forall2 (paired R) l1 l2 →
  Forall2 (paired R) (sort_desc l1) (sort_desc l2).
Proof.
  induction 1 as [|[k1 a] [k2 b] l1 l2 [Hk Hab] Hl IH]; simpl; [constructor|].
  simpl in Hk. subst k2. by apply insert_desc_paired.
Qed.

Lemma zip_paired {A B} (R : A → B → Prop) ks xs ys :
  Forall2 R xs ys → Forall2 (paired R) (zip ks xs) (zip ks ys).
Proof.
  intros Hl. revert ks. induction Hl as [|x y xs ys Hxy Hl IH]; intros [|k ks]; simpl;
    try constructor; [by split | apply IH].
Qed.

Lemma paired_snd {A B} (R : A → B → Prop) (l1 : list (Z * A)) (l2 : list (Z * B)) :
  Forall2 (paired R) l1 l2 → Forall2 R l1.*2 l2.*2.
Proof. induction 1 as [|? ? ? ? [_ ?]]; simpl; by constructor. Qed.

Lemma map_m_score_key H refs0 es refs es' :
  Forall2 (refers H es) refs es' →
  map_m score_key refs (layout H refs0 es)
  = (Ok (score <$> es'), layout H refs0 es).
Proof.
  induction 1 as [|r e refs es' Hr Hl IH]; simpl; [done|].
  unfold bind at 1. unfold score_key at 1. unfold bind at 1, reading at 1.
  rewrite (getitem_entry _ _ _ _ _ _ _ Hr (entry_field_score e)). simpl.
  unfold bind. by rewrite IH.
Qed.

Lemma list_sort_layout H es refs es' :
  Forall2 (refers H es) refs es' →
  ∃ refs',
    list_sort_reverse score_key (VRef (length H)) (layout H refs es)
    = (Ok tt, layout H refs' es)
    ∧ Forall2 (refers H es) refs' (sorted_by_score es').
Proof.
  intros Hl. exists (sort_desc (zip (score <$> es') refs)).*2. split.
  - unfold list_sort_reverse, bind.
    by rewrite read_list_layout, (map_m_score_key _ _ _ _ _ Hl), write_list_layout.
  - by apply paired_snd, sort_desc_paired, zip_paired.
Qed.

(** ** Moving the first non-pangram to the front *)

Lemma move_first_non_pangram_layout H es all all_es pre items items_es :
  Forall2 (refers H es) all all_es →
  all = pre ++ items →
  Forall2 (refers H es) items items_es →
  move_first_non_pangram (VRef (length H)) items (length pre) (layout H all es)
  = (Ok tt,
     layout H (match first_non_pangram items_es (length pre) with
               | Some j => move_to_front j all
               | None => all
               end) es).
Proof.
  intros Hall Hsplit Hitems. revert pre Hsplit.
  induction Hitems as [|r e items items_es Hr Hl IH]; intros pre Hsplit; simpl; [done|].
  unfold bind at 1, reading at 1.
  rewrite (getitem_entry _ _ _ _ _ _ _ Hr (entry_field_is_pangram e)).
  unfold bind at 1, reading at 1. unfold truthy.
  destruct (is_pangram e); simpl.
  - specialize (IH (pre ++ [r])). rewrite length_app in IH. simpl in IH.
    replace (length pre + 1) with (S (length pre)) in IH by lia.
    apply IH. by rewrite <- app_assoc.
  - unfold list_pop, bind. rewrite read_list_layout.
    assert (Hlook : all !! length pre = Some r).
    { subst all. by rewrite list_lookup_middle. }
    rewrite Hlook. rewrite write_list_layout. unfold ret.
    unfold list_insert_front, bind. rewrite read_list_layout, write_list_layout.
    unfold move_to_front. by rewrite Hlook.
Qed.

Lemma move_to_front_Forall2 {A B} (R : A → B → Prop) j l k :
  Forall2 R l k → Forall2 R (move_to_front j l) (move_to_front j k).
Proof.
  intros Hl. unfold move_to_front.
  destruct (l !! j) as [x|] eqn:Hx.
  - destruct (Forall2_lookup_l _ _ _ _ _ Hl Hx) as (y & -> & Hxy).
    constructor; [done|]. apply Forall2_app; [by apply Forall2_take | by apply Forall2_drop].
  - apply lookup_ge_None_1 in Hx. rewrite (Forall2_length _ _ _ Hl) in Hx.
    by rewrite (lookup_ge_None_2 _ _ Hx).
Qed.

Arguments move_first_non_pangram : simpl never.

Lemma demote_first_layout H es refs sorted :
  Forall2 (refers H es) refs sorted →
  ∃ refs',
    demote_first (VRef (length H)) (layout H refs es) = (Ok tt, layout H refs' es)
    ∧ Forall2 (refers H es) refs' (demote sorted).
Proof.
  intros Hl. unfold demote_first, bind at 1. rewrite read_list_layout.
  destruct Hl as [|r e refs sorted Hr Hl]; simpl.
  { exists []. by split. }
  assert (Hall : Forall2 (refers H es) (r :: refs) (e :: sorted)) by by constructor.
  unfold bind at 1, reading at 1.
  rewrite (getitem_entry _ _ _ _ _ _ _ Hr (entry_field_is_pangram e)).
  unfold bind at 1, reading at 1. unfold truthy.
  destruct (is_pangram e) eqn:He.
  - pose proof (move_first_non_pangram_layout H es (r :: refs) (e :: sorted) []
                  (r :: refs) (e :: sorted) Hall eq_refl Hall) as Hmove.
    change (length (@nil val)) with 0 in Hmove. rewrite Hmove.
    eexists. split; [done|]. simpl. rewrite He.
    destruct (first_non_pangram sorted 1); [|done].
    by apply move_to_front_Forall2.
  - exists (r :: refs). by split.
Qed.

Lemma map_m_word H refs0 es refs es' :
  Forall2 (refers H es) refs es' →
  map_m (λ item, reading (λ h, getitem "word" h item)) refs (layout H refs0 es)
  = (Ok (word <$> es'), layout H refs0 es).
Proof.
  induction 1 as [|r e refs es' Hr Hl IH]; simpl; [done|].
  unfold bind at 1, reading at 1.
  rewrite (getitem_entry _ _ _ _ _ _ _ Hr (entry_field_word e)).
  unfold bind. by rewrite IH.
Qed.

(** ** The whole function *)

Lemma word_items_ok h data items :
  closed h = true → fst (word_items data h) = Ok items →
  Forall (λ x, val_ok (length h) x = true) items.
Proof.
  intros Hc. unfold word_items, bind, reading.
  destruct (getitem "words" h data) as [ws|x] eqn:Hws; simpl; [|done].
  intros Hit. by eapply iter_ok.
Qed.

Lemma get_prioritized_words_run h H data :
  closed h = true → val_ok (length h) data = true → agree h H →
  ∃ new o,
    get_prioritized_words data H = (o, H ++ new) ∧
    match read_input h data with
    | Ok es =>
        ∃ r, o = Ok r ∧ list_at (H ++ new) r = Some (word <$> prioritized es)
    | Raise x => o = Raise x
    end.
Proof.
  intros Hc Hd Ha. unfold get_prioritized_words, read_input.
  unfold bind at 1.
  rewrite (framed_run h H _ (no_words_framed h H Ha data Hd)).
  destruct (fst (no_words data h)) as [[|]|x]; simpl.
  { exists [OList []], (Ok (VRef (length H))). split; [done|].
    exists (VRef (length H)). split; [done|].
    simpl. by rewrite list_lookup_middle. }
  2:{ exists [], (Raise x). by rewrite app_nil_r. }
  unfold bind at 1. unfold alloc at 1.
  change (H ++ [OList []]) with (layout H [] []).
  unfold bind at 1.
  rewrite (framed_run h _ _
             (word_items_framed h _ (agree_layout _ _ [] [] Ha) data Hc Hd)).
  destruct (fst (word_items data h)) as [items|x] eqn:Hitems; simpl.
  2:{ by exists [OList []], (Raise x). }
  unfold bind at 1.
  pose proof (for_each_add_entry h H items [] Hc Ha
                (word_items_ok _ _ _ Hc Hitems)) as Hloop.
  change (entry_refs H (length (@nil scored))) with (@nil val) in Hloop.
  rewrite Hloop. clear Hloop.
  simpl. destruct (scan h items) as [es [x|]]; simpl.
  { by eexists _, (Raise x). }
  destruct (list_sort_layout H es _ es (refers_entry_refs H es))
    as (refs1 & Hsort & Hrefs1).
  unfold bind at 1. rewrite Hsort.
  destruct (demote_first_layout H es refs1 _ Hrefs1) as (refs2 & Hdem & Hrefs2).
  unfold bind at 1. rewrite Hdem.
  unfold bind at 1. rewrite read_list_layout.
  unfold bind at 1. rewrite (map_m_word _ _ _ _ _ Hrefs2).
  exists (OList refs2 :: (entry_obj <$> es) ++ [OList (word <$> prioritized es)]).
  exists (Ok (VRef (length (layout H refs2 es)))).
  assert (Hnew : H ++ OList refs2 :: (entry_obj <$> es)
                   ++ [OList (word <$> prioritized es)]
                 = layout H refs2 es ++ [OList (word <$> prioritized es)]).
  { unfold layout. by rewrite <- app_assoc. }
  rewrite Hnew. split; [done|].
  eexists. split; [done|]. simpl. by rewrite list_lookup_middle.
Qed.

(** ** The order [list.sort] leaves *)

Section sort_desc.
Context {A : Type}.
Implicit Types (l : list (Z * A)) (k c : Z) (x : A).

Lemma insert_desc_perm k x l : insert_desc k x l ≡ₚ (k, x) :: l.
Proof.
  induction l as [|[k' y] l IH]; simpl; [done|].
  destruct (k' <=? k)%Z; [done|]. rewrite IH. apply Permutation_swap.
Qed.

Lemma sort_desc_perm l : sort_desc l ≡ₚ l.
Proof.
  induction l as [|[k x] l IH]; simpl; [done|].
  by rewrite insert_desc_perm, IH.
Qed.

Lemma insert_desc_sorted k x l :
  StronglySorted key_desc l → StronglySorted key_desc (insert_desc k x l).
Proof.
  induction l as [|[k' y] l IH]; simpl; intros Hs.
  { repeat constructor. }
  apply StronglySorted_cons in Hs as [Hall Hs].
  destruct (k' <=? k)%Z eqn:Hk.
  - apply Z.leb_le in Hk. apply StronglySorted_cons. split.
    + constructor; [done|]. eapply Forall_impl; [exact Hall|].
      intros q Hq. unfold key_desc in *. simpl in *. lia.
    + apply StronglySorted_cons. by split.
  - apply Z.leb_gt in Hk. apply StronglySorted_cons. split; [|by apply IH].
    rewrite insert_desc_perm. constructor; [|done].
    unfold key_desc. simpl. lia.
Qed.

Lemma sort_desc_sorted l : StronglySorted key_desc (sort_desc l).
Proof.
  induction l as [|[k x] l IH]; simpl; [constructor|].
  by apply insert_desc_sorted.
Qed.

(** Stability: the items of any one key keep their order. *)
Lemma insert_desc_filter c k x l :
  filter (λ p, p.1 = c) (insert_desc k x l)
  = filter (λ p, p.1 = c) ((k, x) :: l).
Proof.
  induction l as [|[k' y] l IH]; simpl; [done|].
  destruct (k' <=? k)%Z eqn:Hk; [done|]. apply Z.leb_gt in Hk.
  rewrite (filter_cons _ (k', y)), IH, !filter_cons. simpl.
  repeat case_decide; try done; lia.
Qed.

Lemma sort_desc_filter c l :
  filter (λ p, p.1 = c) (sort_desc l) = filter (λ p, p.1 = c) l.
Proof.
  induction l as [|[k x] l IH]; simpl; [done|].
  by rewrite insert_desc_filter, !filter_cons, IH.
Qed.
End sort_desc.

Lemma decorate_fmap es : decorate es = (λ e, (score e, e)) <$> es.
Proof. unfold decorate. induction es as [|e es IH]; simpl; [done|]. by f_equal. Qed.

Lemma decorate_snd es : (decorate es).*2 = es.
Proof. unfold decorate. apply snd_zip. by rewrite length_fmap. Qed.

Lemma sorted_keys es :
  Forall (λ p, p.1 = score p.2) (sort_desc (decorate es)).
Proof.
  rewrite sort_desc_perm, decorate_fmap. apply Forall_fmap, Forall_true. done.
Qed.

Lemma sorted_by_score_perm es : sorted_by_score es ≡ₚ es.
Proof.
  unfold sorted_by_score. fold (decorate es).
  rewrite sort_desc_perm. by rewrite decorate_snd.
Qed.

Lemma keyed_sorted (l : list (Z * scored)) :
  Forall (λ p, p.1 = score p.2) l →
  StronglySorted key_desc l → StronglySorted score_desc l.*2.
Proof.
  induction l as [|p l IH]; csimpl; intros Hk Hs; [constructor|].
  apply Forall_cons in Hk as [Hp Hk].
  apply StronglySorted_cons in Hs as [Hall Hs].
  apply StronglySorted_cons. split; [|by apply IH].
  apply Forall_fmap. apply Forall_forall. intros q Hq.
  rewrite Forall_forall in Hall, Hk. specialize (Hall q Hq). specialize (Hk q Hq).
  unfold key_desc, score_desc in *. simpl. lia.
Qed.

Lemma sorted_by_score_sorted es : StronglySorted score_desc (sorted_by_score es).
Proof. apply keyed_sorted; [apply sorted_keys | apply sort_desc_sorted]. Qed.

Lemma keyed_filter c (l : list (Z * scored)) :
  Forall (λ p, p.1 = score p.2) l →
  filter (λ e, score e = c) l.*2 = (filter (λ p, p.1 = c) l).*2.
Proof.
  induction l as [|p l IH]; csimpl; intros Hk; [done|].
  apply Forall_cons in Hk as [Hp Hk]. rewrite !filter_cons, IH by done.
  repeat case_decide; try done; congruence.
Qed.

Lemma sorted_by_score_stable c es :
  filter (λ e, score e = c) (sorted_by_score es) = filter (λ e, score e = c) es.
Proof.
  unfold sorted_by_score. fold (decorate es).
  rewrite keyed_filter by apply sorted_keys.
  rewrite sort_desc_filter.
  rewrite <- keyed_filter, decorate_snd; [done|].
  rewrite decorate_fmap. apply Forall_fmap, Forall_true. done.
Qed.

(** ** What the demotion does to a list *)

Lemma first_non_pangram_split es i :
  match first_non_pangram es i with
  | Some j =>
      ∃ ps np rest, es = ps ++ np :: rest ∧ j = i + length ps
        ∧ Forall (λ e, is_pangram e = true) ps ∧ is_pangram np = false
  | None => Forall (λ e, is_pangram e = true) es
  end.
Proof.
  revert i. induction es as [|e es IH]; intros i; simpl; [constructor|].
  destruct (is_pangram e) eqn:He.
  - specialize (IH (S i)). destruct (first_non_pangram es (S i)) as [j|].
    + destruct IH as (ps & np & rest & -> & -> & Hps & Hnp).
      exists (e :: ps), np, rest. repeat split; simpl; [lia | by constructor | done].
    + by constructor.
  - exists [], e, es. repeat split; simpl; [lia | constructor | done].
Qed.

Lemma move_to_front_middle {A} (ps : list A) np rest :
  move_to_front (length ps) (ps ++ np :: rest) = np :: ps ++ rest.
Proof.
  unfold move_to_front. rewrite list_lookup_middle by done.
  rewrite take_app_length. do 2 f_equal.
  rewrite (cons_middle np ps rest), app_assoc.
  replace (S (length ps)) with (length (ps ++ [np]))
    by (rewrite length_app; simpl; lia).
  by rewrite drop_app_length.
Qed.

(** Either the first non-pangram [np] is taken out from behind the pangrams
    [ps] and put in front of them, or there is none and nothing moves. *)
Lemma demote_spec sorted :
  (∃ ps np rest,
      sorted = ps ++ np :: rest ∧ Forall (λ e, is_pangram e = true) ps
      ∧ is_pangram np = false ∧ demote sorted = np :: ps ++ rest)
  ∨ (Forall (λ e, is_pangram e = true) sorted ∧ demote sorted = sorted).
Proof.
  destruct sorted as [|e rest]; [right; by split|].
  unfold demote. destruct (is_pangram e) eqn:He.
  - pose proof (first_non_pangram_split (e :: rest) 0) as Hsplit.
    destruct (first_non_pangram (e :: rest) 0) as [j|].
    + destruct Hsplit as (ps & np & rest' & Heq & -> & Hps & Hnp).
      left. exists ps, np, rest'. rewrite Heq. simpl.
      by rewrite move_to_front_middle.
    + right. by split.
  - left. exists [], e, rest. by repeat split.
Qed.

(** ** What an entry records *)

Lemma score_valid_word_reads w h : snd (score_valid_word w h) = h.
Proof.
  unfold score_valid_word, bind, reading, ret.
  destruct (py_len h w) as [n|] eqn:Hn; simpl; [|done].
  destruct (n =? 4)%Z; simpl; [done|]. rewrite Hn.
  destruct (len_set h w) as [k|]; simpl; [|done].
  by destruct (k =? 7)%Z.
Qed.

Lemma read_entry_inv h item e :
  fst (read_entry item h) = Ok e →
  getitem "word" h item = Ok (word e)
  ∧ fst (score_valid_word (word e) h) = Ok (score e)
  ∧ ∃ flag, dict_get "is_pangram" (VInt 0) h item = Ok flag
      ∧ if py_eqb false flag (VInt 1) then is_pangram e = true
        else ∃ k, len_set h (word e) = Ok k ∧ is_pangram e = (k =? 7)%Z.
Proof.
  unfold read_entry. unfold bind at 1, reading at 1.
  destruct (getitem "word" h item) as [w|] eqn:Hw; simpl; [|done].
  unfold bind at 1.
  pose proof (score_valid_word_reads w h) as Hs.
  destruct (score_valid_word w h) as [[sc|] h'] eqn:Hsc; simpl in *; [|done].
  subst h'. unfold bind at 1, reading at 1.
  destruct (dict_get "is_pangram" (VInt 0) h item) as [flag|] eqn:Hf; simpl; [|done].
  unfold bind at 1.
  destruct (py_eqb false flag (VInt 1)) eqn:Hflag; simpl.
  - unfold ret. simpl. intros [= <-]. simpl. rewrite Hsc.
    do 2 (split; [done|]). exists flag. by rewrite Hflag.
  - unfold bind at 1, reading at 1.
    destruct (len_set h w) as [k|] eqn:Hk; simpl; [|done].
    unfold ret. simpl. intros [= <-]. simpl. rewrite Hsc.
    do 2 (split; [done|]).
    exists flag. rewrite Hflag. split; [done|]. by exists k.
Qed.

Lemma scan_entries h items :
  Forall (λ e, ∃ item, item ∈ items ∧ fst (read_entry item h) = Ok e)
    (scan h items).1.
Proof.
  induction items as [|item items IH]; simpl; [constructor|].
  destruct (fst (read_entry item h)) as [e|] eqn:He; simpl; [|constructor].
  constructor.
  - exists item. split; [left|done].
  - eapply Forall_impl; [exact IH|]. intros e' (it & Hit & He').
    exists it. split; [by right|done].
Qed.

Lemma read_input_entries h data es :
  read_input h data = Ok es →
  Forall (λ e, ∃ item, fst (read_entry item h) = Ok e) es.
Proof.
  unfold read_input.
  destruct (fst (no_words data h)) as [[|]|]; try done.
  { intros [= <-]. constructor. }
  destruct (fst (word_items data h)) as [items|]; [|done].
  pose proof (scan_entries h items) as Hscan.
  destruct (scan h items) as [es' [x|]]; simpl in *; [done|].
  intros [= <-]. eapply Forall_impl; [exact Hscan|].
  intros e (item & _ & He). by exists item.
Qed.

(** An entry that is not a pangram is not flagged and its word does not have
    seven distinct elements. *)
Lemma non_pangram_inv h item e :
  fst (read_entry item h) = Ok e → is_pangram e = false →
  flagged h item = false ∧ ∃ k, len_set h (word e) = Ok k ∧ k ≠ 7%Z.
Proof.
  intros (_ & _ & flag & Hflag & Hp)%read_entry_inv Hnp.
  unfold flagged. rewrite Hflag.
  destruct (py_eqb false flag (VInt 1)); [congruence|].
  destruct Hp as (k & Hk & Hp). split; [done|]. exists k. split; [done|].
  rewrite Hnp in Hp. symmetry in Hp. by apply Z.eqb_neq in Hp.
Qed.

(** * The prioritised list *)

Lemma prioritized_perm es : prioritized es ≡ₚ es.
Proof.
  unfold prioritized. rewrite <- (sorted_by_score_perm es) at 2.
  destruct (demote_spec (sorted_by_score es))
    as [(ps & np & rest & -> & _ & _ & ->) | [_ ->]]; [|done].
  by rewrite Permutation_middle.
Qed.

(** With a non-pangram among the entries, the prioritised entries start with
    a non-pangram. *)
Lemma prioritized_head es :
  (∃ e, e ∈ es ∧ is_pangram e = false) →
  ∃ first rest, prioritized es = first :: rest ∧ is_pangram first = false.
Proof.
  intros (e & Hin & He). unfold prioritized.
  destruct (demote_spec (sorted_by_score es))
    as [(ps & np & rest & _ & _ & Hnp & ->) | [Hall _]].
  - by exists np, (ps ++ rest).
  - rewrite <- (sorted_by_score_perm es) in Hin.
    rewrite Forall_forall in Hall. specialize (Hall e Hin). congruence.
Qed.

(** C1.  When some entry is not a pangram, the returned list starts with the
    word of an entry that is not a pangram (not flagged by the data source,
    and without seven distinct letters); when every entry is a pangram, the
    returned list is the sorted one. *)
Theorem first_word_not_pangram h data es :
  closed h = true → val_ok (length h) data = true →
  read_input h data = Ok es →
  ∃ new r out,
    get_prioritized_words data h = (Ok r, h ++ new)
    ∧ list_at (h ++ new) r = Some (word <$> out)
    ∧ out ≡ₚ es
    ∧ ((∃ e, e ∈ es ∧ is_pangram e = false) →
       ∃ first rest, out = first :: rest ∧ is_pangram first = false
         ∧ ∃ k, len_set h (word first) = Ok k ∧ k ≠ 7%Z)
    ∧ (Forall (λ e, is_pangram e = true) es → out = sorted_by_score es).
Proof.
  intros Hc Hd Hes.
  destruct (get_prioritized_words_run h h data Hc Hd (agree_refl h))
    as (new & o & Hrun & Hout).
  rewrite Hes in Hout. destruct Hout as (r & -> & Hlist).
  exists new, r, (prioritized es). do 2 (split; [done|]).
  split; [apply prioritized_perm|]. split.
  - intros Hnp. destruct (prioritized_head es Hnp) as (first & rest & Heq & Hfirst).
    exists first, rest. do 2 (split; [done|]).
    assert (Hin : first ∈ es).
    { rewrite <- (prioritized_perm es), Heq. left. }
    pose proof (read_input_entries _ _ _ Hes) as Hentries.
    rewrite Forall_forall in Hentries.
    destruct (Hentries first Hin) as (item & Hitem).
    by destruct (non_pangram_inv _ _ _ Hitem Hfirst) as [_ Hk].
  - intros Hall. unfold prioritized.
    destruct (demote_spec (sorted_by_score es))
      as [(ps & np & rest & Hsplit & _ & Hnp & _) | [_ ->]]; [|done].
    exfalso. assert (Hin : np ∈ es).
    { rewrite <- (sorted_by_score_perm es), Hsplit. set_solver. }
    rewrite Forall_forall in Hall. specialize (Hall np Hin). congruence.
Qed.

(** C3.  The words are ordered by decreasing score (the score that
    [score_valid_word] gives each word), words of equal score keeping their
    input order; then the first non-pangram, if the list has one, is taken
    out and put at index 0, the pangrams before it and the words after it
    keeping their order; with no non-pangram the sorted list is returned as
    it is. *)
Theorem prioritized_order h data es :
  closed h = true → val_ok (length h) data = true →
  read_input h data = Ok es →
  ∃ new r sorted out,
    get_prioritized_words data h = (Ok r, h ++ new)
    ∧ list_at (h ++ new) r = Some (word <$> out)
    ∧ Forall (λ e, fst (score_valid_word (word e) h) = Ok (score e)) es
    ∧ sorted ≡ₚ es
    ∧ StronglySorted score_desc sorted
    ∧ (∀ c, filter (λ e, score e = c) sorted = filter (λ e, score e = c) es)
    ∧ ((∃ pangrams non_pangram rest,
          sorted = pangrams ++ non_pangram :: rest
          ∧ Forall (λ e, is_pangram e = true) pangrams
          ∧ is_pangram non_pangram = false
          ∧ out = non_pangram :: pangrams ++ rest)
       ∨ (Forall (λ e, is_pangram e = true) sorted ∧ out = sorted)).
Proof.
  intros Hc Hd Hes.
  destruct (get_prioritized_words_run h h data Hc Hd (agree_refl h))
    as (new & o & Hrun & Hout).
  rewrite Hes in Hout. destruct Hout as (r & -> & Hlist).
  exists new, r, (sorted_by_score es), (prioritized es).
  do 2 (split; [done|]).
  split.
  { eapply Forall_impl; [exact (read_input_entries _ _ _ Hes)|].
    intros e (item & Hitem). by apply read_entry_inv in Hitem as (_ & Hscore & _). }
  split; [apply sorted_by_score_perm|].
  split; [apply sorted_by_score_sorted|].
  split; [intros c; apply sorted_by_score_stable|].
  apply demote_spec.
Qed.

(** C9.  A call only adds objects to the heap, so every object that existed
    before the call is unchanged after it, and a second call on the same
    data gives the same result as the first. *)
Theorem get_prioritized_words_pure h data :
  closed h = true → val_ok (length h) data = true →
  ∃ new1 new2 o1 o2,
    get_prioritized_words data h = (o1, h ++ new1)
    ∧ get_prioritized_words data (h ++ new1) = (o2, (h ++ new1) ++ new2)
    ∧ same_result (h ++ new1) o1 ((h ++ new1) ++ new2) o2
    ∧ agree h ((h ++ new1) ++ new2).
Proof.
  intros Hc Hd.
  destruct (get_prioritized_words_run h h data Hc Hd (agree_refl h))
    as (new1 & o1 & Hrun1 & Hout1).
  destruct (get_prioritized_words_run h (h ++ new1) data Hc Hd (agree_app h new1))
    as (new2 & o2 & Hrun2 & Hout2).
  exists new1, new2, o1, o2. do 2 (split; [done|]). split.
  - destruct (read_input h data) as [es|x].
    + destruct Hout1 as (r1 & -> & Hl1), Hout2 as (r2 & -> & Hl2).
      simpl. by exists (word <$> prioritized es).
    + by subst.
  - rewrite <- app_assoc. apply agree_app.
Qed.

(** ** Words that are strings *)

Lemma existsb_char c l :
  existsb (py_eqb true (char_val c)) (char_val <$> l) = bool_decide (c ∈ l).
Proof.
  induction l as [|a l IH]; csimpl; [done|]. rewrite IH.
  destruct (Ascii.eqb c a) eqn:Hca; simpl.
  - apply Ascii.eqb_eq in Hca as ->. symmetry. apply bool_decide_eq_true. left.
  - apply Ascii.eqb_neq in Hca. apply bool_decide_ext.
    rewrite elem_of_cons. tauto.
Qed.

Lemma count_distinct_chars l :
  count_distinct (char_val <$> l) = size (list_to_set l : gset ascii).
Proof.
  induction l as [|a l IH]; [symmetry; apply size_empty|].
  rewrite fmap_cons, list_to_set_cons. simpl.
  rewrite existsb_char, IH. case_bool_decide as Ha.
  - rewrite subseteq_union_1_L; [done|].
    apply singleton_subseteq_l. by apply elem_of_list_to_set.
  - rewrite size_union, size_singleton; [done|].
    apply disjoint_singleton_l. by rewrite elem_of_list_to_set.
Qed.

Lemma count_distinct_le xs : count_distinct xs ≤ length xs.
Proof.
  induction xs as [|x xs IH]; simpl; [done|].
  destruct (existsb _ xs); lia.
Qed.

Lemma length_chars w : length (list_ascii_of_string w) = String.length w.
Proof. induction w as [|c w IH]; simpl; [done|]. by rewrite IH. Qed.

Lemma distinct_letters_le w : distinct_letters w ≤ String.length w.
Proof.
  unfold distinct_letters. rewrite <- count_distinct_chars, <- length_chars.
  etrans; [apply count_distinct_le|]. by rewrite length_fmap.
Qed.

Lemma py_len_str h w : py_len h (VStr w) = Ok (Z.of_nat (String.length w)).
Proof. done. Qed.

Lemma len_set_str h w : len_set h (VStr w) = Ok (Z.of_nat (distinct_letters w)).
Proof.
  unfold len_set, iter, chars. fold char_val.
  rewrite count_distinct_chars.
  replace (forallb hashable (char_val <$> list_ascii_of_string w)) with true; [done|].
  symmetry. apply forallb_forall. intros x Hx.
  apply list_elem_of_In, list_elem_of_fmap in Hx as (c & -> & _). done.
Qed.

Lemma score_valid_word_str h w :
  score_valid_word (VStr w) h = (Ok (word_score w), h).
Proof.
  unfold score_valid_word, word_score, bind, reading, ret.
  rewrite py_len_str. destruct (Z.of_nat (String.length w) =? 4)%Z; [done|].
  rewrite py_len_str, len_set_str.
  by destruct (Z.of_nat (distinct_letters w) =? 7)%Z.
Qed.

(** C2, with the score of "lengthy" as the code gives it.  A word of four
    letters scores 1; a longer word scores its length, and 7 more exactly
    when it has seven distinct characters.  "lengthy" has seven distinct
    letters, so it scores 14. *)
Theorem score_valid_word_spec :
  (∀ h w, String.length w = 4 → score_valid_word (VStr w) h = (Ok 1%Z, h))
  ∧ (∀ h w, 4 < String.length w → distinct_letters w ≠ 7 →
       score_valid_word (VStr w) h = (Ok (Z.of_nat (String.length w)), h))
  ∧ (∀ h w, distinct_letters w = 7 →
       score_valid_word (VStr w) h = (Ok (Z.of_nat (String.length w) + 7)%Z, h))
  ∧ fst (score_valid_word (VStr "word") []) = Ok 1%Z
  ∧ fst (score_valid_word (VStr "lengthy") []) = Ok 14%Z
  ∧ fst (score_valid_word (VStr "abcdefg") []) = Ok 14%Z.
Proof.
  split; [|split; [|split]].
  - intros h w Hw. rewrite score_valid_word_str. unfold word_score.
    by rewrite Hw.
  - intros h w Hw Hd. rewrite score_valid_word_str. unfold word_score.
    destruct (Z.eqb_spec (Z.of_nat (String.length w)) 4); [lia|].
    destruct (Z.eqb_spec (Z.of_nat (distinct_letters w)) 7); [lia|done].
  - intros h w Hd. rewrite score_valid_word_str. unfold word_score.
    pose proof (distinct_letters_le w) as Hle.
    destruct (Z.eqb_spec (Z.of_nat (String.length w)) 4); [lia|].
    destruct (Z.eqb_spec (Z.of_nat (distinct_letters w)) 7); [done|lia].
  - by vm_compute.
Qed.

Lemma score_valid_word_spec_witness :
  score_valid_word (VStr "word") [] = (Ok 1%Z, [])
  ∧ score_valid_word (VStr "label") [] = (Ok 5%Z, [])
  ∧ score_valid_word (VStr "lengthy") [] = (Ok 14%Z, []).
Proof.
  destruct score_valid_word_spec as (H4 & Hlong & Hbonus & _).
  split; [|split].
  - apply (H4 [] "word"). reflexivity.
  - apply (Hlong [] "label"); vm_compute; [lia | discriminate].
  - apply (Hbonus [] "lengthy"). reflexivity.
Defined.

(** The specification gives "lengthy" the score 7; the code does not. *)
Lemma lengthy_does_not_score_7 :
  fst (score_valid_word (VStr "lengthy") []) ≠ Ok 7%Z.
Proof. by vm_compute. Qed.

(** ** Well-formed puzzle data *)

Lemma read_entry_word h item w :
  word_entry h item w → read_entry item h = (Ok (entry_of h item w), h).
Proof.
  intros (l & fields & -> & Hl & Hw). unfold read_entry, entry_of, flagged.
  unfold bind at 1, reading at 1. unfold getitem at 1. rewrite Hl, Hw.
  unfold bind at 1. rewrite score_valid_word_str.
  unfold bind at 1, reading at 1. unfold dict_get. rewrite Hl.
  unfold bind at 1.
  destruct (py_eqb false (default (VInt 0) (fields !! "is_pangram")) (VInt 1));
    simpl; [done|].
  unfold bind, reading, ret. by rewrite len_set_str.
Qed.

Lemma read_entry_no_word h item x :
  getitem "word" h item = Raise x → fst (read_entry item h) = Raise x.
Proof.
  intros Hw. unfold read_entry. unfold bind at 1, reading at 1. by rewrite Hw.
Qed.

Lemma scan_word_entries h items ws :
  Forall2 (word_entry h) items ws →
  scan h items = (zip_with (entry_of h) items ws, None).
Proof.
  induction 1 as [|item w items ws Hw Hl IH]; simpl; [done|].
  by rewrite (read_entry_word _ _ _ Hw), IH.
Qed.

Lemma scan_app h pre rest es :
  scan h pre = (es, None) →
  scan h (pre ++ rest) = (es ++ (scan h rest).1, (scan h rest).2).
Proof.
  revert es. induction pre as [|item pre IH]; intros es; simpl.
  { intros [= <-]. by destruct (scan h rest). }
  destruct (fst (read_entry item h)) as [e|x]; [|done].
  destruct (scan h pre) as [es' o] eqn:Hpre. simpl. intros [= <- ->].
  by rewrite (IH es' eq_refl).
Qed.

Lemma no_words_puzzle_data h data items :
  puzzle_data h data items → fst (no_words data h) = Ok false.
Proof.
  intros (l & fields & lw & -> & Hl & Hw & _).
  unfold no_words, bind, reading, ret, truthy, contains. rewrite Hl.
  assert (Hsize : size fields ≠ 0).
  { apply map_size_ne_0_lookup. by exists "words", (VRef lw). }
  destruct (size fields); [done|]. simpl. rewrite Hl. simpl.
  rewrite bool_decide_eq_true_2; [done|by eexists].
Qed.

Lemma word_items_puzzle_data h data items :
  puzzle_data h data items → fst (word_items data h) = Ok items.
Proof.
  intros (l & fields & lw & -> & Hl & Hw & Hlw).
  unfold word_items, bind, reading, getitem, iter. rewrite Hl, Hw. simpl.
  by rewrite Hlw.
Qed.

Lemma read_input_wellformed h data items ws :
  puzzle_data h data items → Forall2 (word_entry h) items ws →
  read_input h data = Ok (zip_with (entry_of h) items ws).
Proof.
  intros Hd Hitems. unfold read_input.
  rewrite (no_words_puzzle_data _ _ _ Hd), (word_items_puzzle_data _ _ _ Hd).
  by rewrite (scan_word_entries _ _ _ Hitems).
Qed.

Lemma word_zip_entry_of h items ws :
  length items = length ws →
  word <$> zip_with (entry_of h) items ws = VStr <$> ws.
Proof.
  revert ws. induction items as [|item items IH]; intros [|w ws]; simpl; try done.
  intros [= Hlen]. by rewrite IH.
Qed.

(** C4, as the code behaves.  The call returns an empty list when line 62
    finds the data falsy or without a ["words"] key.  When every item of
    [data["words"]] is a dict with a string ["word"], the call returns one
    word for each item.  An item without a ["word"] key is not dropped: the
    call raises [KeyError]. *)
Theorem get_prioritized_words_errors h data :
  closed h = true → val_ok (length h) data = true →
  (fst (no_words data h) = Ok true →
     ∃ r new, get_prioritized_words data h = (Ok r, h ++ new)
              ∧ list_at (h ++ new) r = Some [])
  ∧ (∀ items ws,
       puzzle_data h data items → Forall2 (word_entry h) items ws →
       ∃ r new out, get_prioritized_words data h = (Ok r, h ++ new)
                    ∧ list_at (h ++ new) r = Some out
                    ∧ out ≡ₚ VStr <$> ws
                    ∧ length out = length items)
  ∧ (∀ pre ws bad post,
       puzzle_data h data (pre ++ bad :: post) →
       Forall2 (word_entry h) pre ws →
       getitem "word" h bad = Raise KeyError →
       ∃ new, get_prioritized_words data h = (Raise KeyError, h ++ new)).
Proof.
  intros Hc Hd.
  destruct (get_prioritized_words_run h h data Hc Hd (agree_refl h))
    as (new & o & Hrun & Hout).
  split; [|split].
  - intros Hno. unfold read_input in Hout. rewrite Hno in Hout.
    destruct Hout as (r & -> & Hlist). by exists r, new.
  - intros items ws Hdata Hitems.
    rewrite (read_input_wellformed _ _ _ _ Hdata Hitems) in Hout.
    destruct Hout as (r & -> & Hlist).
    pose proof (Forall2_length _ _ _ Hitems) as Hlen.
    exists r, new, (word <$> prioritized (zip_with (entry_of h) items ws)).
    do 2 (split; [done|]). split.
    + by rewrite prioritized_perm, word_zip_entry_of.
    + rewrite length_fmap, prioritized_perm, length_zip_with. lia.
  - intros pre ws bad post Hdata Hpre Hbad. exists new.
    unfold read_input in Hout.
    rewrite (no_words_puzzle_data _ _ _ Hdata),
      (word_items_puzzle_data _ _ _ Hdata) in Hout.
    rewrite (scan_app _ _ _ _ (scan_word_entries _ _ _ Hpre)) in Hout.
    simpl in Hout. rewrite (read_entry_no_word _ _ _ Hbad) in Hout.
    simpl in Hout. by subst o.
Qed.

(** C10, with the condition under which a pangram is kept off index 0.  The
    score of an entry is computed from its word alone, so the flag of the
    data source adds no bonus; the pangram mark holds when the flag is set
    or the word has seven distinct letters.  When some entry is not a
    pangram, the first word returned is that of an item that is neither
    flagged nor has seven distinct letters, so a flagged word is not at
    index 0. *)
Theorem flag_demotes_without_bonus h data items ws :
  closed h = true → val_ok (length h) data = true →
  puzzle_data h data items → Forall2 (word_entry h) items ws →
  ∃ es,
    read_input h data = Ok es
    ∧ Forall2 (entry_reflects h) items es
    ∧ ((∃ e, e ∈ es ∧ is_pangram e = false) →
       ∃ r new rest item w,
         get_prioritized_words data h = (Ok r, h ++ new)
         ∧ list_at (h ++ new) r = Some (VStr w :: rest)
         ∧ item ∈ items ∧ word_entry h item w
         ∧ flagged h item = false ∧ distinct_letters w ≠ 7).
Proof.
  intros Hc Hd Hdata Hitems.
  exists (zip_with (entry_of h) items ws).
  pose proof (read_input_wellformed _ _ _ _ Hdata Hitems) as Hread.
  split; [done|].
  assert (Hrefl : Forall2 (entry_reflects h) items (zip_with (entry_of h) items ws)).
  { clear -Hitems. induction Hitems as [|item w items ws Hw Hl IH]; simpl;
      constructor; [|done]. by exists w. }
  split; [done|]. intros Hnp.
  destruct (get_prioritized_words_run h h data Hc Hd (agree_refl h))
    as (new & o & Hrun & Hout).
  rewrite Hread in Hout. destruct Hout as (r & -> & Hlist).
  destruct (prioritized_head _ Hnp) as (first & rest & Heq & Hfalse).
  rewrite Heq in Hlist.
  assert (Hin : first ∈ zip_with (entry_of h) items ws).
  { rewrite <- (prioritized_perm (zip_with (entry_of h) items ws)), Heq. left. }
  apply elem_of_lookup_zip_with in Hin as (i & item & w & -> & Hitem & Hw).
  pose proof (Forall2_lookup_lr _ _ _ _ _ _ Hitems Hitem Hw) as Hentry.
  simpl in Hfalse. apply orb_false_elim in Hfalse as [Hflag Hseven].
  exists r, new, (word <$> rest), item, w.
  split; [done|]. split; [done|].
  split; [by eapply list_elem_of_lookup_2|]. split; [done|]. split; [done|].
  apply Z.eqb_neq in Hseven. lia.
Qed.

(** ** Keystrokes *)

Lemma keystrokes_app a b : keystrokes (a ++ b) = keystrokes a ++ keystrokes b.
Proof. apply List.filter_app. Qed.

Ltac norm_app := repeat (progress (rewrite <- ?app_assoc; simpl)); try done.

Arguments call : simpl never.
Arguments log : simpl never.

Section play_facts.
Context {St : Type} (p : page St).

Lemma log_run ev (st : St) tr : log ev (st, tr) = (Ok tt, (st, tr ++ [ev])).
Proof. done. Qed.

Lemma call_run {A} ev (op : M St A) st tr :
  call ev op (st, tr) = ((op st).1, ((op st).2, tr ++ [ev])).
Proof. unfold call. by destruct (op st). Qed.

(** *** Typing a word *)

Lemma type_chars_ok cs st tr st' tr' :
  for_each cs (type_char p) (st, tr) = (Ok tt, (st', tr')) →
  ∃ new, tr' = tr ++ new ∧ keystrokes new = TypeChar <$> cs.
Proof.
  revert st tr. induction cs as [|c cs IH]; intros st tr; simpl.
  { intros [= <- <-]. exists []. by rewrite app_nil_r. }
  unfold bind at 1. unfold type_char at 1. unfold bind at 1.
  rewrite call_run. destruct (keyboard_type p c st) as [[[]|e] st1]; simpl; [|done].
  intros (new & -> & Hnew)%IH.
  exists (TypeChar c :: Sleep 200 500 :: new). split.
  - norm_app.
  - exact (f_equal (cons (TypeChar c)) Hnew).
Qed.

Lemma type_chars_raise cs st tr e st' tr' :
  for_each cs (type_char p) (st, tr) = (Raise e, (st', tr')) →
  ∃ typed c rest new,
    cs = typed ++ c :: rest ∧ tr' = tr ++ new ++ [TypeChar c]
    ∧ keystrokes new = TypeChar <$> typed.
Proof.
  revert st tr. induction cs as [|c cs IH]; intros st tr; simpl; [done|].
  unfold bind at 1. unfold type_char at 1. unfold bind at 1.
  rewrite call_run. destruct (keyboard_type p c st) as [[[]|e1] st1]; simpl.
  - intros (typed & c' & rest & new & -> & -> & Hnew)%IH.
    exists (c :: typed), c', rest, (TypeChar c :: Sleep 200 500 :: new).
    split; [done|]. split.
    + norm_app.
    + exact (f_equal (cons (TypeChar c)) Hnew).
  - intros [= <- <- <-]. exists [], c, cs, []. by split.
Qed.

(** A word that is submitted is typed in full, once, and then entered. *)
Lemma submit_ok_keys w st tr st' tr' :
  submit p w (st, tr) = (Ok tt, (st', tr')) →
  ∃ new, tr' = tr ++ new ∧ keystrokes new = word_keys w.
Proof.
  unfold submit. unfold bind at 1. rewrite log_run.
  unfold bind at 1.
  destruct (for_each _ (type_char p) _) as [[[]|e] [st1 tr1]] eqn:Hty; [|done].
  apply type_chars_ok in Hty as (new & -> & Hnew).
  unfold bind at 1. rewrite log_run. unfold bind. rewrite call_run.
  destruct (keyboard_press_enter p st1) as [[[]|e] st2]; simpl; [|done].
  intros [= <- <-].
  exists (Print ("Typing word: " ++ w)%string :: new
          ++ [Sleep 300 600; PressEnter; Sleep 1500 1500]).
  split.
  - norm_app.
  - unfold word_keys. simpl. rewrite keystrokes_app. by rewrite Hnew.
Qed.

(** A submission that fails ends with the call that raised; every key
    before it was sent once, in the order of the word. *)
Lemma submit_raise_keys w st tr e st' tr' :
  submit p w (st, tr) = (Raise e, (st', tr')) →
  ∃ new key, tr' = tr ++ new ++ [key] ∧ is_key key = true
             ∧ keystrokes (new ++ [key]) `prefix_of` word_keys w.
Proof.
  unfold submit. unfold bind at 1. rewrite log_run.
  unfold bind at 1.
  destruct (for_each _ (type_char p) _) as [[[]|e1] [st1 tr1]] eqn:Hty.
  - apply type_chars_ok in Hty as (new & -> & Hnew).
    unfold bind at 1. rewrite log_run. unfold bind. rewrite call_run.
    destruct (keyboard_press_enter p st1) as [[[]|e2] st2]; simpl; [done|].
    intros [= <- <- <-].
    exists (Print ("Typing word: " ++ w)%string :: new ++ [Sleep 300 600]),
      PressEnter.
    split; [|split; [done|]].
    + norm_app.
    + unfold word_keys. simpl. rewrite !keystrokes_app, Hnew. simpl.
      by rewrite app_nil_r.
  - intros [= <- <- <-].
    apply type_chars_raise in Hty as (typed & c & rest & new & Hcs & -> & Hnew).
    exists (Print ("Typing word: " ++ w)%string :: new), (TypeChar c).
    split; [|split; [done|]].
    + norm_app.
    + unfold word_keys. rewrite Hcs. simpl. rewrite keystrokes_app, Hnew. simpl.
      rewrite fmap_app. simpl. rewrite <- !app_assoc. simpl.
      eexists. by rewrite <- app_assoc.
Qed.
End play_facts.

Ltac run_page := repeat (first [rewrite call_run | rewrite log_run]; simpl).

Section stop_condition.
Context {St : Type} (p : page St).

Lemma check_stop_genius st st' tr :
  genius_seen p st st' →
  check_stop p (st, tr)
  = (Ok Break,
     (st', tr ++ [QueryRank; InnerText;
                  Print "Target rank 'Genius' reached. Stopping automation.";
                  Sleep 3000 3000])).
Proof.
  intros (st1 & text & Hq & Ht & Hg).
  unfold check_stop, try_except, bind, ret. rewrite call_run, Hq. simpl.
  rewrite call_run, Ht. simpl. rewrite Hg. run_page. norm_app.
Qed.

Lemma check_stop_queen_bee st st' probes tr :
  queen_bee_seen p st st' probes →
  check_stop p (st, tr)
  = (Ok Break, (st', tr ++ probes ++ [Print "Queen Bee reached. Stopping."])).
Proof.
  intros (st1 & pr & Hrank & Hv & ->).
  unfold check_stop, try_except, bind, ret. rewrite call_run.
  destruct Hrank as [[Hq ->] | (st0 & text & Hq & Ht & Hg & ->)].
  - rewrite Hq. simpl. rewrite call_run, Hv. run_page. norm_app.
  - rewrite Hq. simpl. rewrite call_run, Ht. simpl.
    apply String.eqb_neq in Hg. rewrite Hg. simpl.
    rewrite call_run, Hv. run_page. norm_app.
Qed.

(** The stop check never raises and sends no key. *)
Lemma check_stop_total st tr :
  ∃ f st' new, check_stop p (st, tr) = (Ok f, (st', tr ++ new))
               ∧ keystrokes new = [].
Proof.
  unfold check_stop, try_except, bind, ret. rewrite call_run.
  destruct (query_rank p st) as [[[|]|e] st1]; simpl.
  - rewrite call_run. destruct (inner_text p st1) as [[text|e] st2]; simpl.
    + destruct (String.eqb (strip text) "Genius"); run_page.
      * eexists _, _, _. split; [norm_app|done].
      * destruct (queen_bee_visible p st2) as [[[|]|e] st3]; run_page;
          eexists _, _, _; (split; [norm_app|done]).
    + eexists _, _, _. split; [norm_app|done].
  - rewrite call_run.
    destruct (queen_bee_visible p st1) as [[[|]|e] st3]; run_page;
      eexists _, _, _; (split; [norm_app|done]).
  - eexists _, _, _. split; [norm_app|done].
Qed.

(** A probe that raises is taken as no stop condition. *)
Lemma check_stop_failing st tr :
  probe_fails p st →
  ∃ st' new, check_stop p (st, tr) = (Ok Continue, (st', tr ++ new))
             ∧ keystrokes new = [].
Proof.
  unfold check_stop, try_except, bind, ret. rewrite call_run.
  intros [(e & st' & Hq) | [(st1 & e & st' & Hq & Ht)
                          | (st1 & pr & e & st' & Hrank & Hv)]].
  - rewrite Hq. simpl. eexists _, _. split; [norm_app|done].
  - rewrite Hq. simpl. rewrite call_run, Ht. simpl.
    eexists _, _. split; [norm_app|done].
  - destruct Hrank as [[Hq ->] | (st0 & text & Hq & Ht & Hg & ->)].
    + rewrite Hq. simpl. rewrite call_run, Hv. simpl.
      eexists _, _. split; [norm_app|done].
    + rewrite Hq. simpl. rewrite call_run, Ht. simpl.
      apply String.eqb_neq in Hg. rewrite Hg. simpl.
      rewrite call_run, Hv. simpl. eexists _, _. split; [norm_app|done].
Qed.
End stop_condition.

Section rounds.
Context {St : Type} (p : page St).

Lemma play_words_app pre rest s s0 :
  play_words p pre s = (Ok Continue, s0) →
  play_words p (pre ++ rest) s = play_words p rest s0.
Proof.
  revert s. induction pre as [|w pre IH]; intros s; simpl.
  { by intros [= <-]. }
  unfold bind. destruct (play_word p w s) as [[[|]|e] s1]; try done.
  apply IH.
Qed.

(** A completed round has sent the keys of its word, whichever way it
    ends. *)
Lemma play_word_keys w st tr f st' tr' :
  play_word p w (st, tr) = (Ok f, (st', tr')) →
  ∃ new, tr' = tr ++ new ∧ keystrokes new = word_keys w.
Proof.
  unfold play_word. unfold bind at 1.
  destruct (submit p w (st, tr)) as [[[]|e] [st1 tr1]] eqn:Hsub; [|done].
  apply submit_ok_keys in Hsub as (new1 & -> & Hnew1).
  unfold bind at 1.
  destruct (check_stop_total p st1 (tr ++ new1)) as (f' & st2 & new2 & -> & Hnew2).
  destruct f'; unfold bind, ret; run_page; intros [= <- <- <-].
  - exists (new1 ++ new2 ++ [Sleep 6000 7000]). split; [norm_app|].
    rewrite !keystrokes_app, Hnew1, Hnew2. simpl. by rewrite app_nil_r.
  - exists (new1 ++ new2). split; [norm_app|].
    rewrite !keystrokes_app, Hnew1, Hnew2. by rewrite app_nil_r.
Qed.

(** A round raises only when the submission does. *)
Lemma play_word_raise w s e s1 :
  play_word p w s = (Raise e, s1) → submit p w s = (Raise e, s1).
Proof.
  unfold play_word. unfold bind at 1.
  destruct (submit p w s) as [[[]|e1] [st1 tr1]] eqn:Hsub;
    [|by intros [= <- <-]].
  unfold bind at 1.
  destruct (check_stop_total p st1 tr1) as (f' & st2 & new2 & -> & Hnew2).
  by destruct f'.
Qed.

(** The loop ended normally: every word was typed and entered. *)
Lemma play_words_continue_keys words st tr st' tr' :
  play_words p words (st, tr) = (Ok Continue, (st', tr')) →
  ∃ new, tr' = tr ++ new ∧ keystrokes new = keys_of words.
Proof.
  revert st tr. induction words as [|w words IH]; intros st tr; simpl.
  { intros [= <- <-]. exists []. by rewrite app_nil_r. }
  unfold bind.
  destruct (play_word p w (st, tr)) as [[[|]|e] [st1 tr1]] eqn:Hw; try done.
  apply play_word_keys in Hw as (new1 & -> & Hnew1).
  intros (new2 & -> & Hnew2)%IH. exists (new1 ++ new2).
  split; [norm_app|]. by rewrite keystrokes_app, Hnew1, Hnew2.
Qed.

(** The loop ended by [break]: it happened in the round of some word [w],
    and the keys sent are those of the words up to [w]. *)
Lemma play_words_break_keys words st tr st' tr' :
  play_words p words (st, tr) = (Ok Break, (st', tr')) →
  ∃ pre w rest s0 new,
    words = pre ++ w :: rest
    ∧ play_words p pre (st, tr) = (Ok Continue, s0)
    ∧ play_word p w s0 = (Ok Break, (st', tr'))
    ∧ tr' = tr ++ new ∧ keystrokes new = keys_of (pre ++ [w]).
Proof.
  revert st tr. induction words as [|w words IH]; intros st tr; simpl; [done|].
  unfold bind.
  destruct (play_word p w (st, tr)) as [[[|]|e] [st1 tr1]] eqn:Hw; try done.
  - pose proof Hw as (new1 & -> & Hnew1)%play_word_keys.
    intros (pre & w' & rest & s0 & new2 & -> & Hpre & Hw' & -> & Hnew2)%IH.
    exists (w :: pre), w', rest, s0, (new1 ++ new2).
    split; [done|]. split; [|split; [done|split; [norm_app|]]].
    + simpl. unfold bind. by rewrite Hw.
    + rewrite keystrokes_app, Hnew1, Hnew2. done.
  - intros [= <- <-].
    pose proof Hw as (new1 & -> & Hnew1)%play_word_keys.
    exists [], w, words, (st, tr), new1.
    split; [done|]. split; [done|]. split; [done|]. split; [done|].
    simpl. by rewrite app_nil_r.
Qed.

Lemma type_chars_works cs st tr :
  typing_works p → ∃ s1, for_each cs (type_char p) (st, tr) = (Ok tt, s1).
Proof.
  intros [Hty _]. revert st tr. induction cs as [|c cs IH]; intros st tr; simpl.
  { by eexists. }
  unfold bind at 1. unfold type_char at 1. unfold bind at 1.
  rewrite call_run. destruct (Hty c st) as (st1 & ->). simpl.
  apply IH.
Qed.

Lemma submit_works w st tr :
  typing_works p → ∃ s1, submit p w (st, tr) = (Ok tt, s1).
Proof.
  intros Hw. unfold submit. unfold bind at 1. rewrite log_run.
  unfold bind at 1.
  destruct (type_chars_works (list_ascii_of_string w) st
              (tr ++ [Print ("Typing word: " ++ w)%string]) Hw)
    as ([st1 tr1] & ->).
  unfold bind at 1. rewrite log_run. unfold bind. rewrite call_run.
  destruct Hw as [_ Henter]. destruct (Henter st1) as (st2 & ->). simpl.
  rewrite ?log_run. by eexists.
Qed.

Lemma close_all_works s : closing_works p → ∃ s', close_all p s = (Ok tt, s').
Proof.
  intros (Hp & Hc & Hb). destruct s as [st tr]. unfold close_all, bind.
  rewrite call_run. destruct (Hp st) as (st1 & ->). simpl.
  rewrite call_run. destruct (Hc st1) as (st2 & ->). simpl.
  rewrite call_run. destruct (Hb st2) as (st3 & ->). simpl. by eexists.
Qed.

(** Whatever happens before, the value of the call is that of the closing
    calls: the handler of line 165 catches every exception of the body. *)
Lemma run_browser_automation_closes words s :
  ∃ s1, run_browser_automation p words s = close_all p s1.
Proof.
  unfold run_browser_automation, try_finally, try_except.
  destruct (bind _ _ s) as [[[]|e] [st1 tr1]].
  - exists (st1, tr1). by destruct (close_all p (st1, tr1)) as [[[]|e] s2].
  - rewrite log_run.
    exists (st1, tr1 ++ [Print ("Browser automation error: " ++ exn_text e)%string]).
    by destruct (close_all p _) as [[[]|e'] s2].
Qed.
End rounds.

(** * The play loop: what stops it and what it reports *)

(** C5, as the code behaves.  Once the [k]-th word is submitted, a rank
    label that strips to "Genius" ends the loop after a pause of three
    seconds; when the rank read ends without an exception and without
    "Genius", a visible "Queen Bee" ends the loop at once, with no pause.
    In both cases nothing is typed for the words that remain. *)
Theorem stop_ends_loop {St} (p : page St) pre w rest s s0 st1 tr1 :
  play_words p pre s = (Ok Continue, s0) →
  submit p w s0 = (Ok tt, (st1, tr1)) →
  (∀ st', genius_seen p st1 st' →
     play_words p (pre ++ w :: rest) s
     = (Ok Break,
        (st', tr1 ++ [QueryRank; InnerText;
                      Print "Target rank 'Genius' reached. Stopping automation.";
                      Sleep 3000 3000])))
  ∧ (∀ st' probes, queen_bee_seen p st1 st' probes →
       play_words p (pre ++ w :: rest) s
       = (Ok Break,
          (st', tr1 ++ probes ++ [Print "Queen Bee reached. Stopping."]))
       ∧ keystrokes probes = []).
Proof.
  intros Hpre Hsub.
  assert (Hround : ∀ s2, check_stop p (st1, tr1) = (Ok Break, s2) →
                         play_words p (pre ++ w :: rest) s = (Ok Break, s2)).
  { intros s2 Hstop. rewrite (play_words_app p _ _ _ _ Hpre). simpl.
    unfold bind at 1. unfold play_word. unfold bind at 1. rewrite Hsub.
    unfold bind at 1. by rewrite Hstop. }
  split.
  - intros st' Hg. apply Hround. by apply check_stop_genius.
  - intros st' probes Hq. split.
    + apply Hround. by apply check_stop_queen_bee.
    + destruct Hq as (st2 & pr & [[_ ->] | (? & ? & _ & _ & _ & ->)] & _ & ->);
        done.
Qed.

(** C6, as the code behaves.  The function returns [None] whatever the loop
    did, and builds no record of the play.  How the loop ended shows only in
    the keys sent: after a [break] in the round of the [k]-th word, the keys
    of the first [k] words; after a normal end, the keys of all words. *)
Theorem outcome_in_trace_only {St} (p : page St) words st tr :
  (closing_works p →
     ∃ s', run_browser_automation p words (st, tr) = (Ok tt, s'))
  ∧ (∀ st' tr', play_words p words (st, tr) = (Ok Break, (st', tr')) →
       ∃ pre w rest s0 new,
         words = pre ++ w :: rest
         ∧ play_words p pre (st, tr) = (Ok Continue, s0)
         ∧ play_word p w s0 = (Ok Break, (st', tr'))
         ∧ tr' = tr ++ new ∧ keystrokes new = keys_of (pre ++ [w]))
  ∧ (∀ st' tr', play_words p words (st, tr) = (Ok Continue, (st', tr')) →
       ∃ new, tr' = tr ++ new ∧ keystrokes new = keys_of words).
Proof.
  split; [|split].
  - intros Hclose.
    destruct (run_browser_automation_closes p words (st, tr)) as (s1 & ->).
    by apply close_all_works.
  - intros st' tr'. apply play_words_break_keys.
  - intros st' tr'. apply play_words_continue_keys.
Qed.

(** C7.  When the keyboard works and a probe raises in every round, the loop
    ends normally, without an exception, having typed and entered every
    word. *)
Theorem failing_probes_submit_all {St} (p : page St) words st tr :
  typing_works p → (∀ st, probe_fails p st) →
  ∃ st' new,
    play_words p words (st, tr) = (Ok Continue, (st', tr ++ new))
    ∧ keystrokes new = keys_of words.
Proof.
  intros Hty Hfail. revert st tr.
  induction words as [|w words IH]; intros st tr; simpl.
  { exists st, []. by rewrite app_nil_r. }
  unfold bind at 1. unfold play_word. unfold bind at 1.
  destruct (submit_works p w st tr Hty) as ([st1 tr1] & Hsub). rewrite Hsub.
  apply submit_ok_keys in Hsub as (new1 & -> & Hnew1).
  unfold bind at 1.
  destruct (check_stop_failing p st1 (tr ++ new1) (Hfail st1))
    as (st2 & new2 & -> & Hnew2).
  unfold bind at 1. rewrite log_run. unfold ret.
  destruct (IH st2 (((tr ++ new1) ++ new2) ++ [Sleep 6000 7000]))
    as (st3 & new3 & -> & Hnew3).
  exists st3, (new1 ++ new2 ++ [Sleep 6000 7000] ++ new3).
  split; [norm_app|].
  rewrite !keystrokes_app, Hnew1, Hnew2, Hnew3. done.
Qed.

(** C8, as the code behaves.  When typing or Enter raises in the round of a
    word, nothing is sent after the call that raised, so nothing is retried
    and no later word is typed; the handler of line 165 prints the
    exception, the page, the context and the browser are closed, and the
    call returns as the closing calls do: the exception does not reach the
    caller. *)
Theorem typing_failure_is_caught {St} (p : page St)
    pre w rest s_init s s0 e st1 tr1 :
  open_game p s_init = (Ok tt, s) →
  play_words p pre s = (Ok Continue, s0) →
  submit p w s0 = (Raise e, (st1, tr1)) →
  run_browser_automation p (pre ++ w :: rest) s_init
  = close_all p
      (st1, tr1 ++ [Print ("Browser automation error: " ++ exn_text e)%string])
  ∧ (∃ new key, tr1 = s0.2 ++ new ++ [key] ∧ is_key key = true
                ∧ keystrokes (new ++ [key]) `prefix_of` word_keys w)
  ∧ (closing_works p →
       ∃ s', run_browser_automation p (pre ++ w :: rest) s_init = (Ok tt, s')).
Proof.
  intros Hopen Hpre Hsub.
  assert (Hrun : run_browser_automation p (pre ++ w :: rest) s_init
                 = close_all p
                     (st1, tr1 ++ [Print ("Browser automation error: "
                                          ++ exn_text e)%string])).
  { unfold run_browser_automation, try_finally, try_except.
    unfold bind at 1. rewrite Hopen. unfold bind at 1.
    rewrite (play_words_app p _ _ _ _ Hpre). simpl.
    unfold bind at 1. unfold play_word. unfold bind at 1. rewrite Hsub.
    rewrite log_run. by destruct (close_all p _) as [[[]|e'] s2]. }
  split; [done|]. split.
  - destruct s0 as [st0 tr0]. by apply submit_raise_keys in Hsub.
  - intros Hclose. rewrite Hrun. by apply close_all_works.
Qed.

(** * Examples *)

Lemma puzzle_data_h0 : puzzle_data h0 (VRef 0) items0.
Proof. exists 0, {["words" := VRef 1]}, 1. by repeat split. Qed.

Lemma word_entries_h0 : Forall2 (word_entry h0) items0 words0.
Proof. repeat constructor; eexists _, _; by repeat split. Qed.

Example h0_prioritized :
  ∃ r, fst (get_prioritized_words (VRef 0) h0) = Ok r
       ∧ list_at (snd (get_prioritized_words (VRef 0) h0)) r
         = Some [VStr "gallery"; VStr "abcdefg"; VStr "allege";
                 VStr "label"; VStr "aegis"].
Proof. eexists. split; by vm_compute. Qed.

Lemma first_word_not_pangram_witness :
  ∃ new r out,
    get_prioritized_words (VRef 0) h0 = (Ok r, h0 ++ new)
    ∧ list_at (h0 ++ new) r = Some (word <$> out)
    ∧ out ≡ₚ es0
    ∧ ((∃ e, e ∈ es0 ∧ is_pangram e = false) →
       ∃ first rest, out = first :: rest ∧ is_pangram first = false
         ∧ ∃ k, len_set h0 (word first) = Ok k ∧ k ≠ 7%Z)
    ∧ (Forall (λ e, is_pangram e = true) es0 → out = sorted_by_score es0).
Proof.
  apply (first_word_not_pangram h0 (VRef 0) es0); vm_compute; reflexivity.
Defined.

Lemma prioritized_order_witness :
  ∃ new r sorted out,
    get_prioritized_words (VRef 0) h0 = (Ok r, h0 ++ new)
    ∧ list_at (h0 ++ new) r = Some (word <$> out)
    ∧ Forall (λ e, fst (score_valid_word (word e) h0) = Ok (score e)) es0
    ∧ sorted ≡ₚ es0
    ∧ StronglySorted score_desc sorted
    ∧ (∀ c, filter (λ e, score e = c) sorted = filter (λ e, score e = c) es0)
    ∧ ((∃ pangrams non_pangram rest,
          sorted = pangrams ++ non_pangram :: rest
          ∧ Forall (λ e, is_pangram e = true) pangrams
          ∧ is_pangram non_pangram = false
          ∧ out = non_pangram :: pangrams ++ rest)
       ∨ (Forall (λ e, is_pangram e = true) sorted ∧ out = sorted)).
Proof.
  apply (prioritized_order h0 (VRef 0) es0); vm_compute; reflexivity.
Defined.

Lemma get_prioritized_words_pure_witness :
  ∃ new1 new2 o1 o2,
    get_prioritized_words (VRef 0) h0 = (o1, h0 ++ new1)
    ∧ get_prioritized_words (VRef 0) (h0 ++ new1) = (o2, (h0 ++ new1) ++ new2)
    ∧ same_result (h0 ++ new1) o1 ((h0 ++ new1) ++ new2) o2
    ∧ agree h0 ((h0 ++ new1) ++ new2).
Proof.
  apply (get_prioritized_words_pure h0 (VRef 0)); vm_compute; reflexivity.
Defined.

Lemma get_prioritized_words_errors_witness :
  (∃ r new, get_prioritized_words VNone [] = (Ok r, [] ++ new)
            ∧ list_at ([] ++ new) r = Some [])
  ∧ (∃ r new out, get_prioritized_words (VRef 0) h0 = (Ok r, h0 ++ new)
                  ∧ list_at (h0 ++ new) r = Some out
                  ∧ out ≡ₚ VStr <$> words0
                  ∧ length out = length items0)
  ∧ (∃ new, get_prioritized_words (VRef 0) h_missing
            = (Raise KeyError, h_missing ++ new)).
Proof.
  split; [|split].
  - apply (get_prioritized_words_errors [] VNone eq_refl eq_refl). reflexivity.
  - apply (get_prioritized_words_errors h0 (VRef 0) eq_refl eq_refl).
    + apply puzzle_data_h0.
    + apply word_entries_h0.
  - apply (proj2 (proj2 (get_prioritized_words_errors h_missing (VRef 0)
                           eq_refl eq_refl))
             [VRef 2] ["label"] (VRef 3) []).
    + exists 0, {["words" := VRef 1]}, 1. by repeat split.
    + repeat constructor. eexists _, _. by repeat split.
    + reflexivity.
Defined.

Lemma flag_demotes_without_bonus_witness :
  ∃ es,
    read_input h0 (VRef 0) = Ok es
    ∧ Forall2 (entry_reflects h0) items0 es
    ∧ ((∃ e, e ∈ es ∧ is_pangram e = false) →
       ∃ r new rest item w,
         get_prioritized_words (VRef 0) h0 = (Ok r, h0 ++ new)
         ∧ list_at (h0 ++ new) r = Some (VStr w :: rest)
         ∧ item ∈ items0 ∧ word_entry h0 item w
         ∧ flagged h0 item = false ∧ distinct_letters w ≠ 7).
Proof.
  apply (flag_demotes_without_bonus h0 (VRef 0) items0 words0 eq_refl eq_refl).
  - apply puzzle_data_h0.
  - apply word_entries_h0.
Defined.

(** ** Where the specification and the code part *)

(** An item without ["word"] makes the call raise. *)
Lemma missing_word_raises :
  ¬ (∀ h data, closed h = true → val_ok (length h) data = true →
               ∃ r h', get_prioritized_words data h = (Ok r, h')).
Proof.
  intros Hall.
  destruct (Hall h_missing (VRef 0) eq_refl eq_refl) as (r & h' & Hrun).
  vm_compute in Hrun. discriminate.
Qed.

(** A flagged word with fewer than seven distinct letters is first when the
    puzzle has no non-pangram. *)
Lemma flagged_word_can_be_first :
  ¬ (∀ h data items item w r h' out,
       closed h = true → puzzle_data h data items → item ∈ items →
       word_entry h item w → flagged h item = true → distinct_letters w < 7 →
       get_prioritized_words data h = (Ok r, h') → list_at h' r = Some out →
       out !! 0 ≠ Some (VStr w)).
Proof.
  intros Hall.
  refine (Hall h_flagged (VRef 0) [VRef 2] (VRef 2) "abcde" (VRef 5)
            (snd (get_prioritized_words (VRef 0) h_flagged)) [VStr "abcde"]
            eq_refl _ _ _ eq_refl _ _ _ eq_refl).
  - exists 0, {["words" := VRef 1]}, 1. by repeat split.
  - left.
  - eexists _, _. by repeat split.
  - apply Nat.ltb_lt. by vm_compute.
  - by vm_compute.
  - by vm_compute.
Qed.

Lemma counting_page_closes rank visible typing :
  closing_works (counting_page rank visible typing).
Proof. repeat split; intros st; by exists st. Qed.

Lemma stop_ends_loop_witness :
  (fst (play_words genius_after_3 five_words (0, [])) = Ok Break
   ∧ keystrokes (snd (play_words genius_after_3 five_words (0, []))).2
     = keys_of ["ab"; "cd"; "ef"])
  ∧ (fst (play_words queen_bee_after_1 five_words (0, [])) = Ok Break
     ∧ keystrokes (snd (play_words queen_bee_after_1 five_words (0, []))).2
       = keys_of ["ab"]).
Proof.
  split.
  - edestruct (stop_ends_loop genius_after_3 ["ab"; "cd"] "ef" ["gh"; "ij"] (0, []))
      as [Hgenius _]; [vm_compute; reflexivity | vm_compute; reflexivity |].
    unfold five_words.
    change ["ab"; "cd"; "ef"; "gh"; "ij"] with (["ab"; "cd"] ++ "ef" :: ["gh"; "ij"]).
    rewrite (Hgenius 3).
    + split; vm_compute; reflexivity.
    + exists 3, " Genius ". repeat split; vm_compute; reflexivity.
  - edestruct (stop_ends_loop queen_bee_after_1 [] "ab" ["cd"; "ef"; "gh"; "ij"] (0, []))
      as [_ Hqueen]; [vm_compute; reflexivity | vm_compute; reflexivity |].
    unfold five_words.
    change ["ab"; "cd"; "ef"; "gh"; "ij"] with ([] ++ "ab" :: ["cd"; "ef"; "gh"; "ij"]).
    destruct (Hqueen 1 [QueryRank; IsVisible]) as [-> _].
    + exists 1, [QueryRank]. split; [left; split; reflexivity|].
      split; reflexivity.
    + split; vm_compute; reflexivity.
Defined.

Lemma outcome_in_trace_only_witness :
  ∃ s', run_browser_automation genius_after_3 five_words (0, []) = (Ok tt, s').
Proof.
  apply (outcome_in_trace_only genius_after_3 five_words 0 []).
  apply counting_page_closes.
Defined.

Lemma failing_probes_submit_all_witness :
  ∃ st' new,
    play_words failing_probes_page five_words (0, [])
    = (Ok Continue, (st', [] ++ new))
    ∧ keystrokes new = keys_of five_words.
Proof.
  apply (failing_probes_submit_all failing_probes_page five_words 0 []).
  - split; intros; eexists; reflexivity.
  - intros st. left. eexists _, _. reflexivity.
Defined.

Lemma typing_failure_is_caught_witness :
  ∃ s', run_browser_automation broken_keyboard_page (["ab"] ++ "cd" :: ["ef"]) (0, [])
        = (Ok tt, s').
Proof.
  edestruct (typing_failure_is_caught broken_keyboard_page ["ab"] "cd" ["ef"] (0, []))
    as (_ & _ & Hreturns);
    [vm_compute; reflexivity | vm_compute; reflexivity | vm_compute; reflexivity |].
  apply Hreturns, counting_page_closes.
Defined.

(** With the rank label unreadable, a visible "Queen Bee" does not stop the
    loop: the second word is typed.  And where "Queen Bee" does stop the
    loop, no pause follows the check. *)
Lemma queen_bee_missed_when_rank_unreadable :
  ¬ (∀ (p : page nat) w rest s st1 tr1 st',
       submit p w s = (Ok tt, (st1, tr1)) →
       queen_bee_visible p st1 = (Ok true, st') →
       ∃ s2, play_words p (w :: rest) s = (Ok Break, s2))
  ∧ (play_words queen_bee_after_1 ["ab"; "cd"] (0, [])
     = (Ok Break,
        (1, [Print "Typing word: ab"; TypeChar "a"; Sleep 200 500;
             TypeChar "b"; Sleep 200 500; Sleep 300 600; PressEnter;
             Sleep 1500 1500; QueryRank; IsVisible;
             Print "Queen Bee reached. Stopping."]))).
Proof.
  split; [|by vm_compute].
  intros Hall.
  edestruct (Hall unreadable_rank_page "ab" ["cd"] (0, [])) as (s2 & Hs2);
    [vm_compute; reflexivity | reflexivity |].
  vm_compute in Hs2. discriminate.
Qed.

(** A run that stops early and a run that goes through all words return the
    same value, so no record of the play can be read from it. *)
Lemma same_return_for_both_ends :
  fst (play_words genius_after_3 five_words (0, [])) = Ok Break
  ∧ fst (play_words quiet_page five_words (0, [])) = Ok Continue
  ∧ ¬ ∃ stopped_early : outcome unit → bool,
        stopped_early (fst (run_browser_automation genius_after_3 five_words (0, [])))
        = true
        ∧ stopped_early (fst (run_browser_automation quiet_page five_words (0, [])))
          = false.
Proof.
  split; [by vm_compute|]. split; [by vm_compute|].
  intros (stopped_early & Hgenius & Hquiet).
  vm_compute in Hgenius, Hquiet. congruence.
Qed.

(** Typing raises in the second word, and the call still returns normally. *)
Lemma typing_failure_not_propagated :
  keyboard_type broken_keyboard_page "c" 1
  = (Raise (SurfaceError "typing failed"), 1)
  ∧ ¬ ∃ e, fst (run_browser_automation broken_keyboard_page
                  ["ab"; "cd"; "ef"] (0, [])) = Raise e.
Proof.
  split; [reflexivity|]. intros (e & He). vm_compute in He. discriminate.
Qed.

(** * Further properties of the prioritised list *)

Lemma decorate_cons e es : decorate (e :: es) = (score e, e) :: decorate es.
Proof. done. Qed.

Lemma insert_desc_entry e (l : list (Z * scored)) :
  Forall (λ p, p.1 = score p.2) l →
  (insert_desc (score e) e l).*2 = insert_entry e l.*2.
Proof.
  induction l as [|[k y] l IH]; csimpl; intros Hk; [done|].
  apply Forall_cons in Hk as [Hy Hk]. simpl in Hy. subst k.
  destruct (score y <=? score e)%Z; csimpl; [done|]. by rewrite IH.
Qed.

Lemma sorted_by_score_cons e es :
  sorted_by_score (e :: es) = insert_entry e (sorted_by_score es).
Proof.
  unfold sorted_by_score. fold (decorate (e :: es)). fold (decorate es).
  rewrite decorate_cons. simpl. apply insert_desc_entry, sorted_keys.
Qed.

Lemma insert_entry_sorted e l :
  StronglySorted score_desc (e :: l) → insert_entry e l = e :: l.
Proof.
  intros [Hall _]%StronglySorted_cons. destruct l as [|y l]; simpl; [done|].
  apply Forall_cons in Hall as [Hy _]. unfold score_desc in Hy.
  by rewrite (proj2 (Z.leb_le _ _) Hy).
Qed.

(** A list in decreasing score order is left as it is by the sort. *)
Lemma sorted_by_score_id l :
  StronglySorted score_desc l → sorted_by_score l = l.
Proof.
  induction l as [|e l IH]; intros Hs; [done|].
  rewrite sorted_by_score_cons, IH; [by apply insert_entry_sorted|].
  by apply StronglySorted_cons in Hs as [_ ?].
Qed.

Lemma first_non_pangram_prefix ps np l i :
  Forall (λ e, is_pangram e = true) ps → is_pangram np = false →
  first_non_pangram (ps ++ np :: l) i = Some (i + length ps).
Proof.
  intros Hps Hnp. revert i.
  induction Hps as [|e ps He Hps IH]; intros i; simpl.
  - rewrite Hnp. f_equal. lia.
  - rewrite He, IH. f_equal. lia.
Qed.

Lemma demote_prefix ps np l :
  Forall (λ e, is_pangram e = true) ps → is_pangram np = false →
  demote (ps ++ np :: l) = np :: ps ++ l.
Proof.
  intros Hps Hnp. destruct ps as [|e ps]; simpl.
  { by rewrite Hnp. }
  apply Forall_cons in Hps as [He Hps]. rewrite He.
  change (e :: ps ++ np :: l) with ((e :: ps) ++ np :: l).
  rewrite first_non_pangram_prefix by (done || by constructor).
  apply (move_to_front_middle (e :: ps)).
Qed.

Lemma first_non_pangram_none l i :
  Forall (λ e, is_pangram e = true) l → first_non_pangram l i = None.
Proof.
  intros Hl. revert i. induction Hl as [|e l He Hl IH]; intros i; simpl; [done|].
  by rewrite He.
Qed.

Lemma demote_all_pangrams l :
  Forall (λ e, is_pangram e = true) l → demote l = l.
Proof.
  intros Hl. destruct l as [|e l]; [done|]. unfold demote.
  rewrite (first_non_pangram_none _ _ Hl). by destruct (is_pangram e).
Qed.

Lemma sorted_without_middle (ps : list scored) np rest :
  StronglySorted score_desc (ps ++ np :: rest) →
  StronglySorted score_desc (ps ++ rest).
Proof.
  rewrite !StronglySorted_app. intros (Hcross & Hps & Hrest).
  apply StronglySorted_cons in Hrest as [_ Hrest].
  split; [|done]. intros x1 x2 H1 H2. apply Hcross; [done|by right].
Qed.

(** Putting the promoted entry back: it lands behind the pangrams that
    score more than it does. *)
Lemma insert_promoted ps np rest :
  StronglySorted score_desc (ps ++ np :: rest) →
  ∃ ps1 ps2, ps = ps1 ++ ps2
             ∧ insert_entry np (ps ++ rest) = ps1 ++ np :: ps2 ++ rest.
Proof.
  induction ps as [|y ps IH]; intros Hs.
  - exists [], []. split; [done|]. by apply insert_entry_sorted.
  - simpl. destruct (score y <=? score np)%Z.
    + by exists [], (y :: ps).
    + simpl in Hs. apply StronglySorted_cons in Hs as [_ Hs].
      destruct (IH Hs) as (ps1 & ps2 & -> & ->).
      by exists (y :: ps1), ps2.
Qed.

(** Prioritising what is already prioritised changes nothing. *)
Lemma prioritized_idempotent es : prioritized (prioritized es) = prioritized es.
Proof.
  pose proof (sorted_by_score_sorted es) as Hsorted.
  unfold prioritized at 2 3.
  destruct (demote_spec (sorted_by_score es))
    as [(ps & np & rest & Hsplit & Hps & Hnp & Hdem) | [Hall Hdem]];
    rewrite Hdem; unfold prioritized.
  - rewrite Hsplit in Hsorted.
    rewrite sorted_by_score_cons.
    rewrite (sorted_by_score_id (ps ++ rest))
      by by eapply sorted_without_middle.
    destruct (insert_promoted _ _ _ Hsorted) as (ps1 & ps2 & -> & ->).
    apply Forall_app in Hps as [Hps1 Hps2].
    rewrite (demote_prefix ps1 np (ps2 ++ rest) Hps1 Hnp).
    by rewrite app_assoc.
  - rewrite (sorted_by_score_id _ Hsorted).
    by apply demote_all_pangrams.
Qed.

(** X1.  When the entries come in the order a call returned them, the call
    returns them in that same order. *)
Theorem prioritized_again h data es0 :
  closed h = true → val_ok (length h) data = true →
  read_input h data = Ok (prioritized es0) →
  ∃ new r,
    get_prioritized_words data h = (Ok r, h ++ new)
    ∧ list_at (h ++ new) r = Some (word <$> prioritized es0).
Proof.
  intros Hc Hd Hes.
  destruct (get_prioritized_words_run h h data Hc Hd (agree_refl h))
    as (new & o & Hrun & Hout).
  rewrite Hes in Hout. destruct Hout as (r & -> & Hlist).
  exists new, r. split; [done|]. by rewrite prioritized_idempotent in Hlist.
Qed.

Lemma prioritized_again_witness :
  ∃ new r,
    get_prioritized_words (VRef 0) h0_prioritized_again
    = (Ok r, h0_prioritized_again ++ new)
    ∧ list_at (h0_prioritized_again ++ new) r = Some (word <$> prioritized es0).
Proof.
  apply (prioritized_again h0_prioritized_again (VRef 0) es0);
    vm_compute; reflexivity.
Defined.

Lemma filter_none {A} (P : A → Prop) `{∀ x, Decision (P x)} (l : list A) :
  Forall (λ x, ¬ P x) l → filter P l = [].
Proof.
  induction 1 as [|x l Hx _ IH]; [done|]. by rewrite filter_cons_False.
Qed.

(** The promoted entry scores at least as much as every other entry that is
    not a pangram, and no earlier entry of the input ties with it. *)
Lemma prioritized_head_best es first rest :
  prioritized es = first :: rest → is_pangram first = false →
  (∀ e, e ∈ es → is_pangram e = false → (score e ≤ score first)%Z)
  ∧ head (filter (λ e, is_pangram e = false ∧ score e = score first) es)
    = Some first.
Proof.
  intros Hout Hfirst. unfold prioritized in Hout.
  pose proof (sorted_by_score_sorted es) as Hsorted.
  assert (∃ ps l, sorted_by_score es = ps ++ first :: l
                  ∧ Forall (λ e, is_pangram e = true) ps)
    as (ps & l & Hsplit & Hps).
  { destruct (demote_spec (sorted_by_score es))
      as [(ps & np & l & Hsplit & Hps & _ & Hdem) | [_ Hdem]];
      rewrite Hdem in Hout.
    - injection Hout as -> _. by exists ps, l.
    - exists [], rest. by split. }
  rewrite Hsplit in Hsorted.
  apply StronglySorted_app in Hsorted as (_ & _ & Hl).
  apply StronglySorted_cons in Hl as [Hle _].
  split.
  - intros e Hin He. rewrite <- (sorted_by_score_perm es), Hsplit in Hin.
    apply elem_of_app in Hin as [Hin | Hin].
    + rewrite Forall_forall in Hps. specialize (Hps e Hin). congruence.
    + apply elem_of_cons in Hin as [-> | Hin]; [lia|].
      rewrite Forall_forall in Hle. by apply Hle.
  - rewrite <- list_filter_filter, <- sorted_by_score_stable, Hsplit.
    rewrite !filter_app.
    assert (filter (λ e, is_pangram e = false)
              (filter (λ e, score e = score first) ps) = []) as ->.
    { apply filter_none, Forall_forall. intros e [_ Hin]%list_elem_of_filter.
      rewrite Forall_forall in Hps. specialize (Hps e Hin). congruence. }
    rewrite filter_cons_True by done. by rewrite filter_cons_True by done.
Qed.

(** What follows the first returned entry is in order of decreasing score. *)
Lemma prioritized_tail_sorted es first rest :
  prioritized es = first :: rest → StronglySorted score_desc rest.
Proof.
  intros Hout. unfold prioritized in Hout.
  pose proof (sorted_by_score_sorted es) as Hsorted.
  destruct (demote_spec (sorted_by_score es))
    as [(ps & np & l & Hsplit & _ & _ & Hdem) | [_ Hdem]];
    rewrite Hdem in Hout.
  - injection Hout as _ <-. rewrite Hsplit in Hsorted.
    by eapply sorted_without_middle.
  - rewrite Hout in Hsorted. by apply StronglySorted_cons in Hsorted as [_ ?].
Qed.

(** X2.  With a non-pangram among the entries, the first returned word is
    that of a non-pangram of the highest score any non-pangram has, and of
    the earliest such entry of the input. *)
Theorem first_word_is_best_non_pangram h data es :
  closed h = true → val_ok (length h) data = true →
  read_input h data = Ok es →
  (∃ e, e ∈ es ∧ is_pangram e = false) →
  ∃ new r first rest,
    get_prioritized_words data h = (Ok r, h ++ new)
    ∧ list_at (h ++ new) r = Some (word first :: (word <$> rest))
    ∧ is_pangram first = false
    ∧ (∀ e, e ∈ es → is_pangram e = false → (score e ≤ score first)%Z)
    ∧ head (filter (λ e, is_pangram e = false ∧ score e = score first) es)
      = Some first.
Proof.
  intros Hc Hd Hes Hnp.
  destruct (get_prioritized_words_run h h data Hc Hd (agree_refl h))
    as (new & o & Hrun & Hout).
  rewrite Hes in Hout. destruct Hout as (r & -> & Hlist).
  destruct (prioritized_head es Hnp) as (first & rest & Heq & Hfirst).
  exists new, r, first, rest. split; [done|].
  split; [by rewrite Hlist, Heq|]. split; [done|].
  by apply (prioritized_head_best es first rest).
Qed.

Lemma first_word_is_best_non_pangram_witness :
  ∃ new r first rest,
    get_prioritized_words (VRef 0) h0 = (Ok r, h0 ++ new)
    ∧ list_at (h0 ++ new) r = Some (word first :: (word <$> rest))
    ∧ is_pangram first = false
    ∧ (∀ e, e ∈ es0 → is_pangram e = false → (score e ≤ score first)%Z)
    ∧ head (filter (λ e, is_pangram e = false ∧ score e = score first) es0)
      = Some first.
Proof.
  apply (first_word_is_best_non_pangram h0 (VRef 0) es0);
    [vm_compute; reflexivity ..|].
  exists (Scored (VStr "label") 5 false). split; [left|done].
Defined.

(** X3.  After the first word, the returned words are in order of
    decreasing score: moving one entry to the front leaves the order of the
    others as the sort made it. *)
Theorem rest_in_score_order h data es :
  closed h = true → val_ok (length h) data = true →
  read_input h data = Ok es → es ≠ [] →
  ∃ new r first rest,
    get_prioritized_words data h = (Ok r, h ++ new)
    ∧ list_at (h ++ new) r = Some (word first :: (word <$> rest))
    ∧ first :: rest ≡ₚ es
    ∧ StronglySorted score_desc rest.
Proof.
  intros Hc Hd Hes Hne.
  destruct (get_prioritized_words_run h h data Hc Hd (agree_refl h))
    as (new & o & Hrun & Hout).
  rewrite Hes in Hout. destruct Hout as (r & -> & Hlist).
  destruct (prioritized es) as [|first rest] eqn:Heq.
  { pose proof (prioritized_perm es) as Hperm. rewrite Heq in Hperm.
    by apply Permutation_nil_l in Hperm. }
  exists new, r, first, rest. split; [done|]. split; [done|].
  split; [rewrite <- Heq; apply prioritized_perm|].
  by apply (prioritized_tail_sorted es first).
Qed.

Lemma rest_in_score_order_witness :
  ∃ new r first rest,
    get_prioritized_words (VRef 0) h0 = (Ok r, h0 ++ new)
    ∧ list_at (h0 ++ new) r = Some (word first :: (word <$> rest))
    ∧ first :: rest ≡ₚ es0
    ∧ StronglySorted score_desc rest.
Proof.
  apply (rest_in_score_order h0 (VRef 0) es0); vm_compute; try reflexivity.
  discriminate.
Defined.

(** * Values of the wrong type *)

(** Line 62 only reads. *)
Lemma no_words_reads data h : snd (no_words data h) = h.
Proof.
  unfold no_words, bind, reading, ret.
  destruct (truthy h data) as [[|]|x]; simpl; try done.
  by destruct (contains "words" h data).
Qed.

Lemma get_prioritized_words_absent data h :
  fst (no_words data h) = Ok true →
  get_prioritized_words data h = (Ok (VRef (length h)), h ++ [OList []]).
Proof.
  intros Hno. pose proof (no_words_reads data h) as Hh.
  unfold get_prioritized_words. unfold bind at 1.
  destruct (no_words data h) as [o h']. simpl in *. by subst.
Qed.

Lemma get_prioritized_words_guard_raises data h x :
  fst (no_words data h) = Raise x →
  get_prioritized_words data h = (Raise x, h).
Proof.
  intros Hno. pose proof (no_words_reads data h) as Hh.
  unfold get_prioritized_words. unfold bind at 1.
  destruct (no_words data h) as [o h']. simpl in *. by subst.
Qed.

Lemma get_prioritized_words_items_raise data h x :
  fst (no_words data h) = Ok false →
  fst (word_items data (h ++ [OList []])) = Raise x →
  fst (get_prioritized_words data h) = Raise x.
Proof.
  intros Hno Hitems. pose proof (no_words_reads data h) as Hh.
  unfold get_prioritized_words. unfold bind at 1.
  destruct (no_words data h) as [o h']. simpl in *. subst.
  unfold bind at 1. unfold alloc at 1. unfold bind at 1.
  destruct (word_items data (h ++ [OList []])) as [o h']. simpl in *. by subst.
Qed.

(** X4.  Data that is not a dict never yields a word: the call returns a
    new empty list (the data is falsy, or a string or list that does not
    contain "words"), or it raises [TypeError]. *)
Theorem non_dict_data_gives_no_words h data :
  val_ok (length h) data = true → is_dict h data = false →
  fst (get_prioritized_words data h) = Raise TypeError
  ∨ get_prioritized_words data h = (Ok (VRef (length h)), h ++ [OList []]).
Proof.
  intros Hd Hnd.
  assert (Hcases : fst (no_words data h) = Ok true
                   ∨ fst (no_words data h) = Raise TypeError
                   ∨ (fst (no_words data h) = Ok false
                      ∧ fst (word_items data (h ++ [OList []])) = Raise TypeError)).
  { unfold no_words, word_items, bind, reading, ret, truthy, contains, getitem.
    destruct data as [|[|]|z|f|s|l]; simpl; auto.
    - destruct (negb (z =? 0)%Z); simpl; auto.
    - destruct (negb (truthy_float f)); simpl; auto.
    - destruct (negb (negb (String.eqb s ""))); simpl; auto.
      destruct (is_substring "words" s); simpl; auto.
    - simpl in Hd, Hnd. apply Nat.ltb_lt, lookup_lt_is_Some_2 in Hd as [o Ho].
      unfold loc in *. rewrite Ho in Hnd |- *. destruct o as [items|fields]; [|done].
      rewrite (lookup_app_l_Some _ _ _ _ Ho).
      destruct (negb (negb (length items =? 0)%nat)); simpl; auto. rewrite Ho.
      destruct (existsb (py_eqb true (VStr "words")) items); simpl; auto. }
  destruct Hcases as [Hno | [Hno | [Hno Hitems]]].
  - right. by apply get_prioritized_words_absent.
  - left. by rewrite (get_prioritized_words_guard_raises _ _ _ Hno).
  - left. by apply get_prioritized_words_items_raise.
Qed.

Lemma non_dict_data_gives_no_words_witness :
  fst (get_prioritized_words (VStr "passwords") []) = Raise TypeError
  ∨ get_prioritized_words (VStr "passwords") []
    = (Ok (VRef (length (@nil obj))), [] ++ [OList []]).
Proof.
  apply (non_dict_data_gives_no_words [] (VStr "passwords")); reflexivity.
Defined.

Lemma no_words_words_field h data ws :
  words_field h data ws → fst (no_words data h) = Ok false.
Proof.
  intros (l & fields & -> & Hl & Hw).
  unfold no_words, bind, reading, ret, truthy, contains. rewrite Hl.
  assert (Hsize : size fields ≠ 0).
  { apply map_size_ne_0_lookup. by exists "words", ws. }
  destruct (size fields); [done|]. simpl. rewrite Hl. simpl.
  rewrite bool_decide_eq_true_2; [done|by eexists].
Qed.

Lemma word_items_words_field h data ws :
  words_field h data ws → fst (word_items data h) = iter h ws.
Proof.
  intros (l & fields & -> & Hl & Hw).
  unfold word_items, bind, reading, getitem. by rewrite Hl, Hw.
Qed.

(** Items that are strings: the first one raises, [str] has no string
    index. *)
Lemma scan_strings h items :
  Forall (λ v, ∃ s, v = VStr s) items →
  scan h items = ([], match items with [] => None | _ => Some TypeError end).
Proof. intros Hs. by destruct Hs as [|? ? [s ->] _]. Qed.

Lemma chars_strings s : Forall (λ v, ∃ s, v = VStr s) (chars s).
Proof. unfold chars. apply Forall_fmap, Forall_true. intros c. by eexists. Qed.

Lemma keys_strings fields : Forall (λ v, ∃ s, v = VStr s) (keys fields).
Proof. unfold keys. apply Forall_fmap, Forall_true. intros c. by eexists. Qed.

(** What is read when [data["words"]] is not a list: nothing from an empty
    string or dict, [TypeError] otherwise. *)
Lemma read_input_words_not_a_list h data ws :
  closed h = true → words_field h data ws → is_list h ws = false →
  read_input h data
  = match py_len h ws with Ok 0%Z => Ok [] | _ => Raise TypeError end.
Proof.
  intros Hc Hdata Hnl. unfold read_input.
  rewrite (no_words_words_field _ _ _ Hdata),
    (word_items_words_field _ _ _ Hdata).
  assert (Hok : val_ok (length h) ws = true).
  { destruct Hdata as (l & fields & _ & Hl & Hw). by eapply closed_field. }
  unfold iter, py_len. destruct ws as [| | | |s|l]; try done.
  - rewrite (scan_strings _ _ (chars_strings s)). simpl.
    by destruct s as [|c s].
  - simpl in Hok, Hnl. unfold loc in *.
    destruct (h !! l) as [[items|fields]|] eqn:Hl; [done| |].
    + rewrite (scan_strings _ _ (keys_strings fields)). simpl.
      assert (Hlen : length (keys fields) = size fields).
      { unfold keys. by rewrite !length_fmap, length_map_to_list. }
      rewrite <- Hlen. by destruct (keys fields) as [|k ks].
    + apply Nat.ltb_lt in Hok. apply lookup_ge_None in Hl. lia.
Qed.

(** X5.  When [data["words"]] is not a list, the call returns a new empty
    list if that value is an empty string or an empty dict, and raises
    [TypeError] otherwise: a number or [None] cannot be iterated, and the
    characters of a string or the keys of a dict have no ["word"]. *)
Theorem words_not_a_list h data ws :
  closed h = true → val_ok (length h) data = true →
  words_field h data ws → is_list h ws = false →
  (py_len h ws = Ok 0%Z →
     ∃ r new, get_prioritized_words data h = (Ok r, h ++ new)
              ∧ list_at (h ++ new) r = Some [])
  ∧ (py_len h ws ≠ Ok 0%Z →
     ∃ new, get_prioritized_words data h = (Raise TypeError, h ++ new)).
Proof.
  intros Hc Hd Hdata Hnl.
  destruct (get_prioritized_words_run h h data Hc Hd (agree_refl h))
    as (new & o & Hrun & Hout).
  rewrite (read_input_words_not_a_list _ _ _ Hc Hdata Hnl) in Hout.
  split; intros Hlen.
  - rewrite Hlen in Hout. destruct Hout as (r & -> & Hlist). by exists r, new.
  - exists new. destruct (py_len h ws) as [[| |]|x]; [done|..]; by subst o.
Qed.

Lemma words_not_a_list_witness :
  ∃ new, get_prioritized_words (VRef 0) h_words_dict
         = (Raise TypeError, h_words_dict ++ new).
Proof.
  apply (words_not_a_list h_words_dict (VRef 0) (VRef 1));
    try (vm_compute; reflexivity).
  - exists 0, {["words" := VRef 1]}. by vm_compute.
  - by vm_compute.
Defined.

(** An item that is not a dict has no ["word"]. *)
Lemma getitem_not_dict h key v :
  val_ok (length h) v = true → is_dict h v = false →
  getitem key h v = Raise TypeError.
Proof.
  intros Hok Hnd. unfold getitem. destruct v as [| | | | |l]; try done.
  simpl in Hok, Hnd. unfold loc in *.
  destruct (h !! l) as [[items|fields]|] eqn:Hl; try done.
  apply Nat.ltb_lt in Hok. apply lookup_ge_None in Hl. lia.
Qed.

(** A word that is [None] or a number has no length. *)
Lemma read_entry_scalar_word h item w :
  getitem "word" h item = Ok w → is_scalar w = true →
  fst (read_entry item h) = Raise TypeError.
Proof.
  intros Hw Hs. unfold read_entry. unfold bind at 1, reading at 1. rewrite Hw.
  unfold bind at 1. unfold score_valid_word. unfold bind at 1, reading at 1.
  unfold py_len. by destruct w.
Qed.

(** X6.  An item of the word list that is not a dict (a bare string, a
    number, a list), or whose ["word"] is [None] or a number, makes the call
    raise [TypeError], the items before it being well formed. *)
Theorem wrong_typed_entry_raises h data pre ws bad post :
  closed h = true → val_ok (length h) data = true →
  puzzle_data h data (pre ++ bad :: post) →
  Forall2 (word_entry h) pre ws →
  is_dict h bad = false
  ∨ (∃ w, getitem "word" h bad = Ok w ∧ is_scalar w = true) →
  ∃ new, get_prioritized_words data h = (Raise TypeError, h ++ new).
Proof.
  intros Hc Hd Hdata Hpre Hbad.
  destruct (get_prioritized_words_run h h data Hc Hd (agree_refl h))
    as (new & o & Hrun & Hout).
  exists new. unfold read_input in Hout.
  rewrite (no_words_puzzle_data _ _ _ Hdata),
    (word_items_puzzle_data _ _ _ Hdata) in Hout.
  rewrite (scan_app _ _ _ _ (scan_word_entries _ _ _ Hpre)) in Hout.
  assert (Hraise : fst (read_entry bad h) = Raise TypeError).
  { destruct Hbad as [Hnd | (w & Hw & Hs)].
    - apply read_entry_no_word, getitem_not_dict; [|done].
      destruct Hdata as (l & fields & lw & _ & _ & _ & Hlw).
      eapply closed_lookup; [done..|]. simpl.
      apply elem_of_app. right. left.
    - by eapply read_entry_scalar_word. }
  simpl in Hout. rewrite Hraise in Hout. simpl in Hout. by subst o.
Qed.

Lemma wrong_typed_entry_raises_witness :
  ∃ new, get_prioritized_words (VRef 0) h_bare_word
         = (Raise TypeError, h_bare_word ++ new).
Proof.
  apply (wrong_typed_entry_raises h_bare_word (VRef 0)
           [VRef 2] ["label"] (VStr "gallery") [VRef 3]);
    try (vm_compute; reflexivity).
  - exists 0, {["words" := VRef 1]}, 1. by vm_compute.
  - constructor; [|constructor].
    exists 2, {["word" := VStr "label"]}. by vm_compute.
  - by left.
Defined.

(** * The score of short words and the size of the bonus *)

(** X7.  A word of fewer than four letters scores its length: the test of
    line 50 is for exactly four letters, so a three-letter word scores 3,
    more than a four-letter word. *)
Theorem short_word_scores_its_length h w :
  String.length w < 4 →
  score_valid_word (VStr w) h = (Ok (Z.of_nat (String.length w)), h)
  ∧ (String.length w = 3 →
     ∀ w4, String.length w4 = 4 →
       ∃ z z4, fst (score_valid_word (VStr w) h) = Ok z
               ∧ fst (score_valid_word (VStr w4) h) = Ok z4 ∧ (z4 < z)%Z).
Proof.
  intros Hw.
  assert (Hscore : word_score w = Z.of_nat (String.length w)).
  { unfold word_score. pose proof (distinct_letters_le w) as Hle.
    destruct (Z.eqb_spec (Z.of_nat (String.length w)) 4); [lia|].
    destruct (Z.eqb_spec (Z.of_nat (distinct_letters w)) 7); [lia|done]. }
  rewrite score_valid_word_str, Hscore. split; [done|].
  intros H3 w4 H4. exists 3%Z, 1%Z. rewrite H3, score_valid_word_str.
  unfold word_score. rewrite H4. by simpl.
Qed.

Lemma short_word_scores_its_length_witness :
  score_valid_word (VStr "bee") [] = (Ok 3%Z, []).
Proof.
  apply (short_word_scores_its_length [] "bee"). vm_compute. lia.
Defined.

(** X8.  For a string the call never raises and leaves the heap as it is;
    the score lies between 0 and the length plus 7; it is above the length
    only for a word of seven distinct letters, and is then at least 14; it
    is below the length only for a four-letter word. *)
Theorem score_bounds h w :
  ∃ z, score_valid_word (VStr w) h = (Ok z, h)
       ∧ (0 ≤ z ≤ Z.of_nat (String.length w) + 7)%Z
       ∧ ((Z.of_nat (String.length w) < z)%Z →
          distinct_letters w = 7 ∧ (14 ≤ z)%Z)
       ∧ ((z < Z.of_nat (String.length w))%Z →
          String.length w = 4 ∧ z = 1%Z).
Proof.
  exists (word_score w). rewrite score_valid_word_str. split; [done|].
  unfold word_score. pose proof (distinct_letters_le w) as Hle.
  destruct (Z.eqb_spec (Z.of_nat (String.length w)) 4);
    [|destruct (Z.eqb_spec (Z.of_nat (distinct_letters w)) 7)];
    repeat split; lia.
Qed.

(** * The browser session around the play loop *)

(** X9.  The Play button is optional: once the game is loaded, a failing
    wait for the button skips the click, a failing click is ignored, and in
    every case the function pauses two seconds and goes on to the words. *)
Theorem play_button_is_optional {St} (p : page St) st tr st1 :
  goto p st = (Ok tt, st1) →
  (∀ e st2, wait_for_play p st1 = (Raise e, st2) →
     open_game p (st, tr)
     = (Ok tt, (st2, tr ++ [Print "Navigating to game..."; Goto; WaitPlay;
                            Sleep 2000 2000])))
  ∧ (∀ st2 r st3,
       wait_for_play p st1 = (Ok tt, st2) → click_play p st2 = (r, st3) →
       open_game p (st, tr)
       = (Ok tt, (st3, tr ++ [Print "Navigating to game..."; Goto; WaitPlay;
                              ClickPlay; Sleep 2000 2000]))).
Proof.
  intros Hgoto. split.
  - intros e st2 Hwait. unfold open_game, try_except, bind, ret.
    rewrite log_run, call_run, Hgoto. simpl. rewrite call_run, Hwait. simpl.
    rewrite log_run. norm_app.
  - intros st2 r st3 Hwait Hclick. unfold open_game, try_except, bind, ret.
    rewrite log_run, call_run, Hgoto. simpl. rewrite call_run, Hwait. simpl.
    rewrite call_run, Hclick. simpl. destruct r as [[]|e]; rewrite log_run;
      norm_app.
Qed.

Lemma play_button_is_optional_witness :
  open_game no_play_button_page (0, [])
  = (Ok tt, (0, [Print "Navigating to game..."; Goto; WaitPlay;
                 Sleep 2000 2000])).
Proof.
  destruct (play_button_is_optional no_play_button_page 0 [] 0 eq_refl)
    as [Hwait _].
  apply (Hwait (SurfaceError "Timeout 5000ms exceeded") 0). reflexivity.
Defined.

(** X10.  When the game cannot be loaded, no word is typed: the error is
    printed and the page, the context and the browser are closed. *)
Theorem navigation_failure_types_nothing {St} (p : page St) words st tr e st1 :
  goto p st = (Raise e, st1) →
  run_browser_automation p words (st, tr)
  = close_all p
      (st1, tr ++ [Print "Navigating to game..."; Goto;
                   Print ("Browser automation error: " ++ exn_text e)%string])
  ∧ (closing_works p →
     ∃ st', run_browser_automation p words (st, tr)
            = (Ok tt,
               (st', tr ++ [Print "Navigating to game..."; Goto;
                            Print ("Browser automation error: "
                                   ++ exn_text e)%string;
                            ClosePage; CloseContext; CloseBrowser]))).
Proof.
  intros Hgoto.
  assert (Hrun : run_browser_automation p words (st, tr)
                 = close_all p
                     (st1, tr ++ [Print "Navigating to game..."; Goto;
                                  Print ("Browser automation error: "
                                         ++ exn_text e)%string])).
  { unfold run_browser_automation, try_finally, try_except.
    unfold bind at 1. unfold open_game. unfold bind at 1. rewrite log_run.
    unfold bind at 1. rewrite call_run, Hgoto. simpl.
    rewrite <- !app_assoc. simpl. by destruct (close_all p _) as [[[]|e'] s2]. }
  split; [done|]. intros (Hp & Hc & Hb). rewrite Hrun.
  unfold close_all, bind. rewrite call_run. destruct (Hp st1) as (st2 & ->).
  simpl. rewrite call_run. destruct (Hc st2) as (st3 & ->). simpl.
  rewrite call_run. destruct (Hb st3) as (st4 & ->). simpl.
  exists st4. norm_app.
Qed.

Lemma navigation_failure_types_nothing_witness :
  ∃ st', run_browser_automation unreachable_page five_words (0, [])
         = (Ok tt,
            (st', [Print "Navigating to game..."; Goto;
                   Print "Browser automation error: net::ERR_FILE_NOT_FOUND";
                   ClosePage; CloseContext; CloseBrowser])).
Proof.
  destruct (navigation_failure_types_nothing unreachable_page five_words 0 []
              (SurfaceError "net::ERR_FILE_NOT_FOUND") 0 eq_refl)
    as [_ Hclosed].
  apply Hclosed. repeat split; intros st; by exists st.
Defined.

(** The calls on the page only add to the trace. *)
Lemma for_each_type_char_extends {St} (p : page St) cs st tr :
  ∃ o st' new, for_each cs (type_char p) (st, tr) = (o, (st', tr ++ new)).
Proof.
  revert st tr. induction cs as [|c cs IH]; intros st tr; simpl.
  { exists (Ok tt), st, []. by rewrite app_nil_r. }
  unfold bind at 1. unfold type_char at 1. unfold bind at 1.
  rewrite call_run. destruct (keyboard_type p c st) as [[[]|e] st1]; simpl.
  - destruct (IH st1 ((tr ++ [TypeChar c]) ++ [Sleep 200 500]))
      as (o & st' & new & ->).
    eexists o, st', _. by rewrite <- !app_assoc.
  - by eexists _, _, _.
Qed.

Lemma submit_extends {St} (p : page St) w st tr :
  ∃ o st' new, submit p w (st, tr) = (o, (st', tr ++ new)).
Proof.
  unfold submit. unfold bind at 1. rewrite log_run. unfold bind at 1.
  destruct (for_each_type_char_extends p (list_ascii_of_string w) st
              (tr ++ [Print ("Typing word: " ++ w)%string]))
    as (o & st1 & new & ->).
  destruct o as [[]|e]; [|eexists _, _, _; by rewrite <- app_assoc].
  unfold bind at 1. rewrite log_run. unfold bind. rewrite call_run.
  destruct (keyboard_press_enter p st1) as [[[]|e] st2]; simpl;
    rewrite ?log_run; eexists _, _, _; by rewrite <- !app_assoc.
Qed.

Lemma play_word_extends {St} (p : page St) w st tr :
  ∃ o st' new, play_word p w (st, tr) = (o, (st', tr ++ new)).
Proof.
  unfold play_word. unfold bind at 1.
  destruct (submit_extends p w st tr) as (o & st1 & new1 & ->).
  destruct o as [[]|e]; [|by eexists _, _, _].
  unfold bind at 1.
  destruct (check_stop_total p st1 (tr ++ new1)) as (f & st2 & new2 & -> & _).
  destruct f; unfold bind, ret; rewrite ?log_run;
    eexists _, _, _; by rewrite <- !app_assoc.
Qed.

Lemma play_words_extends {St} (p : page St) words st tr :
  ∃ o st' new, play_words p words (st, tr) = (o, (st', tr ++ new)).
Proof.
  revert st tr. induction words as [|w words IH]; intros st tr; simpl.
  { exists (Ok Continue), st, []. by rewrite app_nil_r. }
  unfold bind.
  destruct (play_word_extends p w st tr) as (o & st1 & new1 & ->).
  destruct o as [[|]|e]; [|by eexists _, _, _..].
  destruct (IH st1 (tr ++ new1)) as (o & st2 & new2 & ->).
  eexists _, _, _. by rewrite <- app_assoc.
Qed.

Lemma open_game_extends {St} (p : page St) st tr :
  ∃ o st' new, open_game p (st, tr) = (o, (st', tr ++ new)).
Proof.
  unfold open_game, try_except, bind, ret. rewrite log_run, call_run.
  destruct (goto p st) as [[[]|e] st1]; simpl;
    [|eexists _, _, _; by rewrite <- !app_assoc].
  rewrite call_run. destruct (wait_for_play p st1) as [[[]|e] st2]; simpl.
  - rewrite call_run. destruct (click_play p st2) as [[[]|e] st3]; simpl;
      rewrite ?log_run; eexists _, _, _; by rewrite <- !app_assoc.
  - rewrite ?log_run. eexists _, _, _. by rewrite <- !app_assoc.
Qed.

(** The body of the [try] of line 114. *)
Lemma body_trace {St} (p : page St) words st tr :
  ∃ o st' new,
    (exec open_game p in exec play_words p words in log (Sleep 5000 5000))
      (st, tr)
    = (o, (st', tr ++ new)).
Proof.
  unfold bind at 1.
  destruct (open_game_extends p st tr) as (o & st1 & new1 & ->).
  destruct o as [[]|e]; [|by eexists _, _, _].
  unfold bind.
  destruct (play_words_extends p words st1 (tr ++ new1)) as (o & st2 & new2 & ->).
  destruct o as [f|e]; rewrite ?log_run; eexists _, _, _; by rewrite <- !app_assoc.
Qed.

(** X11.  An exception of a closing call is the one exception that leaves
    the function, and it skips the closing calls after it: when
    [page.close()] raises, the context and the browser are not closed. *)
Theorem failing_close_skips_the_rest {St} (p : page St) words st tr :
  ∃ st1 new,
    (∀ e st2, close_page p st1 = (Raise e, st2) →
       run_browser_automation p words (st, tr)
       = (Raise e, (st2, tr ++ new ++ [ClosePage])))
    ∧ (∀ st2 e st3,
         close_page p st1 = (Ok tt, st2) →
         close_context p st2 = (Raise e, st3) →
         run_browser_automation p words (st, tr)
         = (Raise e, (st3, tr ++ new ++ [ClosePage; CloseContext])))
    ∧ (∀ st2 st3 r st4,
         close_page p st1 = (Ok tt, st2) →
         close_context p st2 = (Ok tt, st3) →
         close_browser p st3 = (r, st4) →
         run_browser_automation p words (st, tr)
         = (r, (st4, tr ++ new ++ [ClosePage; CloseContext; CloseBrowser]))).
Proof.
  assert (∃ st1 new, ∀ r, run_browser_automation p words (st, tr) = r →
            r = close_all p (st1, tr ++ new)) as (st1 & new & Hrun).
  { unfold run_browser_automation, try_finally, try_except.
    destruct (body_trace p words st tr) as (o & st1 & new & ->).
    destruct o as [[]|e].
    - exists st1, new. intros r <-.
      by destruct (close_all p _) as [[[]|e'] s2].
    - rewrite log_run.
      exists st1, (new ++ [Print ("Browser automation error: "
                                  ++ exn_text e)%string]).
      intros r <-. rewrite <- app_assoc.
      by destruct (close_all p _) as [[[]|e'] s2]. }
  exists st1, new. specialize (Hrun _ eq_refl). rewrite Hrun.
  unfold close_all, bind. rewrite call_run.
  split; [|split].
  - intros e st2 ->. simpl. norm_app.
  - intros st2 e st3 -> Hc. simpl. rewrite call_run, Hc. simpl. norm_app.
  - intros st2 st3 r st4 -> Hc Hb. simpl. rewrite call_run, Hc. simpl.
    rewrite call_run, Hb. simpl. norm_app.
Qed.

Lemma failing_close_skips_the_rest_witness :
  ∃ e st' tr',
    run_browser_automation stuck_page ["ab"] (0, []) = (Raise e, (st', tr'))
    ∧ last tr' = Some ClosePage.
Proof.
  destruct (failing_close_skips_the_rest stuck_page ["ab"] 0 [])
    as (st1 & new & Hpage & _).
  exists (SurfaceError "Target closed"), st1, ([] ++ new ++ [ClosePage]).
  split; [by apply Hpage|]. simpl. by rewrite last_snoc.
Defined.

(** * The events of a round *)

Section round_events.
Context {St : Type} (p : page St).

(** Typing that succeeds leaves every character followed by its pause;
    typing that fails ends with the call that raised. *)
Lemma type_chars_trace cs st tr o st' tr' :
  for_each cs (type_char p) (st, tr) = (o, (st', tr')) →
  match o with
  | Ok _ => tr' = tr ++ typing_events cs
  | Raise _ =>
      ∃ typed c rest, cs = typed ++ c :: rest
                      ∧ tr' = tr ++ typing_events typed ++ [TypeChar c]
  end.
Proof.
  revert st tr. induction cs as [|c cs IH]; intros st tr; simpl.
  { intros [= <- <- <-]. by rewrite app_nil_r. }
  unfold bind at 1. unfold type_char at 1. unfold bind at 1.
  rewrite call_run. destruct (keyboard_type p c st) as [[[]|e] st1]; simpl.
  - intros Hrest%IH. destruct o as [[]|e].
    + rewrite Hrest. norm_app.
    + destruct Hrest as (typed & c' & rest & -> & ->).
      exists (c :: typed), c', rest. split; [done|]. norm_app.
  - intros [= <- <- <-]. by exists [], c, cs.
Qed.

(** The trace of a submission: the exact events when it succeeds; when it
    raises, either typing raised or Enter did. *)
Lemma submit_trace w st tr o st' tr' :
  submit p w (st, tr) = (o, (st', tr')) →
  match o with
  | Ok _ => tr' = tr ++ submit_events w
  | Raise _ =>
      (∃ typed c rest,
          list_ascii_of_string w = typed ++ c :: rest
          ∧ tr' = tr ++ Print ("Typing word: " ++ w)%string
                       :: typing_events typed ++ [TypeChar c])
      ∨ tr' = tr ++ Print ("Typing word: " ++ w)%string
                   :: typing_events (list_ascii_of_string w)
                   ++ [Sleep 300 600; PressEnter]
  end.
Proof.
  unfold submit. unfold bind at 1. rewrite log_run. unfold bind at 1.
  destruct (for_each _ (type_char p) _) as [[[]|e] [st1 tr1]] eqn:Hty;
    apply type_chars_trace in Hty.
  - subst tr1. unfold bind at 1. rewrite log_run. unfold bind. rewrite call_run.
    destruct (keyboard_press_enter p st1) as [[[]|e] st2]; simpl;
      intros [= <- <- <-].
    + unfold submit_events. norm_app.
    + right. norm_app.
  - intros [= <- <- <-]. destruct Hty as (typed & c & rest & Hcs & ->).
    left. exists typed, c, rest. split; [done|]. norm_app.
Qed.

(** The stop check never raises; it queries the rank label first, and what
    follows is one of seven sequences. *)
Lemma check_stop_shape st tr :
  ∃ f st' tail, check_stop p (st, tr) = (Ok f, (st', tr ++ QueryRank :: tail))
                ∧ (f, tail) ∈ stop_tails.
Proof.
  unfold check_stop, try_except, bind, ret. rewrite call_run.
  destruct (query_rank p st) as [[[|]|e] st1]; simpl.
  - rewrite call_run. destruct (inner_text p st1) as [[text|e] st2]; simpl.
    + destruct (String.eqb (strip text) "Genius"); run_page.
      * eexists _, _, _. split; [norm_app|]. unfold stop_tails. set_solver.
      * destruct (queen_bee_visible p st2) as [[[|]|e] st3]; run_page;
          eexists _, _, _; (split; [norm_app|]); unfold stop_tails; set_solver.
    + eexists _, _, _. split; [norm_app|]. unfold stop_tails. set_solver.
  - rewrite call_run.
    destruct (queen_bee_visible p st1) as [[[|]|e] st3]; run_page;
      eexists _, _, _; (split; [norm_app|]); unfold stop_tails; set_solver.
  - eexists _, _, _. split; [norm_app|]. unfold stop_tails. set_solver.
Qed.

(** The trace of a round that completes. *)
Lemma play_word_trace w st tr f st' tr' :
  play_word p w (st, tr) = (Ok f, (st', tr')) →
  ∃ tail, (f, tail) ∈ stop_tails
          ∧ tr' = tr ++ submit_events w ++ QueryRank :: tail ++ round_end f.
Proof.
  unfold play_word. unfold bind at 1.
  destruct (submit p w (st, tr)) as [[[]|e] [st1 tr1]] eqn:Hsub; [|done].
  apply submit_trace in Hsub. subst tr1. unfold bind at 1.
  destruct (check_stop_shape st1 (tr ++ submit_events w))
    as (f' & st2 & tail & -> & Htail).
  destruct f'; unfold bind, ret; run_page; intros [= <- <- <-];
    exists tail; (split; [done|]); simpl; rewrite ?app_nil_r; norm_app.
Qed.

(** A round that raises did so while typing or at Enter. *)
Lemma play_word_raise_trace w st tr e st' tr' :
  play_word p w (st, tr) = (Raise e, (st', tr')) →
  submit p w (st, tr) = (Raise e, (st', tr')).
Proof.
  unfold play_word. unfold bind at 1.
  destruct (submit p w (st, tr)) as [[[]|e1] [st1 tr1]] eqn:Hsub;
    [|by intros [= <- <- <-]].
  unfold bind at 1.
  destruct (check_stop_shape st1 tr1) as (f' & st2 & tail & -> & _).
  by destruct f'; unfold bind, ret; run_page.
Qed.
End round_events.

Lemma enters_and_queries_app a b :
  enters_and_queries (a ++ b) = enters_and_queries a ++ enters_and_queries b.
Proof. apply List.filter_app. Qed.

Lemma enters_and_queries_typing cs : enters_and_queries (typing_events cs) = [].
Proof. induction cs as [|c cs IH]; [done|]. exact IH. Qed.

Lemma enters_and_queries_submit w :
  enters_and_queries (submit_events w) = [PressEnter].
Proof.
  unfold submit_events.
  change (Print ("Typing word: " +:+ w)
          :: typing_events (list_ascii_of_string w)
          ++ [Sleep 300 600; PressEnter; Sleep 1500 1500])
    with ([Print ("Typing word: " +:+ w)]
          ++ typing_events (list_ascii_of_string w)
          ++ [Sleep 300 600; PressEnter; Sleep 1500 1500]).
  by rewrite !enters_and_queries_app, enters_and_queries_typing.
Qed.

Lemma stop_tails_inv f tail :
  (f, tail) ∈ stop_tails →
  enters_and_queries tail = []
  ∧ (f = Continue → pause_lo tail = 0%N ∧ pause_hi tail = 0%N).
Proof.
  unfold stop_tails. rewrite !elem_of_cons, elem_of_nil.
  intros [H|[H|[H|[H|[H|[H|[H|[]]]]]]]]; injection H as -> ->; by split.
Qed.

(** The submissions and rank queries of a round, whichever way it ends. *)
Lemma play_word_probed {St} (p : page St) w st tr o st' tr' :
  play_word p w (st, tr) = (o, (st', tr')) →
  ∃ new, tr' = tr ++ new
         ∧ match o with
           | Ok _ => enters_and_queries new = [PressEnter; QueryRank]
           | Raise _ => enters_and_queries new = []
                        ∨ enters_and_queries new = [PressEnter]
           end.
Proof.
  destruct o as [f|e].
  - intros (tail & Htail & ->)%play_word_trace. eexists. split; [done|].
    apply stop_tails_inv in Htail as [Htail _].
    change (QueryRank :: tail ++ round_end f)
      with ([QueryRank] ++ tail ++ round_end f).
    rewrite !enters_and_queries_app, enters_and_queries_submit, Htail.
    by destruct f.
  - intros Hsub%play_word_raise_trace. apply submit_trace in Hsub.
    destruct Hsub as [(typed & c & rest & _ & ->) | ->];
      (eexists; split; [done|]).
    + left.
      change (Print ("Typing word: " +:+ w) :: typing_events typed ++ [TypeChar c])
        with ([Print ("Typing word: " +:+ w)] ++ typing_events typed
              ++ [TypeChar c]).
      by rewrite !enters_and_queries_app, enters_and_queries_typing.
    + right.
      change (Print ("Typing word: " +:+ w)
              :: typing_events (list_ascii_of_string w)
              ++ [Sleep 300 600; PressEnter])
        with ([Print ("Typing word: " +:+ w)]
              ++ typing_events (list_ascii_of_string w)
              ++ [Sleep 300 600; PressEnter]).
      by rewrite !enters_and_queries_app, enters_and_queries_typing.
Qed.

(** X12.  Every Enter that does not raise is followed by one query for the
    rank label before the next Enter: the submissions and rank queries of
    the loop alternate, one pair for every round played; only an Enter that
    raised is left without its query. *)
Theorem every_submission_is_probed {St} (p : page St) words st tr o st' tr' :
  play_words p words (st, tr) = (o, (st', tr')) →
  ∃ new k last,
    tr' = tr ++ new ∧ k ≤ length words
    ∧ enters_and_queries new
      = concat (replicate k [PressEnter; QueryRank]) ++ last
    ∧ match o with
      | Ok Continue => k = length words ∧ last = []
      | Ok Break => last = []
      | Raise _ => last = [] ∨ last = [PressEnter]
      end.
Proof.
  revert st tr. induction words as [|w words IH]; intros st tr; simpl.
  { intros [= <- <- <-]. exists [], 0, []. by rewrite app_nil_r. }
  unfold bind.
  destruct (play_word p w (st, tr)) as [o1 [st1 tr1]] eqn:Hw.
  apply play_word_probed in Hw as (new1 & -> & Hnew1).
  destruct o1 as [[|]|e].
  - intros (new2 & k & last & -> & Hk & Hnew2 & Ho)%IH.
    exists (new1 ++ new2), (S k), last.
    split; [by rewrite app_assoc|]. split; [lia|]. split.
    + rewrite enters_and_queries_app, Hnew1, Hnew2. done.
    + destruct o as [[|]|e]; [|done..]. destruct Ho as [-> ->]. done.
  - intros [= <- <- <-]. exists new1, 1, [].
    split; [done|]. split; [lia|]. by rewrite Hnew1.
  - intros [= <- <- <-]. exists new1, 0, (enters_and_queries new1).
    split; [done|]. split; [lia|]. done.
Qed.

Lemma every_submission_is_probed_witness :
  ∃ new k last,
    [Print "go"] ++ new
    = snd (snd (play_words genius_after_3 five_words (0, [Print "go"])))
    ∧ k ≤ length five_words
    ∧ enters_and_queries new
      = concat (replicate k [PressEnter; QueryRank]) ++ last
    ∧ last = [].
Proof.
  destruct (every_submission_is_probed genius_after_3 five_words 0
              [Print "go"] _ _ _ eq_refl)
    as (new & k & last & Htr & Hk & Hnew & Hlast).
  exists new, k, last. split; [by rewrite <- Htr|]. do 2 (split; [done|]).
  exact Hlast.
Defined.

(** * The pauses of the loop *)

Lemma pause_lo_app a b : pause_lo (a ++ b) = (pause_lo a + pause_lo b)%N.
Proof.
  induction a as [|ev a IH]; simpl; [done|]. rewrite IH. destruct ev; lia.
Qed.

Lemma pause_hi_app a b : pause_hi (a ++ b) = (pause_hi a + pause_hi b)%N.
Proof.
  induction a as [|ev a IH]; simpl; [done|]. rewrite IH. destruct ev; lia.
Qed.

Lemma pause_typing cs :
  pause_lo (typing_events cs) = (200 * N.of_nat (length cs))%N
  ∧ pause_hi (typing_events cs) = (500 * N.of_nat (length cs))%N.
Proof.
  induction cs as [|c cs [IHlo IHhi]]; [done|].
  cbn [typing_events pause_lo pause_hi length]. rewrite IHlo, IHhi. lia.
Qed.

Lemma pause_submit w :
  pause_lo (submit_events w) = (1800 + 200 * N.of_nat (String.length w))%N
  ∧ pause_hi (submit_events w) = (2100 + 500 * N.of_nat (String.length w))%N.
Proof.
  unfold submit_events. cbn [pause_lo pause_hi].
  rewrite pause_lo_app, pause_hi_app.
  destruct (pause_typing (list_ascii_of_string w)) as [-> ->].
  rewrite length_chars. cbn [pause_lo pause_hi]. lia.
Qed.

(** The pauses of a round that does not stop the loop. *)
Lemma play_word_pauses {St} (p : page St) w st tr st' tr' :
  play_word p w (st, tr) = (Ok Continue, (st', tr')) →
  ∃ new, tr' = tr ++ new
         ∧ pause_lo new = (7800 + 200 * N.of_nat (String.length w))%N
         ∧ pause_hi new = (9100 + 500 * N.of_nat (String.length w))%N.
Proof.
  intros (tail & Htail & ->)%play_word_trace. eexists. split; [done|].
  apply stop_tails_inv in Htail as [_ Htail].
  destruct (Htail eq_refl) as [Hlo Hhi].
  change (QueryRank :: tail ++ round_end Continue)
    with ([QueryRank] ++ tail ++ [Sleep 6000 7000]).
  rewrite !pause_lo_app, !pause_hi_app, Hlo, Hhi.
  destruct (pause_submit w) as [-> ->]. cbn [pause_lo pause_hi]. lia.
Qed.

(** X13.  When the loop runs through all the words without a stop, its
    pauses take, for every word, between 7.8 and 9.1 seconds plus between
    0.2 and 0.5 seconds for each character of the word. *)
Theorem full_loop_pacing {St} (p : page St) words st tr st' tr' :
  play_words p words (st, tr) = (Ok Continue, (st', tr')) →
  ∃ new,
    tr' = tr ++ new
    ∧ pause_lo new
      = total (λ w, 7800 + 200 * N.of_nat (String.length w))%N words
    ∧ pause_hi new
      = total (λ w, 9100 + 500 * N.of_nat (String.length w))%N words.
Proof.
  revert st tr. induction words as [|w words IH]; intros st tr; simpl.
  { intros [= <- <-]. exists []. by rewrite app_nil_r. }
  unfold bind.
  destruct (play_word p w (st, tr)) as [[[|]|e] [st1 tr1]] eqn:Hw; try done.
  apply play_word_pauses in Hw as (new1 & -> & Hlo1 & Hhi1).
  intros (new2 & -> & Hlo2 & Hhi2)%IH. exists (new1 ++ new2).
  split; [by rewrite app_assoc|].
  by rewrite pause_lo_app, pause_hi_app, Hlo1, Hhi1, Hlo2, Hhi2.
Qed.

Lemma full_loop_pacing_witness :
  ∃ new,
    snd (snd (play_words quiet_page five_words (0, []))) = [] ++ new
    ∧ pause_lo new = 41000%N ∧ pause_hi new = 50500%N.
Proof.
  destruct (full_loop_pacing quiet_page five_words 0 [] _ _ eq_refl)
    as (new & Htr & Hlo & Hhi).
  exists new. by split.
Defined.

(** * What counts as "Genius" *)

Lemma lstrip_split l :
  ∃ a, l = a ++ lstrip l ∧ Forall (λ c, is_space c = true) a.
Proof.
  induction l as [|c l (a & Hl & Ha)]; [by exists []|]. simpl.
  destruct (is_space c) eqn:Hc.
  - exists (c :: a). split; [exact (f_equal (cons c) Hl) | by constructor].
  - by exists [].
Qed.

Lemma lstrip_spaces a l :
  Forall (λ c, is_space c = true) a → lstrip (a ++ l) = lstrip l.
Proof. induction 1 as [|c a Hc _ IH]; [done|]. simpl. by rewrite Hc. Qed.

Lemma lstrip_id c l : is_space c = false → lstrip (c :: l) = c :: l.
Proof. intros Hc. simpl. by rewrite Hc. Qed.

(** [strip] gives "Genius" exactly for "Genius" between whitespace. *)
Lemma strip_genius text : strip text = "Genius" ↔ padded "Genius" text.
Proof.
  unfold strip, padded. split.
  - intros Hs. apply (f_equal list_ascii_of_string) in Hs.
    rewrite list_ascii_of_string_of_list_ascii in Hs.
    destruct (lstrip_split (list_ascii_of_string text)) as (a & Ha & Hsa).
    destruct (lstrip_split (rev (lstrip (list_ascii_of_string text))))
      as (b & Hb & Hsb).
    exists a, (rev b). split; [|split; [done|]].
    + rewrite Ha at 1. f_equal. rewrite <- Hs, <- rev_app_distr, <- Hb.
      by rewrite rev_involutive.
    + by apply Forall_rev.
  - intros (a & b & -> & Ha & Hb).
    rewrite (lstrip_spaces _ _ Ha). simpl list_ascii_of_string. cbn [app].
    rewrite lstrip_id by done.
    change ("G"%char :: "e"%char :: "n"%char :: "i"%char :: "u"%char
            :: "s"%char :: b)
      with (["G"; "e"; "n"; "i"; "u"; "s"]%char ++ b).
    rewrite rev_app_distr, (lstrip_spaces _ _ (Forall_rev Hb)).
    by vm_compute.
Qed.

(** X14.  The rank label counts as "Genius" exactly when its text is
    "Genius" with nothing but whitespace around it: then the loop stops
    after three seconds; with any other text (another case, a trailing
    mark) the function goes on to the Queen Bee check. *)
Theorem genius_up_to_whitespace {St} (p : page St) st tr st1 st2 text :
  query_rank p st = (Ok true, st1) → inner_text p st1 = (Ok text, st2) →
  (padded "Genius" text →
     check_stop p (st, tr)
     = (Ok Break,
        (st2, tr ++ [QueryRank; InnerText;
                     Print "Target rank 'Genius' reached. Stopping automation.";
                     Sleep 3000 3000])))
  ∧ (¬ padded "Genius" text →
     ∃ f st3 tail,
       check_stop p (st, tr)
       = (Ok f, (st3, tr ++ [QueryRank; InnerText; IsVisible] ++ tail))
       ∧ (tail = [] ∨ tail = [Print "Queen Bee reached. Stopping."])).
Proof.
  intros Hq Ht. split.
  - intros Hg%strip_genius. apply check_stop_genius. by exists st1, text.
  - intros Hg. rewrite <- strip_genius in Hg. apply String.eqb_neq in Hg.
    unfold check_stop, try_except, bind, ret. rewrite call_run, Hq. simpl.
    rewrite call_run, Ht. simpl. rewrite Hg. simpl. rewrite call_run.
    destruct (queen_bee_visible p st2) as [[[|]|e] st3]; run_page;
      eexists _, _, _; (split; [norm_app|]); auto.
Qed.

Lemma genius_up_to_whitespace_witness :
  check_stop genius_after_3 (3, [])
  = (Ok Break,
     (3, [QueryRank; InnerText;
          Print "Target rank 'Genius' reached. Stopping automation.";
          Sleep 3000 3000])).
Proof.
  destruct (genius_up_to_whitespace genius_after_3 3 [] 3 3 " Genius "
              eq_refl eq_refl) as [Hgenius _].
  apply Hgenius. exists [" "%char], [" "%char].
  split; [reflexivity|]. split; by repeat constructor.
Defined.

(** * Fetching the data *)

Arguments print : simpl never.
Arguments print_error : simpl never.
Arguments on_heap : simpl never.
Arguments os_call : simpl never.

Section machine_facts.
Context {W : Type}.

Lemma print_run line (h : heap) (w : W) tr :
  print line (h, w, tr) = (Ok tt, (h, w, tr ++ [Printed line])).
Proof. done. Qed.

Lemma print_error_run prefix e (h : heap) (w : W) tr :
  print_error prefix e (h, w, tr) = (Ok tt, (h, w, tr ++ [PrintedError prefix e])).
Proof. done. Qed.

Lemma on_heap_run {A} (c : M heap A) (h : heap) (w : W) tr :
  on_heap c (h, w, tr) = ((c h).1, ((c h).2, w, tr)).
Proof. unfold on_heap. by destruct (c h). Qed.

Lemma on_heap_reading {A} (f : heap → outcome A) (h : heap) (w : W) tr :
  on_heap (reading f) (h, w, tr) = (f h, (h, w, tr)).
Proof. done. Qed.

Lemma os_call_reading {A} ev (f : W → outcome A) (h : heap) w tr :
  os_call ev (reading f) (h, w, tr) = (f w, (h, w, tr ++ [ev])).
Proof. done. Qed.

Lemma os_call_run {A} ev (op : M W A) (h : heap) w tr :
  os_call ev op (h, w, tr) = ((op w).1, (h, (op w).2, tr ++ [ev])).
Proof. unfold os_call. by destruct (op w). Qed.
End machine_facts.

Ltac run_machine :=
  repeat (first [rewrite os_call_run | rewrite on_heap_run | rewrite print_run
                | rewrite print_error_run];
          simpl).

(** What the handler of line 39 leaves: the message, and a new empty dict. *)
Lemma fetch_handler {W} (h : heap) (w : W) tr e :
  (exec print_error "Error fetching API: " e in
   on_heap (alloc (ODict ∅))) (h, w, tr)
  = (Ok (VRef (length h)),
     (h ++ [ODict ∅], w, tr ++ [PrintedError "Error fetching API: " e])).
Proof. unfold bind. by run_machine. Qed.

(** [fetch_daily_words] never raises: whatever the network call, the status
    check and the decoding do, the call returns a value. *)
Lemma fetch_daily_words_never_raises {W} (requests_get : M W response) s :
  ∃ v s', fetch_daily_words requests_get s = (Ok v, s').
Proof.
  destruct s as [[h w] tr]. unfold fetch_daily_words, try_except.
  unfold bind at 1. rewrite os_call_run.
  destruct (requests_get w) as [[r|e] w1]; simpl;
    [|rewrite fetch_handler; by eexists _, _].
  unfold bind at 1, reading at 1.
  destruct (raise_for_status r) as [[]|e];
    [|rewrite fetch_handler; by eexists _, _].
  rewrite on_heap_run. destruct (json r h) as [[v|e] h1]; simpl;
    [|rewrite fetch_handler]; by eexists _, _.
Qed.

(** X15.  When the request raises, when the status is a client or server
    error (400 to 599), or when the body cannot be decoded, the function
    prints the error and returns an empty dict, a new object; that value is
    falsy.  With any other status the decoded value is returned as it is,
    whatever its type. *)
Theorem fetch_daily_words_cases {W} (requests_get : M W response) h w tr :
  (∀ e w1, requests_get w = (Raise e, w1) →
     fetch_daily_words requests_get (h, w, tr)
     = (Ok (VRef (length h)),
        (h ++ [ODict ∅], w1,
         tr ++ [HttpGet; PrintedError "Error fetching API: " e])))
  ∧ (∀ r w1, requests_get w = (Ok r, w1) →
       (400 ≤ status_code r < 600)%Z →
       fetch_daily_words requests_get (h, w, tr)
       = (Ok (VRef (length h)),
          (h ++ [ODict ∅], w1,
           tr ++ [HttpGet;
                  PrintedError "Error fetching API: "
                    (SurfaceError (http_error r))])))
  ∧ (∀ r w1 e h1, requests_get w = (Ok r, w1) →
       ¬ (400 ≤ status_code r < 600)%Z → json r h = (Raise e, h1) →
       fetch_daily_words requests_get (h, w, tr)
       = (Ok (VRef (length h1)),
          (h1 ++ [ODict ∅], w1,
           tr ++ [HttpGet; PrintedError "Error fetching API: " e])))
  ∧ (∀ r w1 v h1, requests_get w = (Ok r, w1) →
       ¬ (400 ≤ status_code r < 600)%Z → json r h = (Ok v, h1) →
       fetch_daily_words requests_get (h, w, tr)
       = (Ok v, (h1, w1, tr ++ [HttpGet])))
  ∧ (∀ h1 : heap, truthy (h1 ++ [ODict ∅]) (VRef (length h1)) = Ok false).
Proof.
  assert (Hstatus : ∀ r, (400 ≤ status_code r < 600)%Z →
            raise_for_status r = Raise (SurfaceError (http_error r))).
  { intros r Hr. unfold raise_for_status.
    destruct (Z.leb_spec 400 (status_code r)); [|lia].
    destruct (Z.ltb_spec (status_code r) 600); [done|lia]. }
  assert (Hfine : ∀ r, ¬ (400 ≤ status_code r < 600)%Z →
            raise_for_status r = Ok tt).
  { intros r Hr. unfold raise_for_status.
    destruct (Z.leb_spec 400 (status_code r)); [|done].
    destruct (Z.ltb_spec (status_code r) 600); [lia|done]. }
  unfold fetch_daily_words, try_except. repeat split.
  - intros e w1 Hget. unfold bind at 1. rewrite os_call_run, Hget. simpl.
    rewrite fetch_handler. by rewrite <- app_assoc.
  - intros r w1 Hget Hr. unfold bind at 1. rewrite os_call_run, Hget. simpl.
    unfold bind at 1, reading at 1.
    rewrite (Hstatus r Hr), fetch_handler. by rewrite <- app_assoc.
  - intros r w1 e h1 Hget Hr Hjson. unfold bind at 1.
    rewrite os_call_run, Hget. simpl. unfold bind at 1, reading at 1.
    rewrite (Hfine r Hr), on_heap_run, Hjson. simpl.
    rewrite fetch_handler. by rewrite <- app_assoc.
  - intros r w1 v h1 Hget Hr Hjson. unfold bind at 1.
    rewrite os_call_run, Hget. simpl. unfold bind at 1, reading at 1.
    by rewrite (Hfine r Hr), on_heap_run, Hjson.
  - intros h1. unfold truthy. by rewrite list_lookup_middle.
Qed.

Lemma fetch_daily_words_cases_witness :
  fetch_daily_words (ret unavailable) ([], tt, [])
  = (Ok (VRef 0),
     ([ODict ∅], tt,
      [HttpGet;
       PrintedError "Error fetching API: "
         (SurfaceError "503 Server Error: Service Unavailable")])).
Proof.
  destruct (fetch_daily_words_cases (ret unavailable) [] tt [])
    as (_ & Hstatus & _).
  apply (Hstatus unavailable tt eq_refl). vm_compute. by split.
Defined.

(** * The local game file *)

(** Replacing in a string without an occurrence changes nothing. *)
Lemma replace_none old new s :
  is_substring old s = false → replace_from old new 0 s = s.
Proof.
  induction s as [|c s IH]; [done|].
  cbn [is_substring replace_from]. intros [Hp Hs]%orb_false_elim.
  rewrite Hp. by rewrite IH.
Qed.

Section local_html_facts.
Context {W : Type} (fs : files W).
Context (dumps : game_data → heap → outcome string).

(** The steps up to the reading of the template. *)
Lemma generate_local_html_read data h w tr path w1 content w2 :
  abspath fs "local_game.html" w = (Ok path, w1) →
  path_exists fs template_path w1 = true →
  read_text fs template_path w1 = (Ok content, w2) →
  generate_local_html fs dumps data (h, w, tr)
  = try_except
      (let* game := on_heap (prepare_data data) in
       let* json_str := on_heap (reading (dumps game)) in
       exec os_call (WriteText path (inject json_str content))
              (write_text fs path (inject json_str content)) in
       ret (Some path))
      (λ e, exec print_error "Error generating local HTML: " e in
            ret None)
      (h, w2, tr ++ [Abspath "local_game.html"; PathExists template_path;
                     ReadText template_path]).
Proof.
  intros Habs Hex Hread. unfold generate_local_html, try_except.
  unfold bind at 1. rewrite os_call_run, Habs. simpl.
  unfold bind at 1. rewrite os_call_run. unfold reading at 1. simpl.
  rewrite Hex. simpl. unfold bind at 1. rewrite os_call_run, Hread. simpl.
  by rewrite <- !app_assoc.
Qed.

(** X16.  Nothing is written, and [None] is returned, when the template is
    missing (the data is then not looked at) and when the data cannot be
    prepared or serialised: the file of an earlier run stays as it is. *)
Theorem failed_preparation_writes_nothing data h w tr path w1 :
  abspath fs "local_game.html" w = (Ok path, w1) →
  (path_exists fs template_path w1 = false →
     generate_local_html fs dumps data (h, w, tr)
     = (Ok None,
        (h, w1, tr ++ [Abspath "local_game.html"; PathExists template_path;
                       Printed "Custom template not found!"])))
  ∧ (∀ content w2 e h1,
       path_exists fs template_path w1 = true →
       read_text fs template_path w1 = (Ok content, w2) →
       prepare_data data h = (Raise e, h1)
       ∨ (∃ game, prepare_data data h = (Ok game, h1)
                  ∧ dumps game h1 = Raise e) →
       generate_local_html fs dumps data (h, w, tr)
       = (Ok None,
          (h1, w2,
           tr ++ [Abspath "local_game.html"; PathExists template_path;
                  ReadText template_path;
                  PrintedError "Error generating local HTML: " e]))).
Proof.
  intros Habs. split.
  - intros Hex. unfold generate_local_html, try_except.
    unfold bind at 1. rewrite os_call_run, Habs. simpl.
    unfold bind at 1. rewrite os_call_run. unfold reading at 1. simpl.
    rewrite Hex. simpl. unfold bind, ret. rewrite ?print_run, ?print_error_run.
    by rewrite <- !app_assoc.
  - intros content w2 e h1 Hex Hread Hfail.
    rewrite (generate_local_html_read _ _ _ _ _ _ _ _ Habs Hex Hread).
    unfold try_except. unfold bind at 1. rewrite on_heap_run.
    destruct Hfail as [Hprep | (game & Hprep & Hdumps)]; rewrite Hprep; simpl.
    + unfold bind, ret. rewrite ?print_run, ?print_error_run. by rewrite <- !app_assoc.
    + unfold bind at 1. rewrite on_heap_run. unfold reading at 1. simpl.
      rewrite Hdumps. unfold bind, ret. rewrite ?print_run, ?print_error_run.
      by rewrite <- !app_assoc.
Qed.

(** X17.  When the template is read and the data prepared and serialised,
    the function makes one write, of the template with the call injected,
    to the absolute path, and returns that path if the write succeeds.  A
    template without the closing tag "</body>" is written back unchanged,
    without the data, and the path is returned all the same. *)
Theorem local_game_is_injected_template
    data h w tr path w1 content w2 game h1 json_str w3 :
  abspath fs "local_game.html" w = (Ok path, w1) →
  path_exists fs template_path w1 = true →
  read_text fs template_path w1 = (Ok content, w2) →
  prepare_data data h = (Ok game, h1) →
  dumps game h1 = Ok json_str →
  write_text fs path (inject json_str content) w2 = (Ok tt, w3) →
  generate_local_html fs dumps data (h, w, tr)
  = (Ok (Some path),
     (h1, w3,
      tr ++ [Abspath "local_game.html"; PathExists template_path;
             ReadText template_path;
             WriteText path (inject json_str content)]))
  ∧ (is_substring "</body>" content = false →
     inject json_str content = content).
Proof.
  intros Habs Hex Hread Hprep Hdumps Hwrite. split.
  - rewrite (generate_local_html_read _ _ _ _ _ _ _ _ Habs Hex Hread).
    unfold try_except. unfold bind at 1. rewrite on_heap_run, Hprep. simpl.
    unfold bind at 1. rewrite on_heap_run. unfold reading at 1. simpl.
    rewrite Hdumps. unfold bind at 1. rewrite os_call_run, Hwrite. simpl.
    unfold ret. by rewrite <- !app_assoc.
  - apply replace_none.
Qed.
End local_html_facts.

Lemma failed_preparation_writes_nothing_witness :
  generate_local_html disk_files dumps_letters (VRef 0) (h_puzzle, ∅, [])
  = (Ok None,
     (h_puzzle, ∅,
      [Abspath "local_game.html"; PathExists template_path;
       Printed "Custom template not found!"])).
Proof.
  destruct (failed_preparation_writes_nothing disk_files dumps_letters
              (VRef 0) h_puzzle ∅ [] "/work/local_game.html" ∅ eq_refl)
    as [Hmissing _].
  apply Hmissing. reflexivity.
Defined.

Lemma local_game_is_injected_template_witness :
  fst (generate_local_html disk_files dumps_letters (VRef 0)
         (h_puzzle, disk_with_template, []))
  = Ok (Some "/work/local_game.html").
Proof.
  destruct (local_game_is_injected_template disk_files dumps_letters
              (VRef 0) h_puzzle disk_with_template []
              "/work/local_game.html" disk_with_template
              "<html><body><p>Bee</p></body></html>" disk_with_template
              _ _ _ _ eq_refl eq_refl eq_refl eq_refl eq_refl eq_refl)
    as [Hrun _].
  by rewrite Hrun.
Defined.

(** ** Where the call is injected *)

Lemma append_assoc (a b c : string) : ((a ++ b) ++ c = a ++ b ++ c)%string.
Proof. induction a as [|x a IH]; [done|]. exact (f_equal (String x) IH). Qed.

Lemma length_append (a b : string) :
  String.length (a ++ b) = String.length a + String.length b.
Proof. induction a as [|x a IH]; [done|]. exact (f_equal S IH). Qed.

Lemma prefix_append old post : String.prefix old (old ++ post) = true.
Proof.
  induction old as [|c old IH]; simpl; [by destruct post|].
  by destruct (ascii_dec c c).
Qed.

Lemma prefix_short old a b :
  String.prefix old (a ++ b) = true → String.length old ≤ String.length a →
  String.prefix old a = true.
Proof.
  revert a. induction old as [|c old IH]; intros a; [by destruct a|].
  destruct a as [|x a]; simpl; [lia|].
  destruct (ascii_dec c x); [|done]. intros Hp Hlen. apply IH; [done|lia].
Qed.

Lemma replace_skip old new a post :
  replace_from old new (String.length a) (a ++ post)
  = replace_from old new 0 post.
Proof. induction a as [|x a IH]; [by destruct post|]. exact IH. Qed.

(** The first occurrence is replaced, and the rest of the string is treated
    in the same way. *)
Lemma replace_first old front z new pre post :
  old = (front ++ String z "")%string →
  is_substring old (pre ++ front) = false →
  replace_from old new 0 (pre ++ old ++ post)
  = (pre ++ new ++ replace_from old new 0 post)%string.
Proof.
  intros Hold. induction pre as [|c pre IH]; intros Hnone.
  - change ("" ++ old ++ post)%string with (old ++ post)%string.
    change ("" ++ new ++ replace_from old new 0 post)%string
      with (new ++ replace_from old new 0 post)%string.
    pose proof (prefix_append old post) as Hp.
    destruct old as [|c0 old']; [by destruct front|].
    change (String c0 old' ++ post)%string with (String c0 (old' ++ post)) in *.
    cbn [replace_from]. rewrite Hp. f_equal.
    replace (String.length (String c0 old') - 1) with (String.length old')
      by (simpl; lia).
    apply replace_skip.
  - change (String c pre ++ old ++ post)%string
      with (String c (pre ++ old ++ post)).
    change (String c pre ++ front)%string with (String c (pre ++ front)) in Hnone.
    cbn [is_substring] in Hnone. apply orb_false_elim in Hnone as [Hp Hrest].
    cbn [replace_from].
    destruct (String.prefix old (String c (pre ++ old ++ post))) eqn:Hp'.
    + exfalso. rewrite Hold in Hp' at 2.
      rewrite (append_assoc front), <- (append_assoc pre front) in Hp'.
      change (String c ((pre ++ front) ++ String z "" ++ post))
        with (String c (pre ++ front) ++ String z "" ++ post)%string in Hp'.
      apply prefix_short in Hp'; [congruence|].
      rewrite Hold. simpl. rewrite !length_append. simpl. lia.
    + simpl. by rewrite (IH Hrest).
Qed.

(** X18.  The call is put in front of the first "</body>" of the template,
    and in the same way in front of every later one: a template with the
    tag twice gets the call twice. *)
Theorem init_call_before_closing_tag json_str pre post :
  is_substring "</body>" (pre ++ "</body") = false →
  inject json_str (pre ++ "</body>" ++ post)
  = (pre ++ init_call json_str ++ "</body>" ++ inject json_str post)%string.
Proof.
  intros Hnone. unfold inject, str_replace.
  rewrite (replace_first "</body>" "</body" ">"%char _ pre post eq_refl Hnone).
  by rewrite append_assoc.
Qed.

Lemma init_call_before_closing_tag_witness :
  inject "{}" "<body>a</body><!-- </body> -->"
  = "<body>a<script>window.startLocalGame({});</script></body><!-- <script>window.startLocalGame({});</script></body> -->".
Proof.
  exact (init_call_before_closing_tag "{}" "<body>a" "<!-- </body> -->"
           eq_refl).
Defined.

(** ** The letters and the answers given to the game *)

Lemma getitem_field h l fields key v :
  h !! l = Some (ODict fields) → fields !! key = Some v →
  getitem key h (VRef l) = Ok v.
Proof. intros Hl Hk. unfold getitem. by rewrite Hl, Hk. Qed.






Lemma agree_lookup h H l o : agree h H → h !! l = Some o → H !! l = Some o.
Proof.
  intros Ha Hl. rewrite Ha; [done|]. by eapply lookup_lt_Some.
Qed.

Lemma read_answers_wellformed h data items ws :
  puzzle_data h data items → Forall2 (word_entry h) items ws →
  read_answers data h = (Ok (VStr <$> ws), h).
Proof.
  intros (l & fields & lw & -> & Hl & Hw & Hlw) Hitems.
  unfold read_answers. unfold bind at 1, reading at 1.
  rewrite (getitem_field _ _ _ _ _ Hl Hw).
  unfold bind at 1, reading at 1. unfold iter. rewrite Hlw. clear Hlw.
  induction Hitems as [|item w items ws (li & fi & -> & Hli & Hwi) _ IH];
    [done|].
  cbn [map_m]. unfold bind at 1, reading at 1.
  rewrite (getitem_field _ _ _ _ _ Hli Hwi). unfold bind at 1.
  rewrite IH. by rewrite fmap_cons.
Qed.

(** X20.  The answers given to the game are the words of the data in the
    order of the data, and the words returned for typing are a
    rearrangement of them: every word typed is an answer of the local game,
    and every answer is typed unless the loop stops before. *)
Theorem answers_are_the_words_played h data items ws :
  closed h = true → val_ok (length h) data = true →
  puzzle_data h data items → Forall2 (word_entry h) items ws →
  ∃ r new out,
    get_prioritized_words data h = (Ok r, h ++ new)
    ∧ list_at (h ++ new) r = Some out
    ∧ read_answers data (h ++ new) = (Ok (VStr <$> ws), h ++ new)
    ∧ out ≡ₚ VStr <$> ws.
Proof.
  intros Hc Hd Hdata Hitems.
  destruct (get_prioritized_words_run h h data Hc Hd (agree_refl h))
    as (new & o & Hrun & Hout).
  rewrite (read_input_wellformed _ _ _ _ Hdata Hitems) in Hout.
  destruct Hout as (r & -> & Hlist).
  exists r, new, (word <$> prioritized (zip_with (entry_of h) items ws)).
  do 2 (split; [done|]). split.
  - assert (Ha : agree h (h ++ new)) by apply agree_app.
    apply read_answers_wellformed with (items := items).
    + destruct Hdata as (l & fields & lw & -> & Hl & Hw & Hlw).
      exists l, fields, lw. repeat split; try done; by eapply agree_lookup.
    + eapply Forall2_impl; [exact Hitems|].
      intros item w (li & fi & -> & Hli & Hwi). exists li, fi.
      repeat split; try done. by eapply agree_lookup.
  - rewrite prioritized_perm, word_zip_entry_of; [done|].
    by eapply Forall2_length.
Qed.

Lemma answers_are_the_words_played_witness :
  ∃ r new out,
    get_prioritized_words (VRef 0) h0 = (Ok r, h0 ++ new)
    ∧ list_at (h0 ++ new) r = Some out
    ∧ read_answers (VRef 0) (h0 ++ new) = (Ok (VStr <$> words0), h0 ++ new)
    ∧ out ≡ₚ VStr <$> words0.
Proof.
  apply (answers_are_the_words_played h0 (VRef 0) items0 words0);
    [vm_compute; reflexivity .. | apply puzzle_data_h0 | apply word_entries_h0].
Defined.

(** * The recording that is processed *)

(** The item chosen has the greatest key, and is the first of those that
    have it. *)
Lemma latest_of_spec (t : string → Q) best rest :
  ∃ pre post,
    best :: rest = pre ++ latest_of t best rest :: post
    ∧ Forall (λ x, (t x < t (latest_of t best rest))%Q) pre
    ∧ Forall (λ x, (t x <= t (latest_of t best rest))%Q) post.
Proof.
  revert best. induction rest as [|x rest IH]; intros best.
  { exists [], []. by repeat split. }
  cbn [latest_of]. destruct (Qle_bool (t x) (t best)) eqn:Hle; cbn [negb].
  - apply Qle_bool_iff in Hle.
    destruct (IH best) as (pre & post & Heq & Hpre & Hpost).
    destruct pre as [|y pre].
    + injection Heq as Hbest ->. exists [], (x :: post).
      split; [by rewrite <- Hbest|]. split; [done|].
      constructor; [by rewrite <- Hbest|done].
    + injection Heq as <- Hrest. apply Forall_cons in Hpre as [Hbest Hpre].
      exists (best :: x :: pre), post.
      split; [exact (f_equal (λ l, best :: x :: l) Hrest)|]. split; [|done].
      constructor; [done|]. constructor; [|done].
      by eapply Qle_lt_trans.
  - assert (Hlt : (t best < t x)%Q).
    { apply Qnot_le_lt. intros Hc%Qle_bool_iff. congruence. }
    destruct (IH x) as (pre & post & Heq & Hpre & Hpost).
    exists (best :: pre), post.
    split; [exact (f_equal (cons best) Heq)|]. split; [|done].
    constructor; [|done].
    destruct pre as [|y pre].
    + injection Heq as Hx _. by rewrite <- Hx.
    + injection Heq as <- _. apply Forall_cons in Hpre as [Hx _].
      by eapply Qlt_trans.
Qed.

Lemma filter_all_false {A} (f : A → bool) l :
  Forall (λ x, f x = false) l → List.filter f l = [].
Proof. induction 1 as [|x l Hx _ IH]; [done|]. simpl. by rewrite Hx. Qed.

Section video_facts.
Context {W Clip : Type} (fs : files W) (st : studio W Clip).

Lemma ctime_key_run path h w tr :
  ctime_key st path (h, w, tr)
  = (getctime st path w, (h, w, tr ++ [GetCtime path])).
Proof. unfold ctime_key. by rewrite os_call_run. Qed.

(** The keys are computed once for every item, in order. *)
Lemma max_from_run t best rest h w tr :
  Forall (λ x, getctime st x w = Ok (t x)) rest →
  max_from (ctime_key st) best (t best) rest (h, w, tr)
  = (Ok (latest_of t best rest), (h, w, tr ++ (GetCtime <$> rest))).
Proof.
  intros Hrest. revert best tr.
  induction Hrest as [|x rest Hx _ IH]; intros best tr.
  { simpl. unfold ret. by rewrite app_nil_r. }
  cbn [max_from latest_of]. unfold bind. rewrite ctime_key_run, Hx.
  destruct (negb (Qle_bool (t x) (t best))); rewrite IH;
    by rewrite <- app_assoc.
Qed.


(** X21.  The recording processed is the one with the latest creation time
    among the files of the directory whose name ends in ".webm", and the
    first of them in the order of the listing when several have that time.
    The time of every recording is read once, in that order. *)
Theorem latest_recording_is_chosen h w tr names t first rest :
  listdir st VIDEO_DIR w = Ok names →
  recordings_of st names = first :: rest →
  Forall (λ x, getctime st x w = Ok (t x)) (first :: rest) →
  ∃ pre latest post,
    first :: rest = pre ++ latest :: post
    ∧ Forall (λ x, (t x < t latest)%Q) pre
    ∧ Forall (λ x, (t x <= t latest)%Q) post
    ∧ process_video fs st (h, w, tr)
      = try_except (render fs st latest)
          (print_error "Video processing error: ")
          (h, w,
           tr ++ ListDir VIDEO_DIR :: (GetCtime <$> first :: rest)
           ++ [Printed ("Processing recording: " ++ latest)%string]).
Proof.
  intros Hdir Hrec Htimes. apply Forall_cons in Htimes as [Hfirst Hrest].
  destruct (latest_of_spec t first rest) as (pre & post & Heq & Hpre & Hpost).
  exists pre, (latest_of t first rest), post. do 3 (split; [done|]).
  unfold process_video. unfold bind at 1. rewrite os_call_run.
  unfold reading at 1. rewrite Hdir. simpl. rewrite Hrec.
  unfold bind at 1. unfold bind at 1. rewrite ctime_key_run, Hfirst.
  rewrite (max_from_run t first rest _ _ _ Hrest).
  unfold bind. rewrite print_run. by rewrite <- !app_assoc.
Qed.


Lemma process_video_no_recording h w tr names :
  listdir st VIDEO_DIR w = Ok names →
  Forall (λ name, endswith ".webm" name = false) names →
  process_video fs st (h, w, tr)
  = (Ok tt, (h, w, tr ++ [ListDir VIDEO_DIR; Printed "No recordings found."])).
Proof.
  intros Hdir Hnone. unfold process_video. unfold bind at 1.
  rewrite os_call_run. unfold reading at 1. rewrite Hdir. simpl.
  assert (Hrec : recordings_of st names = []).
  { unfold recordings_of. by rewrite (filter_all_false _ _ Hnone). }
  rewrite Hrec, print_run. by rewrite <- !app_assoc.
Qed.

(** X23.  When no name of the directory ends in ".webm" (the test is on the
    exact suffix, in lower case), the function prints that no recording was
    found and does nothing else: no clip is opened, no video is written,
    and the heap and the world are left as they were. *)
Theorem no_recording_no_video h w tr names :
  listdir st VIDEO_DIR w = Ok names →
  Forall (λ name, endswith ".webm" name = false) names →
  process_video fs st (h, w, tr)
  = (Ok tt, (h, w, tr ++ [ListDir VIDEO_DIR; Printed "No recordings found."])).
Proof. apply process_video_no_recording. Qed.
End video_facts.

Lemma latest_recording_is_chosen_witness :
  ∃ pre latest post,
    ["recordings/old.webm"; "recordings/a.webm"; "recordings/b.webm"]
    = pre ++ latest :: post
    ∧ Forall (λ x, (three_times x < three_times latest)%Q) pre
    ∧ Forall (λ x, (three_times x <= three_times latest)%Q) post
    ∧ process_video folder_files folder_studio ([], three_recordings, [])
      = try_except (render folder_files folder_studio latest)
          (print_error "Video processing error: ")
          ([], three_recordings,
           [] ++ ListDir VIDEO_DIR
           :: (GetCtime <$> ["recordings/old.webm"; "recordings/a.webm";
                             "recordings/b.webm"])
           ++ [Printed ("Processing recording: " ++ latest)%string]).
Proof.
  apply (latest_recording_is_chosen folder_files folder_studio []
           three_recordings [] three_recordings.*1 three_times).
  - reflexivity.
  - reflexivity.
  - repeat constructor.
Defined.


Lemma no_recording_no_video_witness :
  process_video folder_files folder_studio
    ([], [("notes.txt", 1%Q); ("clip.WEBM", 2%Q)], [])
  = (Ok tt,
     ([], [("notes.txt", 1%Q); ("clip.WEBM", 2%Q)],
      [] ++ [ListDir VIDEO_DIR; Printed "No recordings found."])).
Proof.
  apply (no_recording_no_video folder_files folder_studio []
           [("notes.txt", 1%Q); ("clip.WEBM", 2%Q)] [] ["notes.txt"; "clip.WEBM"]).
  - reflexivity.
  - repeat constructor.
Defined.

(** * The program as a whole *)

Arguments lib_call : simpl never.
Arguments in_browser : simpl never.

Lemma lib_call_run {W A} ev (op : M (heap * W) A) h w tr :
  lib_call ev op (h, w, tr)
  = ((op (h, w)).1, ((op (h, w)).2.1, (op (h, w)).2.2, tr ++ [ev])).
Proof. unfold lib_call. by destruct (op (h, w)) as [r [h' w']]. Qed.

(** A failed fetch leaves the message and a new empty dict. *)
Lemma fetch_failure_run {W} (requests_get : M W response) h w tr e h1 w1 :
  fetch_failure requests_get h w e h1 w1 →
  fetch_daily_words requests_get (h, w, tr)
  = (Ok (VRef (length h1)),
     (h1 ++ [ODict ∅], w1,
      tr ++ [HttpGet; PrintedError "Error fetching API: " e])).
Proof.
  unfold fetch_daily_words, try_except. unfold bind at 1. rewrite os_call_run.
  intros [[-> ->] | [(r & -> & Hr & -> & ->) | (r & -> & Hr & Hjson)]]; simpl.
  - rewrite fetch_handler. by rewrite <- app_assoc.
  - unfold bind at 1, reading at 1. unfold raise_for_status.
    destruct (Z.leb_spec 400 (status_code r)); [|lia].
    destruct (Z.ltb_spec (status_code r) 600); [|lia].
    cbn [andb fst snd]. rewrite fetch_handler. by rewrite <- app_assoc.
  - unfold bind at 1, reading at 1. unfold raise_for_status.
    replace ((400 <=? status_code r)%Z && (status_code r <? 600)%Z) with false.
    + rewrite on_heap_run, Hjson. simpl. rewrite fetch_handler.
      by rewrite <- app_assoc.
    + symmetry. apply andb_false_iff.
      destruct (Z.leb_spec 400 (status_code r)); [|by left].
      destruct (Z.ltb_spec (status_code r) 600); [lia|by right].
Qed.

Section program_facts.
Context {W Clip : Type}.
Context (requests_get : M W response) (fs : files W).
Context (dumps : game_data → heap → outcome string).
Context (st : studio W Clip) (pw : playwright W).

(** The program up to the fetched data. *)
Lemma main_fetched h w tr data h1 w1 tr1 :
  fetch_daily_words requests_get
    (h, w, tr ++ [Printed "Starting Spelling Bee Automation..."])
  = (Ok data, (h1, w1, tr1)) →
  main requests_get fs dumps st pw (h, w, tr)
  = (let* found := on_heap (reading (λ h, truthy h data)) in
     if negb found then ret tt
     else
       let* words := on_heap (get_prioritized_words data) in
       let* any := on_heap (reading (λ h, truthy h words)) in
       if negb any then print "No words found."
       else
         let* n := on_heap (reading (λ h, py_len h words)) in
         exec print ("Found " ++ decimal n ++ " words.")%string in
         produce fs dumps st pw data words) (h1, w1, tr1).
Proof.
  intros Hfetch. unfold main. unfold bind at 1. rewrite print_run.
  unfold bind at 1. by rewrite Hfetch.
Qed.

(** X24.  When the fetch fails in any of its three ways, the program prints
    the error and ends: the empty dict that stands for the data is falsy,
    so nothing is prioritised, written, played or uploaded. *)
Theorem main_stops_when_fetch_fails h w tr e h1 w1 :
  fetch_failure requests_get h w e h1 w1 →
  main requests_get fs dumps st pw (h, w, tr)
  = (Ok tt,
     (h1 ++ [ODict ∅], w1,
      tr ++ [Printed "Starting Spelling Bee Automation..."; HttpGet;
             PrintedError "Error fetching API: " e])).
Proof.
  intros Hfail.
  rewrite (main_fetched h w tr _ _ _ _
             (fetch_failure_run _ _ _ _ _ _ _ Hfail)).
  unfold bind, reading. rewrite on_heap_run. unfold truthy.
  rewrite list_lookup_middle by done. simpl. unfold ret.
  by rewrite <- app_assoc.
Qed.

(** The program from the data to the words. *)
Lemma main_prioritised h w tr data h1 w1 tr1 :
  fetch_daily_words requests_get
    (h, w, tr ++ [Printed "Starting Spelling Bee Automation..."])
  = (Ok data, (h1, w1, tr1)) →
  closed h1 = true → val_ok (length h1) data = true →
  truthy h1 data = Ok true →
  ∃ new,
    match read_input h1 data with
    | Ok [] =>
        main requests_get fs dumps st pw (h, w, tr)
        = (Ok tt, (h1 ++ new, w1, tr1 ++ [Printed "No words found."]))
    | Ok (e :: es) =>
        ∃ r, list_at (h1 ++ new) r = Some (word <$> prioritized (e :: es))
             ∧ main requests_get fs dumps st pw (h, w, tr)
               = produce fs dumps st pw data r
                   (h1 ++ new, w1,
                    tr1 ++ [Printed ("Found "
                                     ++ decimal (Z.of_nat (length (e :: es)))
                                     ++ " words.")%string])
    | Raise x =>
        main requests_get fs dumps st pw (h, w, tr)
        = (Raise x, (h1 ++ new, w1, tr1))
    end.
Proof.
  intros Hfetch Hc Hd Ht.
  destruct (get_prioritized_words_run h1 h1 data Hc Hd (agree_refl h1))
    as (new & o & Hrun & Hout).
  exists new.
  assert (Hstart : main requests_get fs dumps st pw (h, w, tr)
            = match o with
              | Ok words =>
                  (let* any := on_heap (reading (λ h, truthy h words)) in
                   if negb any then print "No words found."
                   else
                     let* n := on_heap (reading (λ h, py_len h words)) in
                     exec print ("Found " ++ decimal n ++ " words.")%string in
                     produce fs dumps st pw data words) (h1 ++ new, w1, tr1)
              | Raise x => (Raise x, (h1 ++ new, w1, tr1))
              end).
  { rewrite (main_fetched h w tr _ _ _ _ Hfetch).
    unfold bind at 1. rewrite on_heap_run. unfold reading at 1. simpl.
    rewrite Ht. simpl. unfold bind at 1. rewrite on_heap_run, Hrun.
    by destruct o. }
  rewrite Hstart. clear Hstart.
  destruct (read_input h1 data) as [es|x]; [|by subst o].
  destruct Hout as (r & -> & Hlist).
  destruct r as [| | | | |l]; try done. unfold list_at in Hlist.
  destruct ((h1 ++ new) !! l) as [[items|fields]|] eqn:Hl; try done.
  injection Hlist as ->.
  assert (Hlen : length (word <$> prioritized es) = length es).
  { by rewrite length_fmap, prioritized_perm. }
  destruct es as [|e es].
  - unfold bind. rewrite on_heap_reading. unfold truthy. rewrite Hl, Hlen.
    simpl. by rewrite print_run.
  - exists (VRef l). split; [unfold list_at; by rewrite Hl|].
    unfold bind at 1. rewrite on_heap_reading. unfold truthy.
    rewrite Hl, Hlen. cbn [length Nat.eqb negb].
    unfold bind at 1. rewrite on_heap_reading. unfold py_len.
    rewrite Hl, Hlen. unfold bind at 1. by rewrite print_run.
Qed.

(** X25.  When the data is there but holds no word (no ["words"] key, an
    empty list, or data that is not a dict and does not contain "words"),
    the program prints "No words found." and ends, before any file is
    written or the browser started. *)
Theorem main_stops_without_words h w tr data h1 w1 tr1 :
  fetch_daily_words requests_get
    (h, w, tr ++ [Printed "Starting Spelling Bee Automation..."])
  = (Ok data, (h1, w1, tr1)) →
  closed h1 = true → val_ok (length h1) data = true →
  truthy h1 data = Ok true → read_input h1 data = Ok [] →
  ∃ new,
    main requests_get fs dumps st pw (h, w, tr)
    = (Ok tt, (h1 ++ new, w1, tr1 ++ [Printed "No words found."])).
Proof.
  intros Hfetch Hc Hd Ht Hread.
  destruct (main_prioritised h w tr data h1 w1 tr1 Hfetch Hc Hd Ht)
    as (new & Hmain).
  rewrite Hread in Hmain. by exists new.
Qed.

(** X26.  The program has no handler around the prioritisation: the
    exception of a malformed entry ([KeyError], [TypeError]) ends the
    program, before any file is written or the browser started. *)
Theorem main_lets_data_errors_escape h w tr data h1 w1 tr1 x :
  fetch_daily_words requests_get
    (h, w, tr ++ [Printed "Starting Spelling Bee Automation..."])
  = (Ok data, (h1, w1, tr1)) →
  closed h1 = true → val_ok (length h1) data = true →
  truthy h1 data = Ok true → read_input h1 data = Raise x →
  ∃ new,
    main requests_get fs dumps st pw (h, w, tr)
    = (Raise x, (h1 ++ new, w1, tr1)).
Proof.
  intros Hfetch Hc Hd Ht Hread.
  destruct (main_prioritised h w tr data h1 w1 tr1 Hfetch Hc Hd Ht)
    as (new & Hmain).
  rewrite Hread in Hmain. by exists new.
Qed.
End program_facts.

Lemma main_stops_when_fetch_fails_witness :
  main (ret unavailable) folder_files dumps_letters folder_studio
    (folder_playwright true) ([], [], [])
  = (Ok tt,
     ([] ++ [ODict ∅], [],
      [] ++ [Printed "Starting Spelling Bee Automation..."; HttpGet;
             PrintedError "Error fetching API: "
               (SurfaceError "503 Server Error: Service Unavailable")])).
Proof.
  apply (main_stops_when_fetch_fails (ret unavailable) folder_files
           dumps_letters folder_studio (folder_playwright true) [] [] []).
  right. left. exists unavailable. repeat split; by vm_compute.
Defined.

Lemma main_stops_without_words_witness :
  ∃ new,
    main (ret reply_no_words) folder_files dumps_letters folder_studio
      (folder_playwright true) ([], [], [])
    = (Ok tt,
       ([ODict {["puzzle" := VNone]}] ++ new, [],
        [Printed "Starting Spelling Bee Automation..."; HttpGet]
        ++ [Printed "No words found."])).
Proof.
  apply (main_stops_without_words (ret reply_no_words) folder_files
           dumps_letters folder_studio (folder_playwright true) [] [] []
           (VRef 0)); by vm_compute.
Defined.

Lemma main_lets_data_errors_escape_witness :
  ∃ new,
    main (ret reply_missing) folder_files dumps_letters folder_studio
      (folder_playwright true) ([], [], [])
    = (Raise KeyError,
       (h_missing ++ new, [],
        [Printed "Starting Spelling Bee Automation..."; HttpGet])).
Proof.
  apply (main_lets_data_errors_escape (ret reply_missing) folder_files
           dumps_letters folder_studio (folder_playwright true) [] [] []
           (VRef 0)); by vm_compute.
Defined.

Ltac in_list := apply list_elem_of_In; simpl; tauto.
Ltac not_in_list :=
  let Hin := fresh in
  intros Hin; apply list_elem_of_In in Hin; simpl in Hin;
  repeat (destruct Hin as [Hin|Hin]; [discriminate|]); done.

Section publishing.
Context {W Clip : Type} (fs : files W) (st : studio W Clip) (pw : playwright W).

(** X27.  The upload is called exactly when the output video exists and
    there are credentials: a non-empty YOUTUBE_TOKEN in the environment, or
    else a file token.json (an empty YOUTUBE_TOKEN does not count).  When
    it is not called, nothing changes and nothing is raised. *)
Theorem upload_needs_video_and_credentials data h w tr :
  ∃ r h' w' new,
    publish fs pw data (h, w, tr) = (r, (h', w', tr ++ new))
    ∧ (Upload OUTPUT_VIDEO ∈ new
       ↔ path_exists fs OUTPUT_VIDEO w = true
         ∧ (truthy_text (environ_get pw "YOUTUBE_TOKEN" w) = true
            ∨ path_exists fs "token.json" w = true))
    ∧ (Upload OUTPUT_VIDEO ∉ new → r = Ok tt ∧ h' = h ∧ w' = w).
Proof.
  unfold publish. unfold bind at 1. rewrite os_call_reading. destruct (path_exists fs OUTPUT_VIDEO w) eqn:Hvideo.
  - unfold bind at 1. rewrite os_call_reading.
    unfold bind at 1.
    destruct (truthy_text (environ_get pw "YOUTUBE_TOKEN" w)) eqn:Htoken.
    + unfold ret. rewrite lib_call_run.
      eexists _, _, _, [PathExists OUTPUT_VIDEO; EnvironGet "YOUTUBE_TOKEN";
                        Upload OUTPUT_VIDEO].
      split; [by rewrite <- !app_assoc|]. split.
      * split; [by auto|]. intros _. in_list.
      * intros Hnot. exfalso. apply Hnot. in_list.
    + rewrite os_call_reading.
      destruct (path_exists fs "token.json" w) eqn:Hfile.
      * rewrite lib_call_run.
        eexists _, _, _, [PathExists OUTPUT_VIDEO; EnvironGet "YOUTUBE_TOKEN";
                          PathExists "token.json"; Upload OUTPUT_VIDEO].
        split; [by rewrite <- !app_assoc|]. split.
        -- split; [by auto|]. intros _. in_list.
        -- intros Hnot. exfalso. apply Hnot. in_list.
      * rewrite print_run.
        exists (Ok tt), h, w,
          [PathExists OUTPUT_VIDEO; EnvironGet "YOUTUBE_TOKEN";
           PathExists "token.json";
           Printed "No YouTube credentials found. Skipping upload."].
        split; [by rewrite <- !app_assoc|]. split; [|done].
        split; [|by intros [_ [?|?]]]. not_in_list.
  - unfold ret. exists (Ok tt), h, w, [PathExists OUTPUT_VIDEO].
    split; [done|]. split; [|done].
    split; [|by intros [? _]]. not_in_list.
Qed.

(** X28.  The test of line 318 is whether the output video exists, not
    whether this run made it: when the directory holds no recording, so
    that nothing is processed, a video left by an earlier run is uploaded
    all the same. *)
Theorem stale_video_is_uploaded data h w tr names :
  listdir st VIDEO_DIR w = Ok names →
  Forall (λ name, endswith ".webm" name = false) names →
  path_exists fs OUTPUT_VIDEO w = true →
  truthy_text (environ_get pw "YOUTUBE_TOKEN" w) = true →
  (exec process_video fs st in publish fs pw data) (h, w, tr)
  = lib_call (Upload OUTPUT_VIDEO) (upload_to_youtube pw OUTPUT_VIDEO data)
      (h, w,
       tr ++ [ListDir VIDEO_DIR; Printed "No recordings found.";
              PathExists OUTPUT_VIDEO; EnvironGet "YOUTUBE_TOKEN"]).
Proof.
  intros Hdir Hnone Hvideo Htoken. unfold bind at 1.
  rewrite (process_video_no_recording fs st _ _ _ _ Hdir Hnone).
  unfold publish. unfold bind at 1. rewrite os_call_reading. rewrite Hvideo.
  unfold bind at 1. rewrite os_call_reading.
  unfold bind at 1. rewrite Htoken. unfold ret. by rewrite <- !app_assoc.
Qed.

(** X29.  The browser is started outside the [try] of line 114: when the
    launch (or the opening of the context or of the page) raises, the
    playwright context is left and the exception is raised to the caller;
    no call is made on a page, and nothing is printed. *)
Theorem browser_start_failure_escapes url words h w tr w1 e w2 r w3 :
  path_exists fs VIDEO_DIR w = true →
  start_playwright pw w = (Ok tt, w1) →
  launch pw (bool_decide (environ_get pw "GITHUB_ACTIONS" w1 = Some "true")) w1
  = (Raise e, w2) →
  stop_playwright pw w2 = (r, w3) →
  run_browser fs pw url words (h, w, tr)
  = (match r with Ok _ => Raise e | Raise e' => Raise e' end,
     (h, w3,
      tr ++ [PathExists VIDEO_DIR; StartPlaywright;
             EnvironGet "GITHUB_ACTIONS";
             Launch (bool_decide (environ_get pw "GITHUB_ACTIONS" w1
                                  = Some "true"));
             StopPlaywright])).
Proof.
  intros Hdir Hstart Hlaunch Hstop. unfold run_browser.
  unfold bind at 1. rewrite os_call_reading.
  rewrite Hdir. cbn [negb]. unfold bind at 1. unfold ret at 1.
  unfold bind at 1. rewrite os_call_run, Hstart. cbn [fst snd].
  unfold try_finally. unfold bind at 1. rewrite os_call_reading.
  unfold bind at 1. rewrite os_call_run, Hlaunch. cbn [fst snd].
  rewrite os_call_run, Hstop. cbn [fst snd].
  rewrite <- !app_assoc. by destruct r as [[]|e'].
Qed.
End publishing.

Lemma stale_video_is_uploaded_witness :
  (exec process_video folder_files folder_studio in
   publish folder_files (folder_playwright true) (VRef 0))
    ([], earlier_video, [])
  = (Ok tt,
     ([], earlier_video,
      [ListDir VIDEO_DIR; Printed "No recordings found.";
       PathExists OUTPUT_VIDEO; EnvironGet "YOUTUBE_TOKEN";
       Upload OUTPUT_VIDEO])).
Proof.
  rewrite (stale_video_is_uploaded folder_files folder_studio
             (folder_playwright true) (VRef 0) [] earlier_video []
             ["spelling_bee_daily.mp4"]).
  - reflexivity.
  - reflexivity.
  - by repeat constructor.
  - reflexivity.
  - reflexivity.
Defined.

Lemma browser_start_failure_escapes_witness :
  run_browser folder_files (folder_playwright false) "file:///game.html"
    (VRef 0) ([OList []], empty_recordings, [])
  = (Raise (SurfaceError "Executable doesn't exist"),
     ([OList []], empty_recordings,
      [PathExists VIDEO_DIR; StartPlaywright; EnvironGet "GITHUB_ACTIONS";
       Launch false; StopPlaywright])).
Proof.
  exact (browser_start_failure_escapes folder_files (folder_playwright false)
           "file:///game.html" (VRef 0) [OList []] empty_recordings []
           empty_recordings (SurfaceError "Executable doesn't exist")
           empty_recordings (Ok tt) empty_recordings
           eq_refl eq_refl eq_refl eq_refl).
Defined.

(** ** From the data to the browser *)

Lemma strings_of_strs ws : strings_of (VStr <$> ws) = Some ws.
Proof. induction ws as [|w ws IH]; [done|]. csimpl. by rewrite IH. Qed.

Lemma words_are_strings (l : list scored) :
  Forall (λ e, ∃ s, word e = VStr s) l →
  word <$> l = VStr <$> (text_of ∘ word <$> l).
Proof.
  induction 1 as [|e l [s Hs] _ IH]; [done|].
  rewrite !fmap_cons, IH. simpl. by rewrite Hs.
Qed.

Lemma text_of_entries h items ws :
  length items = length ws →
  text_of ∘ word <$> zip_with (entry_of h) items ws = ws.
Proof.
  revert ws. induction items as [|item items IH]; intros [|w ws]; try done.
  intros [= Hlen]. simpl. by rewrite IH.
Qed.

Lemma entries_are_strings h items ws :
  Forall (λ e, ∃ s, word e = VStr s) (zip_with (entry_of h) items ws).
Proof.
  revert ws. induction items as [|item items IH]; intros [|w ws];
    try by constructor.
  simpl. constructor; [by exists w|apply IH].
Qed.

(** X30.  For well-formed data with at least one word, the program prints
    the number of words (that of the items of the data, repeated words
    counted) and goes on to generate the game file with the same data; the
    list it will pass to the browser holds the words of the data, each
    once, as strings, so that the browser session is the play loop over
    them. *)
Theorem main_counts_and_passes_the_words {W Clip}
    (requests_get : M W response) (fs : files W)
    (dumps : game_data → heap → outcome string)
    (st : studio W Clip) (pw : playwright W)
    h w tr data h1 w1 tr1 items ws :
  fetch_daily_words requests_get
    (h, w, tr ++ [Printed "Starting Spelling Bee Automation..."])
  = (Ok data, (h1, w1, tr1)) →
  closed h1 = true → val_ok (length h1) data = true →
  puzzle_data h1 data items → Forall2 (word_entry h1) items ws →
  items ≠ [] →
  ∃ new r ws',
    list_at (h1 ++ new) r = Some (VStr <$> ws')
    ∧ ws' ≡ₚ ws
    ∧ strings_of (VStr <$> ws') = Some ws'
    ∧ main requests_get fs dumps st pw (h, w, tr)
      = produce fs dumps st pw data r
          (h1 ++ new, w1,
           tr1 ++ [Printed ("Found " ++ decimal (Z.of_nat (length items))
                            ++ " words.")%string]).
Proof.
  intros Hfetch Hc Hd Hdata Hitems Hne.
  assert (Ht : truthy h1 data = Ok true).
  { destruct Hdata as (l & fields & lw & -> & Hl & Hw & _).
    unfold truthy. rewrite Hl.
    assert (Hsize : size fields ≠ 0).
    { apply map_size_ne_0_lookup. by exists "words", (VRef lw). }
    by destruct (size fields). }
  destruct (main_prioritised requests_get fs dumps st pw h w tr data h1 w1 tr1
              Hfetch Hc Hd Ht) as (new & Hmain).
  rewrite (read_input_wellformed _ _ _ _ Hdata Hitems) in Hmain.
  pose proof (Forall2_length _ _ _ Hitems) as Hlen.
  assert (Hsize : length (zip_with (entry_of h1) items ws) = length items).
  { rewrite length_zip_with. lia. }
  destruct (zip_with (entry_of h1) items ws) as [|e es] eqn:Hes.
  { destruct items; [done|]. simpl in Hsize. lia. }
  destruct Hmain as (r & Hlist & Hmain). rewrite <- Hes in *. clear Hes.
  exists new, r,
    (text_of ∘ word <$> prioritized (zip_with (entry_of h1) items ws)).
  split; [|split; [|split]].
  - rewrite Hlist. f_equal. apply words_are_strings.
    rewrite prioritized_perm. apply entries_are_strings.
  - rewrite prioritized_perm. by rewrite text_of_entries.
  - apply strings_of_strs.
  - by rewrite Hmain, Hsize.
Qed.

Lemma main_counts_and_passes_the_words_witness :
  ∃ new r ws',
    list_at (h0 ++ new) r = Some (VStr <$> ws')
    ∧ ws' ≡ₚ words0
    ∧ strings_of (VStr <$> ws') = Some ws'
    ∧ main (ret reply_h0) folder_files dumps_letters folder_studio
        (folder_playwright true) ([], [], [])
      = produce folder_files dumps_letters folder_studio
          (folder_playwright true) (VRef 0) r
          (h0 ++ new, [],
           [Printed "Starting Spelling Bee Automation..."; HttpGet]
           ++ [Printed "Found 5 words."]).
Proof.
  apply (main_counts_and_passes_the_words (ret reply_h0) folder_files
           dumps_letters folder_studio (folder_playwright true) [] [] []
           (VRef 0) h0 [] _ items0 words0);
    [by vm_compute .. | apply puzzle_data_h0 | apply word_entries_h0 | done].
Defined.
